(** * The openlight application runner (pkg/runner/runner.go)

    A shallow embedding of the instance lifecycle manager: the spec table,
    the instance records, the directory store under the runner's root path,
    the operating-system processes the records point to, and the operations
    Start / Stop / Restart / List / CleanAll over them.

    The operating system is an explicit [World] that every operation reads
    and, where the Go code has an effect, returns updated:
    - [procs]: the process table; what a signal to a pid answers and which
      signals end the process;
    - [store]: the directory tree under [rootPath];
    - [beyond]: what the paths that leave [rootPath] denote;
    - [trace]: the signals delivered and the commands launched, oldest
      first.
    Go's [error] is an [option string] holding the message ([None] is nil). *)

From Stdlib Require Import ZArith String Ascii List Bool Lia.
From stdpp Require Import base option list gmap strings pretty.

Local Open Scope Z_scope.
Local Open Scope string_scope.
Local Open Scope list_scope.

(** ** Constants (runner.go, const block) *)

Definition StatusRunning : Z := 0.
Definition StatusExited : Z := 1.
Definition StatusError : Z := 2.

Definition InstanceInfoFileName : string := "info.json".
Definition InstanceLogStderrName : string := "stderr.log".
Definition InstanceLogStdoutName : string := "stdout.log".

Definition SignalInt : Z := 2.
Definition SignalQuit : Z := 3.
Definition SignalKill : Z := 9.

(** Go's [error]: nil or a message. *)
Abbreviation error := (option string).

(** A Go result pair [(value, error)] in which exactly one side is set. *)
Inductive result (A : Type) : Type :=
| Ok (a : A)
| Err (e : string).
Arguments Ok {A} a.
Arguments Err {A} e.

(** ** Data model *)

(** Modelled from the spec: the declaration of RunnerAppSpec is not in
    runner.go; its fields are the ones runner.go reads ([Name], [Command],
    [Workdir], [Singleton], [Args]) and section 3 of the specification
    lists. *)
Module Spec.
Record RunnerAppSpec : Type := {
  Name : string;
  Command : string;
  Workdir : string;
  Singleton : bool;
  Args : list string;
}.
End Spec.
Abbreviation RunnerAppSpec := Spec.RunnerAppSpec.

Record AppStartOptions : Type := {
  Args : list string;
  WorkDir : string;
  Singleton : bool;
  Background : bool;
  IgnoreSpecArgs : bool;
}.

Record AppInstance : Type := { ID : string; Time : Z;
  Name : string;
  Command : string;
  Options : AppStartOptions;
  Pid : Z;
}.

(** [Apps] is a Go [map[string]*RunnerAppSpec]: a key can be bound to a nil
    pointer, which is [Some None] here. *)
Record AppRunner : Type := {
  Apps : gmap string (option RunnerAppSpec);
}.

(** [this.Apps[name]] followed by the test [appSpec != nil]. *)
Definition Apps_get (this : AppRunner) (name : string) : option RunnerAppSpec :=
  match Apps this !! name with
  | Some (Some appSpec) => Some appSpec
  | _ => None
  end.

(** ** The operating system *)

(** A process as the runner sees it: [proc_sigerr] is the error the kernel
    answers to any signal sent to it (for instance "operation not
    permitted"), [proc_fatal] the signals that end it once delivered. *)
Record Proc : Type := {
  proc_sigerr : error;
  proc_fatal : list Z;
}.

Inductive Event : Type :=
| EvSignal (pid sig : Z)
| EvExec (command : string) (args : list string) (dir : string)
         (background : bool) (pid : Z).

(** What a file under the root holds: bytes that [json.Unmarshal] decodes to
    an instance record, or any other bytes, which it rejects. *)
Inductive Content : Type :=
| JSON (instance : AppInstance)
| Raw (bytes : string).

(** An instance directory: the record file and the two log files, each
    present or not; [locked] directories cannot be removed. *)
Record InstanceDir : Type := {
  info_json : option Content;
  stderr_log : option string;
  stdout_log : option string;
  locked : bool;
}.

Inductive Node : Type :=
| File (bytes : string)
| Dir (d : InstanceDir).

(** The runner's root path: absent, unreadable, or a directory whose
    entries are kept in the order [ioutil.ReadDir] lists them (by name). *)
Inductive Root : Type :=
| NoRoot
| BadRoot (err : string)
| RootDir (entries : list (string * Node)).

(** What a path [filepath.Join(rootPath, id)] denotes, seen from the root:
    the root directory or a directory above it, an entry of the root, a path
    inside an entry, or a path that has left the root and come down again
    elsewhere. *)
Inductive Target : Type :=
| TRoot
| TEntry (name : string)
| TInside (name : string) (rest : list string)
| TOutside.

(** [procs] holds the processes by pid; no process has pid 0 or -1.
    [unopenable] holds the pids for which [os.FindProcess] fails, with the
    message. An entry of the root has a file name as its name: not empty,
    without "/", and neither "." nor "..". [beyond] tells, for an [id] whose
    path leaves the root and names something outside it, what that path
    denotes and the error that removing it meets, if any; an [id] it does
    not list is a path to nothing. *)
Record World : Type := {
  procs : gmap Z Proc;
  unopenable : gmap Z string;
  store : Root;
  beyond : gmap string (Target * error);
  trace : list Event;
}.

Definition set_procs (w : World) (ps : gmap Z Proc) : World :=
  {| procs := ps; unopenable := unopenable w; store := store w; beyond := beyond w;
     trace := trace w |}.
Definition set_store (w : World) (r : Root) : World :=
  {| procs := procs w; unopenable := unopenable w; store := r; beyond := beyond w;
     trace := trace w |}.
Definition log_event (w : World) (ev : Event) : World :=
  {| procs := procs w; unopenable := unopenable w; store := store w; beyond := beyond w;
     trace := trace w ++ [ev] |}.

(** The message of Go's [os] package for a signal sent to a process that is
    gone (the kernel's ESRCH), and its messages for a handle whose pid is 0
    or -1, which it refuses to signal. *)
Definition errFinished : string := "os: process already finished".
Definition errNotInitialized : string := "os: process not initialized".
Definition errReleased : string := "os: process already released".

(** [os.FindProcess(pid)]: the error, if any. *)
Definition os_FindProcess (w : World) (pid : Z) : error :=
  unopenable w !! pid.

(** [proc.Signal(syscall.Signal(sig))]. Go's [Process.Signal] refuses a
    handle whose pid is -1 or 0 before it asks the kernel; as no process has
    such a pid, these are pids without an entry in the process table, and
    they get the answer of the [os] package here. For any other pid without
    an entry the kernel answers ESRCH, which the [os] package reports as
    [errFinished]. Signal 0 only checks that the process can be signalled;
    any other delivered signal is recorded in the trace and ends the process
    when it is one of its fatal signals. The end of the process is taken at
    the delivery: the time a real process needs to die is not modelled. *)
Definition proc_Signal (w : World) (pid sig : Z) : World * error :=
  match procs w !! pid with
  | None =>
      if bool_decide (pid = 0) then (w, Some errNotInitialized)
      else if bool_decide (pid = -1) then (w, Some errReleased)
      else (w, Some errFinished)
  | Some p =>
      match proc_sigerr p with
      | Some e => (w, Some e)
      | None =>
          if bool_decide (sig = 0) then (w, None)
          else if bool_decide (sig ∈ proc_fatal p)
               then (log_event (set_procs w (delete pid (procs w))) (EvSignal pid sig), None)
               else (log_event w (EvSignal pid sig), None)
      end
  end.

(** ** AppInstance methods *)

(** runner.go 433-447 *)
Definition GetStatus (w : World) (this : AppInstance) : Z * error :=
  match os_FindProcess w (Pid this) with
  | Some _ => (StatusExited, None)
  | None =>
      match snd (proc_Signal w (Pid this) 0) with
      | Some err =>
          if bool_decide (err = "os: process already finished")
          then (StatusExited, None)
          else (StatusError, Some err)
      | None => (StatusRunning, None)
      end
  end.

(** runner.go 450-464 *)
Definition Stop (w : World) (this : AppInstance) : World * error :=
  match os_FindProcess w (Pid this) with
  | Some _ => (w, None)
  | None =>
      match proc_Signal w (Pid this) SignalInt with
      | (w', Some err) =>
          if bool_decide (err = "os: process already finished")
          then (w', None)
          else (w', Some err)
      | (w', None) => (w', None)
      end
  end.

(** runner.go 467-481 *)
Definition Quit (w : World) (this : AppInstance) : World * error :=
  match os_FindProcess w (Pid this) with
  | Some _ => (w, None)
  | None =>
      match proc_Signal w (Pid this) SignalQuit with
      | (w', Some err) =>
          if bool_decide (err = "os: process already finished")
          then (w', None)
          else (w', Some err)
      | (w', None) => (w', None)
      end
  end.

(** runner.go 484-498 *)
Definition Kill (w : World) (this : AppInstance) : World * error :=
  match os_FindProcess w (Pid this) with
  | Some _ => (w, None)
  | None =>
      match proc_Signal w (Pid this) SignalKill with
      | (w', Some err) =>
          if bool_decide (err = "os: process already finished")
          then (w', None)
          else (w', Some err)
      | (w', None) => (w', None)
      end
  end.

(** ** The directory store under [rootPath] *)

Fixpoint entries_get (name : string) (es : list (string * Node)) : option Node :=
  match es with
  | [] => None
  | (n, x) :: rest => if bool_decide (n = name) then Some x else entries_get name rest
  end.

Definition entries_remove (name : string) (es : list (string * Node)) : list (string * Node) :=
  filter (λ e, e.1 ≠ name) es.

Fixpoint entries_ins (name : string) (x : Node) (es : list (string * Node)) : list (string * Node) :=
  match es with
  | [] => [(name, x)]
  | (n, y) :: rest =>
      if String.ltb name n then (name, x) :: (n, y) :: rest
      else (n, y) :: entries_ins name x rest
  end.

(** Rewrites the instance directory called [name] in place. *)
Fixpoint entries_update (name : string) (f : InstanceDir → InstanceDir)
    (es : list (string * Node)) : list (string * Node) :=
  match es with
  | [] => []
  | (n, x) :: rest =>
      if bool_decide (n = name)
      then (n, match x with Dir d => Dir (f d) | File b => File b end) :: rest
      else (n, x) :: entries_update name f rest
  end.

(** The entries of a root; an absent or unreadable root shows none. *)
Definition root_entries (r : Root) : list (string * Node) :=
  match r with
  | RootDir es => es
  | _ => []
  end.

(** The node at [filepath.Join(rootPath, name)], if there is one. *)
Definition store_get (w : World) (name : string) : option Node :=
  entries_get name (root_entries (store w)).

Inductive StatResult : Type :=
| StatOk
| StatNotExist
| StatErr (e : string).

(** [os.Stat(filepath.Join(rootPath, name))] *)
Definition os_Stat (w : World) (name : string) : StatResult :=
  match store w with
  | NoRoot => StatNotExist
  | BadRoot e => StatErr e
  | RootDir es =>
      match entries_get name es with
      | Some _ => StatOk
      | None => StatNotExist
      end
  end.

(** The elements of a path, split at every "/". *)
Fixpoint path_elements (s : string) : list string :=
  match s with
  | "" => [""]
  | String c rest =>
      if Ascii.eqb c "/" then "" :: path_elements rest
      else match path_elements rest with
           | x :: xs => String c x :: xs
           | [] => [String c ""]
           end
  end.

(** One element of the walk that [filepath.Clean] does over a joined path,
    seen from the root: whether the path has gone above the root, and the
    elements below the directory it has reached, innermost first. *)
Definition path_step (st : bool * list string) (elem : string) : bool * list string :=
  if bool_decide (elem = "") || bool_decide (elem = ".") then st
  else if bool_decide (elem = "..")
       then match st.2 with
            | [] => (true, [])
            | _ :: up => (st.1, up)
            end
       else (st.1, elem :: st.2).

(** Where [filepath.Join(rootPath, id)] points. *)
Definition path_target (id : string) : Target :=
  match foldl path_step (false, []) (path_elements id) with
  | (false, stack) =>
      match reverse stack with
      | [] => TRoot
      | [name] => TEntry name
      | name :: rest => TInside name rest
      end
  | (true, []) => TRoot
  | (true, _ :: _) => TOutside
  end.

Definition is_locked (e : string * Node) : bool :=
  match e.2 with
  | Dir d => locked d
  | File _ => false
  end.

(** Removing the entry [name] of the root [es]. *)
Definition remove_entry (w : World) (es : list (string * Node)) (name : string)
    : World * error :=
  match entries_get name es with
  | Some (Dir d) =>
      if locked d then (w, Some "unlinkat: operation not permitted")
      else (set_store w (RootDir (entries_remove name es)), None)
  | Some (File _) => (set_store w (RootDir (entries_remove name es)), None)
  | None => (w, None)
  end.

(** The file of an instance directory that the path [rest] inside it names,
    and the directory without it. *)
Definition inside_file (d : InstanceDir) (rest : list string) : bool :=
  match rest with
  | [file] =>
      if bool_decide (file = InstanceInfoFileName) then bool_decide (is_Some (info_json d))
      else if bool_decide (file = InstanceLogStderrName)
           then bool_decide (is_Some (stderr_log d))
           else if bool_decide (file = InstanceLogStdoutName)
                then bool_decide (is_Some (stdout_log d))
                else false
  | _ => false
  end.
Definition remove_inside (rest : list string) (d : InstanceDir) : InstanceDir :=
  match rest with
  | [file] =>
      if bool_decide (file = InstanceInfoFileName)
      then {| info_json := None; stderr_log := stderr_log d; stdout_log := stdout_log d;
              locked := locked d |}
      else if bool_decide (file = InstanceLogStderrName)
           then {| info_json := info_json d; stderr_log := None;
                   stdout_log := stdout_log d; locked := locked d |}
           else if bool_decide (file = InstanceLogStdoutName)
                then {| info_json := info_json d; stderr_log := stderr_log d;
                        stdout_log := None; locked := locked d |}
                else d
  | _ => d
  end.

(** [os.RemoveAll] of what the path denotes: removing what is not there
    succeeds; removing the root removes what it can and answers the first
    failure. *)
Definition remove_target (w : World) (t : Target) : World * error :=
  match store w with
  | NoRoot => (w, None)
  | BadRoot err => (w, Some err)
  | RootDir es =>
      match t with
      | TRoot =>
          if existsb is_locked es
          then (set_store w (RootDir (filter (λ e, is_locked e = true) es)),
                Some "unlinkat: operation not permitted")
          else (set_store w NoRoot, None)
      | TEntry name => remove_entry w es name
      | TInside name rest =>
          match entries_get name es with
          | Some (Dir d) =>
              if inside_file d rest
              then if locked d then (w, Some "unlinkat: operation not permitted")
                   else (set_store w (RootDir (entries_update name (remove_inside rest) es)),
                         None)
              else (w, None)
          | _ => (w, None)
          end
      | TOutside => (w, None)
      end
  end.

(** [os.RemoveAll] of a path that is not the name of an entry. *)
Definition remove_path (w : World) (name : string) : World * error :=
  match path_target name with
  | TOutside =>
      match beyond w !! name with
      | Some (_, Some err) => (w, Some err)
      | Some (t, None) => remove_target w t
      | None => (w, None)
      end
  | t => remove_target w t
  end.

(** [os.RemoveAll(filepath.Join(rootPath, name))]. A name that the root
    lists is the path of that entry; any other is walked as a path, so that
    the empty name and "." are the root itself, ".." the directory above it
    and "x/" the entry x. *)
Definition os_RemoveAll (w : World) (name : string) : World * error :=
  match store w with
  | RootDir es =>
      match entries_get name es with
      | Some _ => remove_entry w es name
      | None => remove_path w name
      end
  | _ => remove_path w name
  end.

(** [ioutil.ReadFile(filepath.Join(rootPath, name, InstanceInfoFileName))]
    on the node called [name], which [ioutil.ReadDir] has listed. *)
Definition ioutil_ReadFile_info (node : Node) : result Content :=
  match node with
  | File _ => Err "not a directory"
  | Dir d =>
      match info_json d with
      | Some c => Ok c
      | None => Err "no such file or directory"
      end
  end.

(** [json.Unmarshal]: the record that the bytes decode to. The encoding is
    taken to lose nothing, so that the bytes [json.Marshal] makes of a record
    decode to that record; encoding/json does so for a record whose strings
    are valid UTF-8 (in any other string it replaces the offending bytes). *)
Definition json_Unmarshal (data : Content) : result AppInstance :=
  match data with
  | JSON instance => Ok instance
  | Raw _ => Err "invalid character looking for beginning of value"
  end.

(** ** AppRunner: reading the store *)

(** The line feed that ends the two messages of loadInstances. *)
Definition newline : string := String "010"%char "".

(** The loop of loadInstances, runner.go 373-391; a filter that is nil in
    Go is [None]. *)
Fixpoint loadInstances_loop (idFilterFunc : option (string → bool))
    (instanceFilterFunc : option (AppInstance → bool))
    (infos : list (string * Node)) : result (list AppInstance) :=
  match infos with
  | [] => Ok []
  | (name, node) :: rest =>
      if match idFilterFunc with Some f => negb (f name) | None => false end
      then loadInstances_loop idFilterFunc instanceFilterFunc rest
      else
        match ioutil_ReadFile_info node with
        | Err err =>
            Err ("Failed to read Info file [" +:+ InstanceInfoFileName
                 +:+ "] not found in instance [" +:+ name +:+ "], error: " +:+ err
                 +:+ newline)
        | Ok data =>
            match json_Unmarshal data with
            | Err err =>
                Err ("Info file [" +:+ InstanceInfoFileName +:+ "] in instance ["
                     +:+ name +:+ "] is broken, error: " +:+ err +:+ newline)
            | Ok instance =>
                match loadInstances_loop idFilterFunc instanceFilterFunc rest with
                | Err e => Err e
                | Ok instances =>
                    if match instanceFilterFunc with Some f => f instance | None => true end
                    then Ok (instance :: instances)
                    else Ok instances
                end
            end
        end
  end.

(** runner.go 363-393 *)
Definition loadInstances (w : World) (idFilterFunc : option (string → bool))
    (instanceFilterFunc : option (AppInstance → bool)) : result (list AppInstance) :=
  match store w with
  | NoRoot => Ok []
  | BadRoot err => Err err
  | RootDir infos => loadInstances_loop idFilterFunc instanceFilterFunc infos
  end.

(** runner.go 108-117 *)
Definition List (w : World) (onlyRunning : bool) : result (list AppInstance) :=
  if negb onlyRunning then loadInstances w None None
  else loadInstances w None
         (Some (λ instance, bool_decide ((GetStatus w instance).1 = StatusRunning))).

(** runner.go 138-149; Go's [(nil, nil)] is [Ok None]. *)
Definition GetInstance (w : World) (id : string) : result (option AppInstance) :=
  match loadInstances w (Some (λ _id, bool_decide (_id = id))) None with
  | Err err => Err err
  | Ok [] => Ok None
  | Ok (instance :: _) => Ok (Some instance)
  end.

(** runner.go 151-153 *)
Definition RemoveInstance (w : World) (id : string) : World * error :=
  os_RemoveAll w id.

(** runner.go 350-352 *)
Definition Clean (w : World) (id : string) : World * error :=
  os_RemoveAll w id.

(** runner.go 155-162 *)
Definition GetInstancesByName (this : AppRunner) (w : World) (name : string)
    : result (list AppInstance) :=
  let name := match Apps_get this name with
              | Some appSpec => Spec.Name appSpec
              | None => name
              end in
  loadInstances w None (Some (λ instance, bool_decide (Name instance = name))).

(** runner.go 164-175 *)
Definition GetRunningInstancesByName (this : AppRunner) (w : World) (name : string)
    : result (list AppInstance) :=
  let name := match Apps_get this name with
              | Some appSpec => Spec.Name appSpec
              | None => name
              end in
  loadInstances w None
    (Some (λ instance,
       if bool_decide (Name instance = name)
       then bool_decide ((GetStatus w instance).1 = StatusRunning)
       else false)).

(** The loop of CleanAll, runner.go 125-133. *)
Fixpoint CleanAll_loop (w : World) (instances : list AppInstance) : World * error :=
  match instances with
  | [] => (w, None)
  | instance :: rest =>
      if bool_decide ((GetStatus w instance).1 = StatusExited)
      then match RemoveInstance w (ID instance) with
           | (w', Some err) => (w', Some err)
           | (w', None) => CleanAll_loop w' rest
           end
      else CleanAll_loop w rest
  end.

(** runner.go 120-136 *)
Definition CleanAll (w : World) : World * error :=
  match List w false with
  | Err err => (w, Some err)
  | Ok instances => CleanAll_loop w instances
  end.

(** ** Allocating an instance id *)

(** One call of [rand.Read] on the eight-byte buffer: an error, or the
    bytes read. *)
Inductive Draw : Type :=
| RandErr (err : string)
| RandBytes (idBytes : list Byte.byte).

Definition hextable : string := "0123456789abcdef".

Definition hex_digit (n : N) : ascii :=
  match String.get (N.to_nat n) hextable with
  | Some c => c
  | None => "0"%char
  end.

(** [hex.EncodeToString]: two digits per byte, high nibble first. *)
Fixpoint hex_EncodeToString (src : list Byte.byte) : string :=
  match src with
  | [] => ""
  | v :: rest =>
      String (hex_digit (N.shiftr (Byte.to_N v) 4))
        (String (hex_digit (N.land (Byte.to_N v) 15)) (hex_EncodeToString rest))
  end.

(** runner.go 395-408. The loop has no bound in the Go code; [draws] are the
    answers [rand.Read] gives, in order, and [None] says that they were all
    used without the loop having returned. *)
Fixpoint getNextRandomID (w : World) (draws : list Draw) : option (result string) :=
  match draws with
  | [] => None
  | RandErr err :: _ => Some (Err err)
  | RandBytes idBytes :: rest =>
      let idStr := hex_EncodeToString idBytes in
      match os_Stat w idStr with
      | StatNotExist => Some (Ok idStr)
      | _ => getNextRandomID w rest
      end
  end.

(** ** Start *)

(** What the environment answers during one call of Start: the random
    draws, the failures of the file operations, the outcome of launching
    the command (the pid and the process the kernel creates, or an error),
    the clock, and the failure of the deferred removal of the instance
    directory. *)
Record StartEnv : Type := {
  env_rand : list Draw;
  env_mkdir : error;
  env_create_stderr : error;
  env_create_stdout : error;
  env_launch : result (Z * Proc);
  env_release : error;
  env_now : Z;
  env_marshal : error;
  env_write : error;
  env_cleanup : error;
}.

Definition set_Args (o : AppStartOptions) (a : list string) : AppStartOptions :=
  {| Args := a; WorkDir := WorkDir o; Singleton := Singleton o;
     Background := Background o; IgnoreSpecArgs := IgnoreSpecArgs o |}.
Definition set_WorkDir (o : AppStartOptions) (d : string) : AppStartOptions :=
  {| Args := Args o; WorkDir := d; Singleton := Singleton o;
     Background := Background o; IgnoreSpecArgs := IgnoreSpecArgs o |}.
Definition set_Singleton (o : AppStartOptions) (b : bool) : AppStartOptions :=
  {| Args := Args o; WorkDir := WorkDir o; Singleton := b;
     Background := Background o; IgnoreSpecArgs := IgnoreSpecArgs o |}.

(** runner.go 186-204: the name, command and options after the spec of
    [name], if there is one, has been applied. *)
Definition Start_applySpec (this : AppRunner) (name command : string)
    (options : AppStartOptions) : string * string * AppStartOptions :=
  match Apps_get this name with
  | Some appSpec =>
      let name := Spec.Name appSpec in
      let command :=
        if bool_decide (command = "") then Spec.Command appSpec else command in
      let options :=
        if bool_decide (WorkDir options = "")
        then set_WorkDir options (Spec.Workdir appSpec) else options in
      let options :=
        if negb (Singleton options) && Spec.Singleton appSpec
        then set_Singleton options (Spec.Singleton appSpec) else options in
      let options :=
        if negb (IgnoreSpecArgs options) && bool_decide (0 < length (Spec.Args appSpec))%nat
        then set_Args options (Spec.Args appSpec ++ Args options) else options in
      (name, command, options)
  | None => (name, command, options)
  end.

(** runner.go 216-225: the loop over the instances of a singleton app. *)
Fixpoint Start_stopRunning (w : World) (instances : list AppInstance) : World * error :=
  match instances with
  | [] => (w, None)
  | instance :: rest =>
      match GetStatus w instance with
      | (_, Some err) =>
          (w, Some ("Failed to get the status of process [" +:+ pretty (Pid instance)
                    +:+ "], error: " +:+ err))
      | (status, None) =>
          if bool_decide (status = StatusRunning)
          then match Stop w instance with
               | (w', Some err) =>
                   (w', Some ("Failed to stop process [" +:+ pretty (Pid instance)
                              +:+ "], error: " +:+ err))
               | (w', None) => Start_stopRunning w' rest
               end
          else Start_stopRunning w rest
      end
  end.

Definition emptyDir : InstanceDir :=
  {| info_json := None; stderr_log := None; stdout_log := None; locked := false |}.

(** [os.MkdirAll(filepath.Join(rootPath, name), os.ModePerm)] *)
Definition os_MkdirAll (w : World) (fault : error) (name : string) : World * error :=
  match fault with
  | Some err => (w, Some err)
  | None =>
      match store w with
      | NoRoot => (set_store w (RootDir [(name, Dir emptyDir)]), None)
      | BadRoot err => (w, Some err)
      | RootDir es =>
          match entries_get name es with
          | Some (Dir _) => (w, None)
          | Some (File _) => (w, Some "mkdir: not a directory")
          | None => (set_store w (RootDir (entries_ins name (Dir emptyDir) es)), None)
          end
      end
  end.

(** Writing a file of the instance directory [name]: [os.Create] of a log
    file, [ioutil.WriteFile] of the record. *)
Definition os_writeIn (w : World) (fault : error) (name : string)
    (f : InstanceDir → InstanceDir) : World * error :=
  match fault with
  | Some err => (w, Some err)
  | None =>
      match store w with
      | RootDir es =>
          match entries_get name es with
          | Some (Dir _) => (set_store w (RootDir (entries_update name f es)), None)
          | _ => (w, Some "open: no such file or directory")
          end
      | _ => (w, Some "open: no such file or directory")
      end
  end.

Definition create_stderr (d : InstanceDir) : InstanceDir :=
  {| info_json := info_json d; stderr_log := Some ""; stdout_log := stdout_log d;
     locked := locked d |}.
Definition create_stdout (d : InstanceDir) : InstanceDir :=
  {| info_json := info_json d; stderr_log := stderr_log d; stdout_log := Some "";
     locked := locked d |}.
Definition write_info (data : Content) (d : InstanceDir) : InstanceDir :=
  {| info_json := Some data; stderr_log := stderr_log d; stdout_log := stdout_log d;
     locked := locked d |}.

(** [cmd.Start()]: on success the new process is in the process table and
    the launch is recorded. *)
Definition cmd_Start (w : World) (env : StartEnv) (command : string)
    (options : AppStartOptions) : World * result Z :=
  match env_launch env with
  | Err err => (w, Err err)
  | Ok (pid, p) =>
      (log_event (set_procs w (<[pid := p]> (procs w)))
         (EvExec command (Args options) (WorkDir options) (Background options) pid),
       Ok pid)
  end.

Definition json_Marshal (env : StartEnv) (instance : AppInstance) : result Content :=
  match env_marshal env with
  | Some err => Err err
  | None => Ok (JSON instance)
  end.

(** runner.go 243-308: the part of Start that runs once the instance
    directory exists, up to its return. *)
Definition Start_inDir (w : World) (env : StartEnv) (id name command : string)
    (options : AppStartOptions) : World * result AppInstance :=
  match os_writeIn w (env_create_stderr env) id create_stderr with
  | (w, Some err) => (w, Err err)
  | (w, None) =>
  match os_writeIn w (env_create_stdout env) id create_stdout with
  | (w, Some err) => (w, Err err)
  | (w, None) =>
  match cmd_Start w env command options with
  | (w, Err err) => (w, Err err)
  | (w, Ok pid) =>
  match (if Background options then env_release env else None) with
  | Some err => (w, Err err)
  | None =>
      let instance :=
        {| ID := id; Time := env_now env; Name := name; Command := command;
           Options := options; Pid := pid |} in
      match json_Marshal env instance with
      | Err err => (w, Err err)
      | Ok data =>
          match os_writeIn w (env_write env) id (write_info data) with
          | (w, Some err) => (w, Err err)
          | (w, None) => (w, Ok instance)
          end
      end
  end end end end.

(** runner.go 209-226: a singleton app has its running instances stopped
    first. *)
Definition Start_singleton (this : AppRunner) (w : World) (name : string)
    (options : AppStartOptions) : World * error :=
  if Singleton options
  then match GetInstancesByName this w name with
       | Err err => (w, Some err)
       | Ok instances => Start_stopRunning w instances
       end
  else (w, None).

(** runner.go 237-242, the deferred function: [os.RemoveAll(instancePath)]
    unless [succeed] was set. The code drops what the removal answers; a
    removal that fails leaves the directory as it is. *)
Definition Start_cleanup (w : World) (env : StartEnv) (id : string) : World :=
  match env_cleanup env with
  | Some _ => w
  | None => (os_RemoveAll w id).1
  end.

(** runner.go 185-309. The deferred function runs on every return after
    [os.MkdirAll]. *)
Definition Start (this : AppRunner) (w : World) (env : StartEnv) (name command : string)
    (options : AppStartOptions) : option (World * result AppInstance) :=
  let '(name, command, options) := Start_applySpec this name command options in
  if bool_decide (command = "") then Some (w, Err "Require command")
  else
    match Start_singleton this w name options with
    | (w, Some err) => Some (w, Err err)
    | (w, None) =>
        match getNextRandomID w (env_rand env) with
        | None => None
        | Some (Err err) => Some (w, Err err)
        | Some (Ok id) =>
            match os_MkdirAll w (env_mkdir env) id with
            | (w, Some err) => Some (w, Err err)
            | (w, None) =>
                match Start_inDir w env id name command options with
                | (w, Err err) => Some (Start_cleanup w env id, Err err)
                | (w, Ok instance) => Some (w, Ok instance)
                end
            end
        end
    end.

(** runner.go 331-348 *)
Definition Restart (this : AppRunner) (w : World) (env : StartEnv) (id : string)
    (clean : bool) : option (World * result AppInstance) :=
  match GetInstance w id with
  | Err err => Some (w, Err err)
  | Ok None => Some (w, Err "Application instance not found")
  | Ok (Some instance) =>
      match Stop w instance with
      | (w, Some err) => Some (w, Err err)
      | (w, None) =>
          match (if clean then Clean w (ID instance) else (w, None)) with
          | (w, Some err) => Some (w, Err err)
          | (w, None) =>
              Start this w env (Name instance) (Command instance) (Options instance)
          end
      end
  end.

(** runner.go 311-329: AppRunner.Stop, which stops the instance [id] and
    removes its directory when [clean] is asked. *)
Definition Stop_by_id (w : World) (id : string) (clean : bool) : World * error :=
  match GetInstance w id with
  | Err err => (w, Some err)
  | Ok None => (w, Some "Application instance not found")
  | Ok (Some instance) =>
      match Stop w instance with
      | (w, Some err) => (w, Some err)
      | (w, None) => if clean then Clean w (ID instance) else (w, None)
      end
  end.

(** ** Loading the spec table *)

(** One of the three spec files as [os.Stat] and LoadRunnerSpecFromFile
    (not in runner.go) answer for it: absent, rejected by the loader, or
    loaded with its [Apps] table. *)
Inductive SpecFile : Type :=
| SpecMissing
| SpecBroken (err : string)
| SpecLoaded (apps : gmap string (option RunnerAppSpec)).

(** The workspace: its [Verbose] flag and the files at its global, user and
    project paths. *)
Record Workspace : Type := {
  Verbose : bool;
  GlobalSpec : SpecFile;
  UserSpec : SpecFile;
  ProjectSpec : SpecFile;
}.

(** runner.go 84-94: the body of the loop over the file names. *)
Definition loadRunnerSpec_file (apps : gmap string (option RunnerAppSpec))
    (file : SpecFile) : gmap string (option RunnerAppSpec) :=
  match file with
  | SpecLoaded specApps =>
      map_fold (λ name appSpec apps, <[name := appSpec]> apps) apps specApps
  | _ => apps
  end.

(** runner.go 76-96: the table that loadRunnerSpec assigns to [this.Apps]. *)
Definition loadRunnerSpec (ws : Workspace) : AppRunner :=
  let filenames := [GlobalSpec ws; UserSpec ws; ProjectSpec ws] in
  {| Apps := foldl loadRunnerSpec_file ∅ filenames |}.

(** runner.go 98-102, the debug loop at the end of loadRunnerSpec: under
    [ws.Verbose] it reads [appSpec.Command] of every binding of the table.
    [false] says that it met a name bound to nil, where the program panics. *)
Definition loadRunnerSpec_debug (ws : Workspace)
    (apps : gmap string (option RunnerAppSpec)) : bool :=
  if Verbose ws
  then map_fold (λ name appSpec completes,
                   match appSpec with
                   | Some _ => completes
                   | None => false
                   end) true apps
  else true.

(** ** Auxiliary notions used in the statements *)

(** The binding of [name] in a spec file, if the file was loaded. *)
Definition SpecFile_get (file : SpecFile) (name : string) : option (option RunnerAppSpec) :=
  match file with
  | SpecLoaded specApps => specApps !! name
  | _ => None
  end.

(** The process behind [pid] is gone: no handle can be had for it, or the
    process table has no entry for it and the pid is one that the kernel is
    asked about, or its entry answers as finished. *)
Definition process_gone (w : World) (pid : Z) : Prop :=
  is_Some (unopenable w !! pid) ∨
  match procs w !! pid with
  | None => pid ≠ 0 ∧ pid ≠ -1
  | Some p => proc_sigerr p = Some errFinished
  end.

(** What one of Stop, Quit and Kill does with its signal. *)
Definition send (sig : Z) (w : World) (this : AppInstance) : World * error :=
  match os_FindProcess w (Pid this) with
  | Some _ => (w, None)
  | None =>
      let r := proc_Signal w (Pid this) sig in
      (r.1, match r.2 with
            | Some err => if bool_decide (err = errFinished) then None else Some err
            | None => None
            end)
  end.

(** The world before the runner was ever used: no process of interest, no
    root directory, nothing done. *)
Definition world_empty : World :=
  {| procs := ∅; unopenable := ∅; store := NoRoot; beyond := ∅; trace := [] |}.

(** A record with the given id, name and pid, for the examples. *)
Definition instance_of (id name : string) (pid : Z) : AppInstance :=
  {| ID := id; Time := 0; Name := name; Command := "sleep";
     Options := {| Args := []; WorkDir := ""; Singleton := false;
                   Background := true; IgnoreSpecArgs := false |};
     Pid := pid |}.

(** The record [loadInstances] reads from a node, when the record file can
    be read and parses. *)
Definition node_instance (node : Node) : option AppInstance :=
  match ioutil_ReadFile_info node with
  | Ok data =>
      match json_Unmarshal data with
      | Ok instance => Some instance
      | Err _ => None
      end
  | Err _ => None
  end.

(** The id filter of [loadInstances] lets [name] through. *)
Definition passes (idFilterFunc : option (string → bool)) (name : string) : bool :=
  match idFilterFunc with
  | Some f => f name
  | None => true
  end.

(** The root has an entry whose record file cannot be read or does not
    parse. *)
Definition has_corrupt_record (w : World) : Prop :=
  ∃ name node, (name, node) ∈ root_entries (store w) ∧ node_instance node = None.

(** The store as Start builds it: no two entries of the root share a name,
    and a record that can be read carries the name of its directory as ID. *)
Definition store_ok (w : World) : Prop :=
  NoDup (root_entries (store w)).*1
  ∧ ∀ name node instance,
      (name, node) ∈ root_entries (store w) →
      node_instance node = Some instance → ID instance = name.

(** The entry holds the record of an instance whose status is Exited. *)
Definition entry_exited (w : World) (e : string * Node) : bool :=
  match node_instance e.2 with
  | Some instance => bool_decide ((GetStatus w instance).1 = StatusExited)
  | None => false
  end.

(** [instance] is the record that one of the entries [es] holds. *)
Definition stored_in (es : list (string * Node)) (instance : AppInstance) : Prop :=
  ∃ name node, (name, node) ∈ es ∧ node_instance node = Some instance.

(** [instance] is the record of an entry under the root of [w]. *)
Definition stored (w : World) (instance : AppInstance) : Prop :=
  stored_in (root_entries (store w)) instance.

(** The instance filter of [loadInstances] lets [instance] through. *)
Definition accepts (instanceFilterFunc : option (AppInstance → bool))
    (instance : AppInstance) : bool :=
  match instanceFilterFunc with
  | Some f => f instance
  | None => true
  end.

(** Every process behind a stored instance called [name] ends when the
    interrupt signal is delivered to it. *)
Definition interrupt_ends (w : World) (name : string) : Prop :=
  ∀ instance p,
    stored w instance → Name instance = name →
    procs w !! Pid instance = Some p → SignalInt ∈ proc_fatal p.

(** [name] is not the key of a spec that carries another Name, so that
    GetInstancesByName looks for [name] itself. *)
Definition name_settled (this : AppRunner) (name : string) : Prop :=
  match Apps_get this name with
  | Some appSpec => Spec.Name appSpec = name
  | None => True
  end.

(** The instance directory and the world a successful Start leaves, from
    the world [w1] in which the id was allocated. *)
Definition started_dir (instance : AppInstance) : InstanceDir :=
  {| info_json := Some (JSON instance); stderr_log := Some ""; stdout_log := Some "";
     locked := false |}.

Definition started_world (w1 : World) (instance : AppInstance) (p : Proc) : World :=
  {| procs := <[Pid instance := p]> (procs w1);
     unopenable := unopenable w1;
     store := RootDir (entries_ins (ID instance) (Dir (started_dir instance))
                         (root_entries (store w1)));
     beyond := beyond w1;
     trace := trace w1 ++ [EvExec (Command instance) (Args (Options instance))
                             (WorkDir (Options instance))
                             (Background (Options instance)) (Pid instance)] |}.

(** The workspace of the override example: the global file gives "svc" the
    working directory /b, the project file gives it /a. *)
Definition svc_global : RunnerAppSpec :=
  {| Spec.Name := "svc"; Spec.Command := "/usr/bin/svc-old"; Spec.Workdir := "/b";
     Spec.Singleton := true; Spec.Args := ["--global"] |}.
Definition svc_project : RunnerAppSpec :=
  {| Spec.Name := "svc"; Spec.Command := "/usr/bin/svc"; Spec.Workdir := "/a";
     Spec.Singleton := false; Spec.Args := [] |}.
Definition svc_workspace : Workspace :=
  {| Verbose := false;
     GlobalSpec := SpecLoaded {[ "svc" := Some svc_global ]};
     UserSpec := SpecMissing;
     ProjectSpec := SpecLoaded {[ "svc" := Some svc_project ]} |}.

(** The runner, options and environments of the examples: the app "echo"
    is a singleton whose spec gives the command, the working directory and
    one argument. *)
Definition echo_spec : RunnerAppSpec :=
  {| Spec.Name := "echo"; Spec.Command := "sleep"; Spec.Workdir := "/tmp";
     Spec.Singleton := true; Spec.Args := ["1000"] |}.
Definition echo_runner : AppRunner := {| Apps := {[ "echo" := Some echo_spec ]} |}.
Definition caller_options : AppStartOptions :=
  {| Args := ["--verbose"]; WorkDir := ""; Singleton := false; Background := true;
     IgnoreSpecArgs := false |}.

(** A process that an interrupt, quit or kill signal ends, and one that
    only the kill signal ends. *)
Definition proc_plain : Proc := {| proc_sigerr := None; proc_fatal := [2; 3; 9] |}.
Definition proc_stubborn : Proc := {| proc_sigerr := None; proc_fatal := [9] |}.

(** An environment in which nothing fails: [rand.Read] gives [idBytes] and
    the command starts as process [pid]. *)
Definition env_ok (idBytes : list Byte.byte) (pid : Z) (p : Proc) : StartEnv :=
  {| env_rand := [RandBytes idBytes]; env_mkdir := None; env_create_stderr := None;
     env_create_stdout := None; env_launch := Ok (pid, p); env_release := None;
     env_now := 1479898017; env_marshal := None; env_write := None;
     env_cleanup := None |}.

(** The same, except that writing the record file fails. *)
Definition env_write_fails (idBytes : list Byte.byte) (pid : Z) (p : Proc) : StartEnv :=
  {| env_rand := [RandBytes idBytes]; env_mkdir := None; env_create_stderr := None;
     env_create_stdout := None; env_launch := Ok (pid, p); env_release := None;
     env_now := 1479898017; env_marshal := None;
     env_write := Some "write info.json: no space left on device";
     env_cleanup := None |}.

(** The same, except that the deferred removal of the instance directory
    fails as well. *)
Definition env_cleanup_fails (idBytes : list Byte.byte) (pid : Z) (p : Proc) : StartEnv :=
  {| env_rand := [RandBytes idBytes]; env_mkdir := None; env_create_stderr := None;
     env_create_stdout := None; env_launch := Ok (pid, p); env_release := None;
     env_now := 1479898017; env_marshal := None;
     env_write := Some "write info.json: no space left on device";
     env_cleanup := Some "unlinkat: device or resource busy" |}.

Definition id_bytes_1 : list Byte.byte :=
  [Byte.x3a; Byte.x00; Byte.xff; Byte.x10; Byte.x22; Byte.x5c; Byte.x7e; Byte.x01].
Definition id_bytes_2 : list Byte.byte :=
  [Byte.xb4; Byte.x19; Byte.x02; Byte.xe0; Byte.x6d; Byte.x33; Byte.x48; Byte.xc7].

(** A store with one good instance directory and one whose record file is
    not JSON. *)
Definition good_id : string := "3a00ff10225c7e01".
Definition corrupt_id : string := "b41902e06d3348c7".
Definition good_instance : AppInstance := instance_of good_id "echo" 812.
Definition corrupt_world : World :=
  {| procs := {[ 812 := proc_plain ]}; unopenable := ∅; beyond := ∅;
     store := RootDir
       [(good_id, Dir (started_dir good_instance));
        (corrupt_id, Dir {| info_json := Some (Raw "{id: "); stderr_log := Some "";
                            stdout_log := Some ""; locked := false |})];
     trace := [] |}.

(** The record and the world that the first start of "echo" in the empty
    world leaves, and the same store once that process is gone. *)
Definition first_instance : AppInstance :=
  {| ID := good_id; Time := 1479898017; Name := "echo"; Command := "sleep";
     Options := {| Args := ["1000"; "--verbose"]; WorkDir := "/tmp"; Singleton := true;
                   Background := true; IgnoreSpecArgs := false |};
     Pid := 812 |}.
Definition world_after_start : World := started_world world_empty first_instance proc_plain.
Definition stale_world : World :=
  {| procs := ∅; unopenable := ∅; beyond := ∅;
     store := RootDir [(good_id, Dir (started_dir first_instance))];
     trace := [] |}.

(** Three instances: the process of the first is running, those of the
    other two are gone. *)
Definition second_id : string := "b41902e06d3348c7".
Definition third_id : string := "c7000000000000aa".
Definition second_instance : AppInstance := instance_of second_id "echo" 813.
Definition third_instance : AppInstance := instance_of third_id "svc" 814.
Definition three_world : World :=
  {| procs := {[ 812 := proc_plain ]}; unopenable := ∅; beyond := ∅;
     store := RootDir
       [(good_id, Dir (started_dir first_instance));
        (second_id, Dir (started_dir second_instance));
        (third_id, Dir (started_dir third_instance))];
     trace := [] |}.

(** A store in which a record was put under another name than its ID: the
    directory [good_id] holds the record of [second_id], whose process is
    gone, and the directory [second_id] holds a record of the running
    process. *)
Definition id_bytes_3 : list Byte.byte :=
  [Byte.xc7; Byte.x00; Byte.x00; Byte.x00; Byte.x00; Byte.x00; Byte.x00; Byte.xaa].
Definition running_instance : AppInstance := instance_of second_id "echo" 812.
Definition misfiled_world : World :=
  {| procs := {[ 812 := proc_plain ]}; unopenable := ∅; beyond := ∅;
     store := RootDir
       [(good_id, Dir (started_dir second_instance));
        (second_id, Dir (started_dir running_instance))];
     trace := [] |}.

(** ** Further definitions *)

(** A call that returns, or one that the dereference of a nil pointer ends
    in a panic. *)
Inductive outcome (A : Type) : Type :=
| Returned (r : result A)
| Panicked.
Arguments Returned {A} r.
Arguments Panicked {A}.

(** runner.go 50-70. [ws] is the workspace pointer, [None] when nil, and
    else a workspace whose directories and logger are set; [path] is what
    [ws.Dir.User.GetPath("runner")] answers. The error of loadRunnerSpec is
    always nil, so its test never fires; its debug loop can panic. *)
Definition New (ws : option Workspace) (path : result string) : outcome AppRunner :=
  match ws with
  | None => Returned (Err "Require workspace")
  | Some ws =>
      match path with
      | Err err => Returned (Err err)
      | Ok _ =>
          let runner := loadRunnerSpec ws in
          if loadRunnerSpec_debug ws (Apps runner) then Returned (Ok runner)
          else Panicked
      end
  end.

(** A spec file that contributes nothing to the table: it is absent or the
    loader rejected it. *)
Definition unloadable (file : SpecFile) : Prop :=
  match file with
  | SpecLoaded _ => False
  | _ => True
  end.

(** The draw gives bytes whose id cannot be used: something is there under
    that name, or [os.Stat] fails in another way. *)
Definition collides (w : World) (d : Draw) : Prop :=
  match d with
  | RandBytes idBytes => os_Stat w (hex_EncodeToString idBytes) ≠ StatNotExist
  | RandErr _ => False
  end.

(** The value of a hex digit, and the bytes a string of hex digits stands
    for; used to show that [hex_EncodeToString] loses nothing. *)
Fixpoint position_in (c : ascii) (table : string) : option N :=
  match table with
  | "" => None
  | String a rest =>
      if Ascii.eqb a c then Some 0%N
      else match position_in c rest with
           | Some n => Some (N.succ n)
           | None => None
           end
  end.

Definition unhex_digit (c : ascii) : option N := position_in c hextable.

Fixpoint unhex (s : string) : option (list Byte.byte) :=
  match s with
  | "" => Some []
  | String hi (String lo rest) =>
      match unhex_digit hi, unhex_digit lo, unhex rest with
      | Some h, Some l, Some bs =>
          match Byte.of_N (16 * h + l) with
          | Some v => Some (v :: bs)
          | None => None
          end
      | _, _, _ => None
      end
  | String _ "" => None
  end.

(** The characters of a string. *)
Fixpoint chars (s : string) : list ascii :=
  match s with
  | "" => []
  | String c rest => c :: chars rest
  end.

(** The name under which GetInstancesByName and GetRunningInstancesByName
    look: the Name of the spec of [name] if there is one, else [name]. *)
Definition looked_up_name (this : AppRunner) (name : string) : string :=
  match Apps_get this name with
  | Some appSpec => Spec.Name appSpec
  | None => name
  end.

(** The instance is Running in [w]. *)
Definition running (w : World) (instance : AppInstance) : Prop :=
  (GetStatus w instance).1 = StatusRunning.

#[global] Instance running_dec (w : World) (instance : AppInstance) :
  Decision (running w instance).
Proof. unfold running. apply _. Defined.

(** A file name: not empty, without "/", and neither "." nor "..". *)
Definition plain_name (name : string) : Prop :=
  name ≠ "" ∧ name ≠ "." ∧ name ≠ ".." ∧ "/"%char ∉ chars name.

(** The event is the delivery of an interrupt signal. *)
Definition is_interrupt (ev : Event) : Prop :=
  ∃ pid, ev = EvSignal pid SignalInt.

(** ** URI classification (uri/spec.go) *)

Definition UriTypeKnown : string := "unknown".
Definition UriTypeLocalPath : string := "localPath".
Definition UriTypeHttps : string := "https".
Definition UriTypeSSH : string := "ssh".

(** Every byte of the string is below [utf8.RuneSelf]. *)
Definition isASCII (s : string) : bool :=
  forallb (λ c, (N_of_ascii c <? 128)%N) (chars s).

(** The lower-case form of an ASCII byte: 'A'..'Z' are moved to 'a'..'z'. *)
Definition lower_byte (c : ascii) : ascii :=
  if ((65 <=? N_of_ascii c) && (N_of_ascii c <=? 90))%N
  then ascii_of_N (N_of_ascii c + 32)
  else c.

Fixpoint ascii_ToLower (s : string) : string :=
  match s with
  | "" => ""
  | String c rest => String (lower_byte c) (ascii_ToLower rest)
  end.

(** [strings.HasPrefix(s, prefix)] *)
Definition strings_HasPrefix (s prefix : string) : bool := String.prefix prefix s.

(** [strings.Index(s, substr)]: the first position of [substr], or -1. *)
Definition strings_Index (s substr : string) : Z :=
  match String.index 0 substr s with
  | Some n => Z.of_nat n
  | None => -1
  end.

Section GetUriType.

(** What [strings.ToLower] answers for a string that has a byte outside
    ASCII, where it maps every rune through the Unicode tables. *)
Variable unicode_ToLower : string → string.

(** [strings.ToLower] *)
Definition strings_ToLower (s : string) : string :=
  if isASCII s then ascii_ToLower s else unicode_ToLower s.

(** uri/spec.go 20-32 *)
Definition GetUriType (uri : string) : string :=
  let uri := strings_ToLower uri in
  if strings_HasPrefix uri "/" || strings_HasPrefix uri "file://"
  then UriTypeLocalPath
  else if strings_HasPrefix uri "https://"
  then UriTypeHttps
  else if strings_HasPrefix uri "ssh://" || negb (strings_Index uri "@" =? -1)%Z
  then UriTypeSSH
  else UriTypeKnown.

End GetUriType.

(** ** The name of a built Go binary (pkg/builder/targetbuilder/golang.go) *)

(** The fields of [pbSpec.GoBinaryTarget] that golang.go reads; the type is
    declared outside the sources at hand. *)
Module GoBinaryTarget.
Record t : Type := {
  Package : string;
  Output : string;
  Install : bool;
  Envs : list string;
}.
End GoBinaryTarget.

(** [strings.LastIndex(s, substr)], searched from position [i] of the whole
    string on: the last position at which [substr] starts, [len(s)] for an
    empty [substr]. *)
Fixpoint strings_LastIndex_from (i : nat) (s substr : string) : option nat :=
  match s with
  | "" => if bool_decide (substr = "") then Some i else None
  | String _ rest =>
      match strings_LastIndex_from (S i) rest substr with
      | Some j => Some j
      | None => if String.prefix substr s then Some i else None
      end
  end.

Definition strings_LastIndex (s substr : string) : Z :=
  match strings_LastIndex_from 0 s substr with
  | Some j => Z.of_nat j
  | None => -1
  end.

(** The slice [s[n:]]. *)
Fixpoint string_drop (n : nat) (s : string) : string :=
  match n, s with
  | O, _ => s
  | S n', String _ rest => string_drop n' rest
  | S _, "" => ""
  end.

(** golang.go 95-98: the file name of the binary that Build asks the
    compiler for. *)
Definition outputName (spec : GoBinaryTarget.t) : string :=
  let outputName := GoBinaryTarget.Output spec in
  if bool_decide (outputName = "")
  then string_drop (Z.to_nat (strings_LastIndex (GoBinaryTarget.Package spec) "/" + 1))
         (GoBinaryTarget.Package spec)
  else outputName.

(** ** The Python local finder (pkg/rule/modules/build/localfinder.go) *)

(** The conversion [int32(x)] of a Go [int]: the low 32 bits, signed. *)
Definition int32 (x : Z) : Z := (x + 2 ^ 31) mod 2 ^ 32 - 2 ^ 31.

Module Finder.
(** [Options] is the options table of the embedded LUA.Object as GetProto
    uses it: [None] for a nil table, else what
    [LUA.GetIntFromTable(options, "parent")] answers for it. *)
Record PythonLocalFinder : Type := {
  Name : string;
  Module_ : string;
  Options : option (result Z);
}.
(** The fields of [pbSpec.LocalFinder] with its [PythonLocalFinder] that
    GetProto sets. *)
Record LocalFinder : Type := {
  pbName : string;
  pbModule : string;
  pbParent : Z;
}.
End Finder.

(** localfinder.go 71-74 *)
Definition GetName (finder : Finder.PythonLocalFinder) : string :=
  Finder.Name finder.

(** localfinder.go 76-97 *)
Definition GetProto (finder : Finder.PythonLocalFinder) : result Finder.LocalFinder :=
  match (match Finder.Options finder with
         | Some (Err err) => Err ("Failed to get options [parent], error: " +:+ err)
         | Some (Ok parent) => Ok parent
         | None => Ok 0
         end) with
  | Err err => Err err
  | Ok parent =>
      Ok {| Finder.pbName := Finder.Name finder;
            Finder.pbModule := Finder.Module_ finder;
            Finder.pbParent := int32 parent |}
  end.
(** * Properties *)

(** ** Processes and signals *)

Lemma Stop_send w this : Stop w this = send SignalInt w this.
Proof.
  unfold Stop, send. destruct (os_FindProcess w (Pid this)); [done|].
  destruct (proc_Signal w (Pid this) SignalInt) as [w' [err|]]; simpl; [|done].
  unfold errFinished. by case_bool_decide.
Qed.

Lemma Quit_send w this : Quit w this = send SignalQuit w this.
Proof.
  unfold Quit, send. destruct (os_FindProcess w (Pid this)); [done|].
  destruct (proc_Signal w (Pid this) SignalQuit) as [w' [err|]]; simpl; [|done].
  unfold errFinished. by case_bool_decide.
Qed.

Lemma Kill_send w this : Kill w this = send SignalKill w this.
Proof.
  unfold Kill, send. destruct (os_FindProcess w (Pid this)); [done|].
  destruct (proc_Signal w (Pid this) SignalKill) as [w' [err|]]; simpl; [|done].
  unfold errFinished. by case_bool_decide.
Qed.

Lemma proc_Signal_gone w pid sig :
  match procs w !! pid with
  | None => pid ≠ 0 ∧ pid ≠ -1
  | Some p => proc_sigerr p = Some errFinished
  end →
  proc_Signal w pid sig = (w, Some errFinished).
Proof.
  unfold proc_Signal. destruct (procs w !! pid) as [p|].
  - by intros ->.
  - intros [H0 H1]. by rewrite !bool_decide_eq_false_2 by done.
Qed.

(** What the [os] package answers for a pid that names no process. *)
Lemma proc_Signal_absent w pid sig :
  procs w !! pid = None →
  proc_Signal w pid sig
  = (w, Some (if bool_decide (pid = 0) then errNotInitialized
              else if bool_decide (pid = -1) then errReleased else errFinished)).
Proof.
  intros Hp. unfold proc_Signal. rewrite Hp. by repeat case_bool_decide.
Qed.

Lemma proc_Signal_zero w pid : (proc_Signal w pid 0).1 = w.
Proof.
  unfold proc_Signal. destruct (procs w !! pid) as [p|].
  - by destruct (proc_sigerr p).
  - by repeat case_bool_decide.
Qed.

Lemma send_gone sig w this : process_gone w (Pid this) → send sig w this = (w, None).
Proof.
  intros [[e He]|Hg]; unfold send, os_FindProcess.
  - by rewrite He.
  - destruct (unopenable w !! Pid this); [done|].
    by rewrite (proc_Signal_gone _ _ _ Hg).
Qed.

Lemma send_error sig w this err :
  (send sig w this).2 = Some err ↔
  os_FindProcess w (Pid this) = None
  ∧ (proc_Signal w (Pid this) sig).2 = Some err ∧ err ≠ errFinished.
Proof.
  unfold send. destruct (os_FindProcess w (Pid this)) as [e|]; simpl.
  { split; [done|]. by intros [? _]. }
  destruct (proc_Signal w (Pid this) sig).2 as [e|]; simpl.
  - case_bool_decide; split; try done.
    + intros (_ & [= ->] & ?). done.
    + intros [= ->]. done.
    + intros (_ & [= ->] & ?). done.
  - split; [done|]. by intros (_ & ? & _).
Qed.

(** A signal that is delivered to a process and is not fatal to it leaves
    the process where it was. *)
Lemma send_survivor sig w this p :
  os_FindProcess w (Pid this) = None →
  procs w !! Pid this = Some p →
  proc_sigerr p = None →
  sig ≠ 0 → sig ∉ proc_fatal p →
  send sig w this = (log_event w (EvSignal (Pid this) sig), None).
Proof.
  intros Hf Hp He Hs Hn. unfold send, proc_Signal. rewrite Hf, Hp, He.
  rewrite bool_decide_eq_false_2 by done.
  by rewrite bool_decide_eq_false_2 by done.
Qed.

(** The status of an instance depends on the process table and on the
    pids without a handle only. *)
Lemma GetStatus_ext w1 w2 this :
  procs w1 = procs w2 → unopenable w1 = unopenable w2 →
  GetStatus w1 this = GetStatus w2 this.
Proof.
  intros Hp Hu. unfold GetStatus, os_FindProcess, proc_Signal. rewrite Hp, Hu.
  destruct (unopenable w2 !! Pid this); [done|].
  destruct (procs w2 !! Pid this) as [p|].
  - by destruct (proc_sigerr p).
  - by repeat case_bool_decide.
Qed.

Lemma GetStatus_log_event w ev this : GetStatus (log_event w ev) this = GetStatus w this.
Proof. by apply GetStatus_ext. Qed.

Lemma GetStatus_set_store w r this : GetStatus (set_store w r) this = GetStatus w this.
Proof. by apply GetStatus_ext. Qed.

Lemma GetStatus_running w this :
  (GetStatus w this).1 = StatusRunning ↔
  unopenable w !! Pid this = None
  ∧ ∃ p, procs w !! Pid this = Some p ∧ proc_sigerr p = None.
Proof.
  unfold GetStatus, os_FindProcess, proc_Signal.
  destruct (unopenable w !! Pid this) as [e|]; simpl.
  { split; [done|]. by intros [? _]. }
  destruct (procs w !! Pid this) as [p|]; simpl.
  - destruct (proc_sigerr p) as [e|] eqn:He; simpl.
    + case_bool_decide; simpl; (split; [done|]); intros (_ & p' & [= <-] & ?); congruence.
    + split; [|done]. intros _. split; [done|]. by exists p.
  - split; [|by intros (_ & p & ? & _)].
    by repeat (case_bool_decide; simpl).
Qed.

Lemma GetStatus_gone w this :
  process_gone w (Pid this) → GetStatus w this = (StatusExited, None).
Proof.
  intros [[e He]|Hg]; unfold GetStatus, os_FindProcess.
  - by rewrite He.
  - destruct (unopenable w !! Pid this); [done|].
    by rewrite (proc_Signal_gone _ _ _ Hg).
Qed.

Lemma GetStatus_pid_refused w this :
  os_FindProcess w (Pid this) = None →
  procs w !! Pid this = None →
  (Pid this = 0 → GetStatus w this = (StatusError, Some errNotInitialized))
  ∧ (Pid this = -1 → GetStatus w this = (StatusError, Some errReleased)).
Proof.
  intros Hf Hp. unfold GetStatus. rewrite Hf, (proc_Signal_absent _ _ _ Hp).
  split; intros ->; reflexivity.
Qed.

Lemma send_pid_refused sig w this :
  os_FindProcess w (Pid this) = None →
  procs w !! Pid this = None →
  (Pid this = 0 → send sig w this = (w, Some errNotInitialized))
  ∧ (Pid this = -1 → send sig w this = (w, Some errReleased)).
Proof.
  intros Hf Hp. unfold send. rewrite Hf, (proc_Signal_absent _ _ _ Hp).
  split; intros ->; reflexivity.
Qed.

(** C2, refuted as it stands: the record with Pid 0 names no process, and
    its status is Error, with the message of the [os] package, not Exited. *)
Lemma C2_Pid_zero_has_status_Error :
  procs world_empty !! Pid (instance_of "00ff" "echo" 0) = None
  ∧ os_FindProcess world_empty (Pid (instance_of "00ff" "echo" 0)) = None
  ∧ GetStatus world_empty (instance_of "00ff" "echo" 0)
    = (StatusError, Some "os: process not initialized").
Proof. split; [|split]; reflexivity. Qed.

(** C2 (as amended): a record whose Pid is neither 0 nor -1 and names no
    process of the process table (or whose process is gone in any other way)
    has status Exited with a nil error, never Error; GetStatus returns Error
    with a cause exactly when a handle was had for the pid and the
    zero-signal probe failed with a message other than "os: process already
    finished", which is then the cause; and a Pid of 0 or -1 that names no
    process is such a case: the [os] package refuses the probe, and the
    status is Error with its message. *)
Theorem C2_GetStatus_gone_is_Exited_unless_Pid_is_0_or_minus_1 :
  ∀ (w : World) (this : AppInstance),
    Pid this ≠ 0 → Pid this ≠ -1 →
    procs w !! Pid this = None ∨ process_gone w (Pid this) →
    GetStatus w this = (StatusExited, None)
    ∧ (GetStatus w this).1 ≠ StatusError
    ∧ (∀ (w' : World) (that : AppInstance) (st : Z) (err : string),
        ((GetStatus w' that).1 = StatusError →
           ∃ cause, GetStatus w' that = (StatusError, Some cause))
        ∧ (GetStatus w' that = (st, Some err) ↔
             st = StatusError
             ∧ os_FindProcess w' (Pid that) = None
             ∧ (proc_Signal w' (Pid that) 0).2 = Some err
             ∧ err ≠ "os: process already finished"))
    ∧ (∀ (w' : World) (that : AppInstance),
        os_FindProcess w' (Pid that) = None →
        procs w' !! Pid that = None →
        (Pid that = 0 →
           GetStatus w' that = (StatusError, Some "os: process not initialized"))
        ∧ (Pid that = -1 →
           GetStatus w' that = (StatusError, Some "os: process already released"))).
Proof.
  intros w this H0 H1 Hgone.
  assert (Hg : process_gone w (Pid this)).
  { destruct Hgone as [Hn|Hg]; [|done]. right. by rewrite Hn. }
  rewrite (GetStatus_gone _ _ Hg). split; [done|]. split; [done|]. split.
  - intros w' that st err. unfold GetStatus.
    destruct (os_FindProcess w' (Pid that)) as [e|]; simpl.
    { split; [done|]. split; [done|]. by intros (_ & ? & _). }
    destruct (proc_Signal w' (Pid that) 0).2 as [e|]; simpl.
    + case_bool_decide as Hfin; simpl.
      * split; [done|]. split; [done|]. intros (_ & _ & [= ->] & ?). done.
      * split; [by exists e|]. split.
        -- intros [= <- <-]. done.
        -- intros (-> & _ & [= ->] & _). done.
    + split; [done|]. split; [done|]. by intros (_ & _ & ? & _).
  - intros w' that Hf Hp. by apply GetStatus_pid_refused.
Qed.

Lemma C2_GetStatus_gone_is_Exited_unless_Pid_is_0_or_minus_1_witness :
  GetStatus world_empty (instance_of "00ff" "echo" 4242) = (StatusExited, None).
Proof.
  apply (C2_GetStatus_gone_is_Exited_unless_Pid_is_0_or_minus_1
           world_empty (instance_of "00ff" "echo" 4242)).
  - simpl. lia.
  - simpl. lia.
  - left. reflexivity.
Defined.

(** C9, refuted as it stands: the process of the record with Pid 0 does not
    exist, and Stop, Quit and Kill return the error of the [os] package. *)
Lemma C9_Stop_of_Pid_zero_fails :
  procs world_empty !! Pid (instance_of "00ff" "echo" 0) = None
  ∧ Stop world_empty (instance_of "00ff" "echo" 0)
    = (world_empty, Some "os: process not initialized")
  ∧ Quit world_empty (instance_of "00ff" "echo" 0)
    = (world_empty, Some "os: process not initialized")
  ∧ Kill world_empty (instance_of "00ff" "echo" 0)
    = (world_empty, Some "os: process not initialized").
Proof. repeat split; reflexivity. Qed.

(** C9 (as amended): on an instance whose process is gone, its Pid being
    neither 0 nor -1 when the process table has no entry for it, Stop, Quit
    and Kill return nil and change nothing, so a second Stop returns nil as
    well; each of them returns an error exactly when a handle was had and
    the delivery of its signal failed with a message other than "os: process
    already finished", as it does for a Pid of 0 or -1 that names no process,
    which the [os] package refuses; and each returns right after the one
    delivery: a process for which the signal is not fatal is still Running
    in the world the call returns. *)
Theorem C9_signalling_a_gone_process_unless_Pid_is_0_or_minus_1 :
  ∀ (w : World) (this : AppInstance),
    process_gone w (Pid this) →
    Stop w this = (w, None) ∧ Quit w this = (w, None) ∧ Kill w this = (w, None)
    ∧ Stop (Stop w this).1 this = (w, None)
    ∧ (∀ (w' : World) (that : AppInstance) (err : string),
         ((Stop w' that).2 = Some err ↔
            os_FindProcess w' (Pid that) = None
            ∧ (proc_Signal w' (Pid that) SignalInt).2 = Some err
            ∧ err ≠ "os: process already finished")
         ∧ ((Quit w' that).2 = Some err ↔
            os_FindProcess w' (Pid that) = None
            ∧ (proc_Signal w' (Pid that) SignalQuit).2 = Some err
            ∧ err ≠ "os: process already finished")
         ∧ ((Kill w' that).2 = Some err ↔
            os_FindProcess w' (Pid that) = None
            ∧ (proc_Signal w' (Pid that) SignalKill).2 = Some err
            ∧ err ≠ "os: process already finished"))
    ∧ (∀ (w' : World) (that : AppInstance),
         os_FindProcess w' (Pid that) = None →
         procs w' !! Pid that = None →
         (Pid that = 0 →
            Stop w' that = (w', Some "os: process not initialized")
            ∧ Quit w' that = (w', Some "os: process not initialized")
            ∧ Kill w' that = (w', Some "os: process not initialized"))
         ∧ (Pid that = -1 →
            Stop w' that = (w', Some "os: process already released")
            ∧ Quit w' that = (w', Some "os: process already released")
            ∧ Kill w' that = (w', Some "os: process already released")))
    ∧ (∀ (w' : World) (that : AppInstance) (p : Proc),
         os_FindProcess w' (Pid that) = None →
         procs w' !! Pid that = Some p →
         proc_sigerr p = None →
         (SignalInt ∉ proc_fatal p →
            Stop w' that = (log_event w' (EvSignal (Pid that) SignalInt), None)
            ∧ GetStatus (Stop w' that).1 that = (StatusRunning, None))
         ∧ (SignalQuit ∉ proc_fatal p →
            Quit w' that = (log_event w' (EvSignal (Pid that) SignalQuit), None)
            ∧ GetStatus (Quit w' that).1 that = (StatusRunning, None))
         ∧ (SignalKill ∉ proc_fatal p →
            Kill w' that = (log_event w' (EvSignal (Pid that) SignalKill), None)
            ∧ GetStatus (Kill w' that).1 that = (StatusRunning, None))).
Proof.
  intros w this Hgone.
  rewrite !Stop_send, !Quit_send, !Kill_send, !(send_gone _ _ _ Hgone). simpl.
  rewrite ?(send_gone _ _ _ Hgone).
  do 4 (split; [done|]). split; [|split].
  - intros w' that err. rewrite Stop_send, Quit_send, Kill_send.
    split; [|split]; apply send_error.
  - intros w' that Hf Hp. rewrite Stop_send, Quit_send, Kill_send.
    split; intros Hpid.
    + repeat split; by apply send_pid_refused.
    + repeat split; by apply send_pid_refused.
  - intros w' that p Hf Hp He.
    assert (Hrun : ∀ ev, GetStatus (log_event w' ev) that = (StatusRunning, None)).
    { intros ev. rewrite GetStatus_log_event. unfold GetStatus, proc_Signal.
      by rewrite Hf, Hp, He. }
    rewrite Stop_send, Quit_send, Kill_send.
    split; [|split]; intros Hn;
      rewrite (send_survivor _ _ _ _ Hf Hp He) by done; simpl; split; done.
Qed.

Lemma C9_signalling_a_gone_process_unless_Pid_is_0_or_minus_1_witness :
  Stop world_empty (instance_of "00ff" "echo" 4242) = (world_empty, None)
  ∧ Stop (Stop world_empty (instance_of "00ff" "echo" 4242)).1
         (instance_of "00ff" "echo" 4242) = (world_empty, None).
Proof.
  assert (Hgone : process_gone world_empty (Pid (instance_of "00ff" "echo" 4242))).
  { right. simpl. split; lia. }
  pose proof (C9_signalling_a_gone_process_unless_Pid_is_0_or_minus_1 world_empty
                (instance_of "00ff" "echo" 4242) Hgone) as (H1 & _ & _ & H2 & _).
  exact (conj H1 H2).
Defined.

(** ** The spec table *)

Lemma loadRunnerSpec_file_lookup apps file name :
  loadRunnerSpec_file apps file !! name =
  match SpecFile_get file name with
  | Some v => Some v
  | None => apps !! name
  end.
Proof.
  destruct file as [|err|specApps]; simpl; [done..|].
  apply (map_fold_weak_ind
           (λ r m, r !! name = match m !! name with Some v => Some v | None => apps !! name end)).
  - by rewrite lookup_empty.
  - intros i x m r Hi IH. destruct (decide (i = name)) as [->|Hne].
    + by rewrite !lookup_insert_eq.
    + by rewrite !lookup_insert_ne.
Qed.

Lemma loadRunnerSpec_lookup ws name :
  Apps (loadRunnerSpec ws) !! name =
  match SpecFile_get (ProjectSpec ws) name with
  | Some v => Some v
  | None =>
      match SpecFile_get (UserSpec ws) name with
      | Some v => Some v
      | None => SpecFile_get (GlobalSpec ws) name
      end
  end.
Proof.
  unfold loadRunnerSpec. simpl. rewrite !loadRunnerSpec_file_lookup.
  rewrite lookup_empty.
  by destruct (SpecFile_get (GlobalSpec ws) name).
Qed.

(** C7: the table loadRunnerSpec builds binds a name to the record of
    the last file, in the order global, user, project, that was loaded and
    binds it; the record is taken whole. So a record the project file gives
    for a name is the resolved record whatever the global and user files say
    about that name, and its Workdir is the resolved Workdir. *)
Theorem C7_later_spec_file_overrides_whole_record :
  ∀ (ws : Workspace) (projectApps : gmap string (option RunnerAppSpec))
    (name : string) (appSpec : RunnerAppSpec),
    ProjectSpec ws = SpecLoaded projectApps →
    projectApps !! name = Some (Some appSpec) →
    Apps_get (loadRunnerSpec ws) name = Some appSpec
    ∧ (∀ resolved, Apps_get (loadRunnerSpec ws) name = Some resolved →
         Spec.Workdir resolved = Spec.Workdir appSpec
         ∧ Spec.Command resolved = Spec.Command appSpec
         ∧ Spec.Args resolved = Spec.Args appSpec
         ∧ Spec.Singleton resolved = Spec.Singleton appSpec
         ∧ Spec.Name resolved = Spec.Name appSpec)
    ∧ (∀ (ws' : Workspace) (key : string),
         Apps (loadRunnerSpec ws') !! key =
         match SpecFile_get (ProjectSpec ws') key with
         | Some v => Some v
         | None =>
             match SpecFile_get (UserSpec ws') key with
             | Some v => Some v
             | None => SpecFile_get (GlobalSpec ws') key
             end
         end).
Proof.
  intros ws projectApps name appSpec Hfile Hname.
  assert (Hget : Apps_get (loadRunnerSpec ws) name = Some appSpec).
  { unfold Apps_get. rewrite loadRunnerSpec_lookup, Hfile. simpl. by rewrite Hname. }
  split; [done|]. split.
  - intros resolved. rewrite Hget. by intros [= <-].
  - apply loadRunnerSpec_lookup.
Qed.

Lemma C7_later_spec_file_overrides_whole_record_witness :
  Apps_get (loadRunnerSpec svc_workspace) "svc" = Some svc_project
  ∧ ∀ resolved, Apps_get (loadRunnerSpec svc_workspace) "svc" = Some resolved →
      Spec.Workdir resolved = "/a".
Proof.
  pose proof (C7_later_spec_file_overrides_whole_record svc_workspace
                {[ "svc" := Some svc_project ]} "svc" svc_project
                eq_refl eq_refl) as (H1 & H2 & _).
  split; [exact H1|].
  intros resolved Hr. exact (proj1 (H2 resolved Hr)).
Defined.

(** ** The entries of the root directory *)

Lemma entries_get_ins_eq name x es :
  entries_get name es = None → entries_get name (entries_ins name x es) = Some x.
Proof.
  induction es as [|[n y] es IH]; simpl; intros H.
  - by rewrite bool_decide_eq_true_2.
  - case_bool_decide as Hn; [done|].
    destruct (String.ltb name n); simpl.
    + by rewrite bool_decide_eq_true_2.
    + rewrite bool_decide_eq_false_2 by done. auto.
Qed.

Lemma entries_get_ins_ne name n x es :
  name ≠ n → entries_get n (entries_ins name x es) = entries_get n es.
Proof.
  intros Hne. induction es as [|[m y] es IH]; simpl.
  - by rewrite bool_decide_eq_false_2.
  - destruct (String.ltb name m); simpl.
    + by rewrite (bool_decide_eq_false_2 (name = n)).
    + by rewrite IH.
Qed.

Lemma entries_update_ins name f d es :
  entries_get name es = None →
  entries_update name f (entries_ins name (Dir d) es) = entries_ins name (Dir (f d)) es.
Proof.
  induction es as [|[n y] es IH]; simpl; intros H.
  - by rewrite bool_decide_eq_true_2.
  - case_bool_decide as Hn; [done|].
    destruct (String.ltb name n); simpl.
    + by rewrite bool_decide_eq_true_2.
    + rewrite bool_decide_eq_false_2 by done. by rewrite IH.
Qed.

Lemma entries_remove_absent name es :
  entries_get name es = None → entries_remove name es = es.
Proof.
  unfold entries_remove. induction es as [|[n y] es IH]; simpl; intros H; [done|].
  case_bool_decide as Hn; [done|].
  rewrite filter_cons_True by done. by rewrite IH.
Qed.

Lemma entries_remove_ins name x es :
  entries_get name es = None → entries_remove name (entries_ins name x es) = es.
Proof.
  unfold entries_remove. induction es as [|[n y] es IH]; simpl; intros H.
  - rewrite filter_cons_False by (simpl; auto). done.
  - case_bool_decide as Hn; [done|].
    destruct (String.ltb name n).
    + rewrite filter_cons_False by (simpl; auto).
      rewrite filter_cons_True by done.
      f_equal. by apply entries_remove_absent.
    + rewrite filter_cons_True by done. by rewrite IH.
Qed.

Lemma entries_get_remove_eq name es : entries_get name (entries_remove name es) = None.
Proof.
  unfold entries_remove. induction es as [|[n y] es IH]; simpl; [done|].
  destruct (decide (n = name)) as [->|Hn].
  - rewrite filter_cons_False by (simpl; auto). done.
  - rewrite filter_cons_True by done. simpl. by rewrite bool_decide_eq_false_2.
Qed.

Lemma entries_get_remove_ne name n es :
  name ≠ n → entries_get n (entries_remove name es) = entries_get n es.
Proof.
  intros Hne. unfold entries_remove. induction es as [|[m y] es IH]; simpl; [done|].
  destruct (decide (m = name)) as [->|Hm].
  - rewrite filter_cons_False by (simpl; auto).
    by rewrite (bool_decide_eq_false_2 (name = n)).
  - rewrite filter_cons_True by done. simpl. by rewrite IH.
Qed.

(** ** Removal *)

(** A name that the root lists is removed as that entry. *)
Lemma os_RemoveAll_entry w es name node :
  store w = RootDir es → entries_get name es = Some node →
  os_RemoveAll w name = remove_entry w es name.
Proof. intros Hs Hg. unfold os_RemoveAll. by rewrite Hs, Hg. Qed.

(** The removal of the directory that was made for a fresh name. *)
Lemma os_RemoveAll_fresh w id d es :
  store w = RootDir (entries_ins id (Dir d) es) →
  entries_get id es = None → locked d = false →
  os_RemoveAll w id = (set_store w (RootDir es), None).
Proof.
  intros Hs Hfree Hl.
  rewrite (os_RemoveAll_entry _ _ _ (Dir d) Hs) by (by apply entries_get_ins_eq).
  unfold remove_entry. rewrite entries_get_ins_eq, Hl by done.
  by rewrite entries_remove_ins.
Qed.

(** ** Allocation of the id *)

Lemma getNextRandomID_free w draws id :
  getNextRandomID w draws = Some (Ok id) → os_Stat w id = StatNotExist.
Proof.
  induction draws as [|[err|idBytes] draws IH]; simpl; [done..|].
  destruct (os_Stat w (hex_EncodeToString idBytes)) eqn:Hs; auto.
  by intros [= <-].
Qed.

Lemma os_Stat_NotExist w id :
  os_Stat w id = StatNotExist →
  entries_get id (root_entries (store w)) = None
  ∧ (store w = NoRoot ∨ store w = RootDir (root_entries (store w))).
Proof.
  unfold os_Stat. destruct (store w) as [|err|es]; simpl; [auto|done|].
  destruct (entries_get id es); [done|auto].
Qed.

Lemma os_MkdirAll_free w id :
  os_Stat w id = StatNotExist →
  os_MkdirAll w None id =
  (set_store w (RootDir (entries_ins id (Dir emptyDir) (root_entries (store w)))), None).
Proof.
  intros Hs. unfold os_MkdirAll, os_Stat in *.
  destruct (store w) as [|err|es]; simpl; [done|done|].
  destruct (entries_get id es); [done|done].
Qed.

(** ** The part of Start that runs in the instance directory *)

Lemma os_writeIn_ins w fault id f d es :
  store w = RootDir (entries_ins id (Dir d) es) →
  entries_get id es = None →
  os_writeIn w fault id f =
  match fault with
  | Some err => (w, Some err)
  | None => (set_store w (RootDir (entries_ins id (Dir (f d)) es)), None)
  end.
Proof.
  intros Hs Hfree. unfold os_writeIn. destruct fault; [done|].
  rewrite Hs, entries_get_ins_eq by done. by rewrite entries_update_ins.
Qed.

Lemma Start_inDir_spec w env id name command options es :
  store w = RootDir (entries_ins id (Dir emptyDir) es) →
  entries_get id es = None →
  match Start_inDir w env id name command options with
  | (w', Ok instance) =>
      ∃ pid p, env_launch env = Ok (pid, p)
        ∧ instance = {| ID := id; Time := env_now env; Name := name; Command := command;
                        Options := options; Pid := pid |}
        ∧ w' = {| procs := <[pid := p]> (procs w); unopenable := unopenable w;
                  store := RootDir (entries_ins id (Dir (started_dir instance)) es);
                  beyond := beyond w;
                  trace := trace w ++ [EvExec command (Args options) (WorkDir options)
                                         (Background options) pid] |}
  | (w', Err err) =>
      ∃ d, store w' = RootDir (entries_ins id (Dir d) es) ∧ locked d = false
        ∧ info_json d = None ∧ unopenable w' = unopenable w
  end.
Proof.
  intros Hs Hfree. unfold Start_inDir.
  rewrite (os_writeIn_ins _ _ _ _ _ _ Hs Hfree).
  destruct (env_create_stderr env) as [e|]; [by exists emptyDir|].
  erewrite os_writeIn_ins; [|reflexivity|done].
  destruct (env_create_stdout env) as [e|]; [by eexists|].
  unfold cmd_Start. destruct (env_launch env) as [[pid p]|e]; [|by eexists].
  destruct (if Background options then env_release env else None) as [e|];
    [by eexists|].
  unfold json_Marshal. destruct (env_marshal env) as [e|]; [by eexists|].
  erewrite os_writeIn_ins; [|reflexivity|done].
  destruct (env_write env) as [e|]; [by eexists|].
  exists pid, p. done.
Qed.

(** ** Frame properties of the signalling operations *)

Lemma proc_Signal_frame w pid sig :
  store (proc_Signal w pid sig).1 = store w
  ∧ unopenable (proc_Signal w pid sig).1 = unopenable w.
Proof.
  unfold proc_Signal. destruct (procs w !! pid) as [p|];
    [|by repeat case_bool_decide].
  destruct (proc_sigerr p); [done|].
  repeat case_bool_decide; done.
Qed.

Lemma send_frame sig w this :
  store (send sig w this).1 = store w
  ∧ unopenable (send sig w this).1 = unopenable w.
Proof.
  unfold send. destruct (os_FindProcess w (Pid this)); [done|]. simpl.
  apply proc_Signal_frame.
Qed.

Lemma Start_stopRunning_frame instances : ∀ w,
  store (Start_stopRunning w instances).1 = store w
  ∧ unopenable (Start_stopRunning w instances).1 = unopenable w.
Proof.
  induction instances as [|i rest IH]; intros w; simpl; [done|].
  destruct (GetStatus w i) as [st [err|]]; [done|].
  case_bool_decide; [|apply IH].
  rewrite Stop_send. pose proof (send_frame SignalInt w i) as [Hs Hu].
  destruct (send SignalInt w i) as [w1 [err|]]; simpl in *; [done|].
  destruct (IH w1) as [Hs' Hu']. split; congruence.
Qed.

Lemma Start_singleton_frame this w name options :
  store (Start_singleton this w name options).1 = store w
  ∧ unopenable (Start_singleton this w name options).1 = unopenable w.
Proof.
  unfold Start_singleton. destruct (Singleton options); [|done].
  destruct (GetInstancesByName this w name); [|done].
  apply Start_stopRunning_frame.
Qed.

(** ** What a call of Start amounts to *)

Lemma Start_Ok_inv this w env name command options w' instance :
  Start this w env name command options = Some (w', Ok instance) →
  ∃ w1 p,
    (Start_applySpec this name command options).1.2 ≠ ""
    ∧ Start_singleton this w (Start_applySpec this name command options).1.1
        (Start_applySpec this name command options).2 = (w1, None)
    ∧ getNextRandomID w1 (env_rand env) = Some (Ok (ID instance))
    ∧ env_launch env = Ok (Pid instance, p)
    ∧ instance = {| ID := ID instance; Time := env_now env;
                    Name := (Start_applySpec this name command options).1.1;
                    Command := (Start_applySpec this name command options).1.2;
                    Options := (Start_applySpec this name command options).2;
                    Pid := Pid instance |}
    ∧ w' = started_world w1 instance p.
Proof.
  unfold Start. destruct (Start_applySpec this name command options) as [[rn rc] ro].
  simpl. case_bool_decide as Hc; [done|].
  destruct (Start_singleton this w rn ro) as [w1 [err|]]; [done|].
  destruct (getNextRandomID w1 (env_rand env)) as [[id|err]|] eqn:Hid; [|done..].
  pose proof (getNextRandomID_free _ _ _ Hid) as Hfree.
  destruct (env_mkdir env) as [err|]; [done|].
  rewrite (os_MkdirAll_free _ _ Hfree).
  destruct (os_Stat_NotExist _ _ Hfree) as [Hget _].
  pose proof (Start_inDir_spec
                (set_store w1 (RootDir (entries_ins id (Dir emptyDir)
                                          (root_entries (store w1)))))
                env id rn rc ro (root_entries (store w1)) eq_refl Hget) as Hspec.
  destruct (Start_inDir _ env id rn rc ro) as [w2 [inst|err]]; [|done].
  destruct Hspec as (pid & p & Hl & -> & ->).
  intros [= <- <-]. exists w1, p. simpl. done.
Qed.

Lemma Start_Err_inv this w env name command options w' err :
  Start this w env name command options = Some (w', Err err) →
  unopenable w' = unopenable w
  ∧ (root_entries (store w') = root_entries (store w)
     ∨ (is_Some (env_cleanup env)
        ∧ ∃ id d, entries_get id (root_entries (store w)) = None
                  ∧ info_json d = None
                  ∧ root_entries (store w')
                    = entries_ins id (Dir d) (root_entries (store w)))).
Proof.
  unfold Start. destruct (Start_applySpec this name command options) as [[rn rc] ro].
  case_bool_decide as Hc; [intros [= <- _]; auto|].
  pose proof (Start_singleton_frame this w rn ro) as [Hs Hu].
  destruct (Start_singleton this w rn ro) as [w1 [e|]]; simpl in *.
  { intros [= <- _]. rewrite Hs. auto. }
  destruct (getNextRandomID w1 (env_rand env)) as [[id|e]|] eqn:Hid;
    [|intros [= <- _]; rewrite Hs; auto|done].
  pose proof (getNextRandomID_free _ _ _ Hid) as Hfree.
  destruct (env_mkdir env) as [e|]; [intros [= <- _]; rewrite Hs; auto|].
  rewrite (os_MkdirAll_free _ _ Hfree).
  destruct (os_Stat_NotExist _ _ Hfree) as [Hget _].
  pose proof (Start_inDir_spec
                (set_store w1 (RootDir (entries_ins id (Dir emptyDir)
                                          (root_entries (store w1)))))
                env id rn rc ro (root_entries (store w1)) eq_refl Hget) as Hspec.
  destruct (Start_inDir _ env id rn rc ro) as [w2 [inst|e]] eqn:Hin; [done|].
  destruct Hspec as (d & Hst & Hl & Hinfo & Hu2).
  intros [= <- _]. unfold Start_cleanup.
  destruct (env_cleanup env) as [e'|].
  - split; [by rewrite Hu2|]. right. split; [by eexists|].
    exists id, d. rewrite <- Hs, Hst. done.
  - rewrite (os_RemoveAll_fresh _ _ _ _ Hst Hget Hl). simpl.
    split; [by rewrite Hu2|]. left. by rewrite Hs.
Qed.

(** When the deferred removal does not fail, a failed Start leaves the
    entries of the root as they were. *)
Lemma Start_Err_entries this w env name command options w' err :
  env_cleanup env = None →
  Start this w env name command options = Some (w', Err err) →
  root_entries (store w') = root_entries (store w).
Proof.
  intros Hc HStart.
  destruct (Start_Err_inv _ _ _ _ _ _ _ _ HStart) as (_ & [H|([e He] & _)]); [done|].
  congruence.
Qed.

(** ** Start: the instance directory *)

(** C3, refuted as it stands: the record cannot be written and the deferred
    removal of the instance directory fails as well; Start returns the error
    of the write, and the directory stays under the root without a record. *)
Lemma C3_failed_removal_leaves_a_directory_without_record :
  ∃ w' d,
    Start echo_runner world_empty (env_cleanup_fails id_bytes_1 812 proc_plain)
      "echo" "" caller_options
    = Some (w', Err "write info.json: no space left on device")
    ∧ store_get w' good_id = Some (Dir d)
    ∧ info_json d = None.
Proof. do 2 eexists. split; [reflexivity|]. split; reflexivity. Qed.

(** C3 (as amended): a call of Start that returns an error after the
    instance directory was made has run the deferred removal of that
    directory, whose outcome the code drops. When the removal does not fail,
    the root has exactly the entries that were there, so no directory
    without a record stays behind; when it fails, the entries that were
    there are untouched and the one new entry has no readable record. In
    particular, once os.MkdirAll has made the directory of a fresh id, a
    failure of the rest of Start finds the directory still there, and the
    removal, unless it fails, takes it away before the error is returned. A
    call that succeeds returns only with the record file written in the new
    directory. *)
Theorem C3_failed_Start_runs_the_deferred_removal :
  ∀ (this : AppRunner) (w : World) (env : StartEnv) (name command : string)
    (options : AppStartOptions) (w' : World) (r : result AppInstance),
    Start this w env name command options = Some (w', r) →
    match r with
    | Err _ =>
        (env_cleanup env = None → root_entries (store w') = root_entries (store w))
        ∧ (∀ n node, store_get w n = Some node → store_get w' n = Some node)
        ∧ (∀ n node, store_get w n = None → store_get w' n = Some node →
             is_Some (env_cleanup env) ∧ node_instance node = None)
    | Ok instance =>
        store_get w (ID instance) = None
        ∧ store_get w' (ID instance) = Some (Dir (started_dir instance))
    end
    ∧ ∀ (w1 : World) (id n c : string) (o : AppStartOptions),
        os_Stat w1 id = StatNotExist →
        store_get (os_MkdirAll w1 None id).1 id = Some (Dir emptyDir)
        ∧ match Start_inDir (os_MkdirAll w1 None id).1 env id n c o with
          | (w3, Err _) =>
              is_Some (store_get w3 id)
              ∧ (env_cleanup env = None →
                   store_get (Start_cleanup w3 env id) id = None
                   ∧ root_entries (store (Start_cleanup w3 env id))
                     = root_entries (store w1))
              ∧ (is_Some (env_cleanup env) → Start_cleanup w3 env id = w3)
          | (w3, Ok instance) =>
              store_get w3 id = Some (Dir (started_dir instance))
          end.
Proof.
  intros this w env name command options w' r HStart. split.
  - destruct r as [instance|err].
    + destruct (Start_Ok_inv _ _ _ _ _ _ _ _ HStart)
        as (w1 & p & _ & Hsing & Hid & _ & _ & ->).
      pose proof (Start_singleton_frame this w
                    (Start_applySpec this name command options).1.1
                    (Start_applySpec this name command options).2) as [Hs _].
      rewrite Hsing in Hs. simpl in Hs.
      destruct (os_Stat_NotExist _ _ (getNextRandomID_free _ _ _ Hid)) as [Hget _].
      unfold store_get. rewrite <- Hs. split; [done|].
      simpl. by apply entries_get_ins_eq.
    + destruct (Start_Err_inv _ _ _ _ _ _ _ _ HStart) as (_ & Hcases).
      unfold store_get.
      destruct Hcases as [Heq|(Hfail & id & d & Hfree & Hinfo & Heq)]; rewrite Heq.
      * split; [done|]. split; [done|]. intros n node Hn Hn'. congruence.
      * split; [intros Hc; destruct Hfail; congruence|]. split.
        -- intros n node Hn. destruct (decide (id = n)) as [->|Hne]; [congruence|].
           by rewrite entries_get_ins_ne.
        -- intros n node Hn. destruct (decide (id = n)) as [->|Hne].
           ++ rewrite entries_get_ins_eq by done. intros [= <-].
              split; [done|]. unfold node_instance. simpl. by rewrite Hinfo.
           ++ rewrite entries_get_ins_ne by done. congruence.
  - intros w1 id n c o Hfree.
    rewrite (os_MkdirAll_free _ _ Hfree). simpl.
    destruct (os_Stat_NotExist _ _ Hfree) as [Hget _].
    split; [unfold store_get; simpl; by apply entries_get_ins_eq|].
    pose proof (Start_inDir_spec
                  (set_store w1 (RootDir (entries_ins id (Dir emptyDir)
                                            (root_entries (store w1)))))
                  env id n c o (root_entries (store w1)) eq_refl Hget) as Hspec.
    destruct (Start_inDir _ env id n c o) as [w3 [inst|err]].
    + destruct Hspec as (pid & p & _ & Hi & ->). unfold store_get. simpl.
      by apply entries_get_ins_eq.
    + destruct Hspec as (d & Hst & Hl & _).
      split; [unfold store_get; rewrite Hst; simpl; by rewrite entries_get_ins_eq|].
      unfold Start_cleanup. split.
      * intros ->. rewrite (os_RemoveAll_fresh _ _ _ _ Hst Hget Hl).
        unfold store_get. done.
      * by intros [e ->].
Qed.

Lemma C3_failed_Start_runs_the_deferred_removal_witness :
  ∃ w', Start echo_runner world_empty (env_write_fails id_bytes_1 812 proc_plain)
          "echo" "" caller_options
        = Some (w', Err "write info.json: no space left on device")
      ∧ root_entries (store w') = root_entries (store world_empty).
Proof.
  eexists. split; [reflexivity|].
  exact (proj1 (proj1 (C3_failed_Start_runs_the_deferred_removal echo_runner world_empty
                  (env_write_fails id_bytes_1 812 proc_plain) "echo" "" caller_options
                  _ (Err "write info.json: no space left on device") eq_refl))
               eq_refl).
Defined.

(** ** Start: the spec of the app *)

Lemma Start_applySpec_found this name command options appSpec :
  Apps_get this name = Some appSpec →
  Start_applySpec this name command options =
  (Spec.Name appSpec,
   if bool_decide (command = "") then Spec.Command appSpec else command,
   {| Args := if IgnoreSpecArgs options then Args options
              else Spec.Args appSpec ++ Args options;
      WorkDir := if bool_decide (WorkDir options = "") then Spec.Workdir appSpec
                 else WorkDir options;
      Singleton := Singleton options || Spec.Singleton appSpec;
      Background := Background options;
      IgnoreSpecArgs := IgnoreSpecArgs options |}).
Proof.
  intros Hget. unfold Start_applySpec. rewrite Hget.
  destruct options as [args wd sg bg ig]. simpl.
  destruct appSpec as [sn sc swd ssg sargs]. simpl.
  f_equal.
  destruct (bool_decide (wd = "")), sg, ssg, ig, sargs; reflexivity.
Qed.

Lemma Start_args_of_spec this w env name command options appSpec w' instance :
  Apps_get this name = Some appSpec →
  Start this w env name command options = Some (w', Ok instance) →
  Args (Options instance) =
    (if IgnoreSpecArgs options then Args options
     else (Spec.Args appSpec ++ Args options)%list)
  ∧ last (trace w') =
      Some (EvExec (Command instance) (Args (Options instance))
              (WorkDir (Options instance)) (Background options) (Pid instance)).
Proof.
  intros Hget HStart.
  destruct (Start_Ok_inv _ _ _ _ _ _ _ _ HStart) as (w1 & p & _ & _ & _ & _ & Hi & ->).
  rewrite (Start_applySpec_found _ _ _ _ _ Hget) in Hi. simpl in Hi.
  rewrite Hi. simpl. rewrite last_snoc. done.
Qed.

(** C8: when the name is that of a loaded spec, Start goes on with the
    spec's Args followed by the caller's Args if IgnoreSpecArgs is unset,
    with the caller's Args as given if it is set, and with the spec's
    command and working directory where the caller's are empty; a Start that
    succeeds has launched that command with those arguments in that
    directory and returns a record that carries them. *)
Theorem C8_Start_resolves_against_the_spec :
  ∀ (this : AppRunner) (name command : string) (options : AppStartOptions)
    (appSpec : RunnerAppSpec),
    Apps_get this name = Some appSpec →
    Args (Start_applySpec this name command options).2 =
      (if IgnoreSpecArgs options then Args options
       else Spec.Args appSpec ++ Args options)
    ∧ (Start_applySpec this name command options).1.2 =
        (if bool_decide (command = "") then Spec.Command appSpec else command)
    ∧ WorkDir (Start_applySpec this name command options).2 =
        (if bool_decide (WorkDir options = "") then Spec.Workdir appSpec
         else WorkDir options)
    ∧ ∀ (w : World) (env : StartEnv) (w' : World) (instance : AppInstance),
        Start this w env name command options = Some (w', Ok instance) →
        Command instance = (Start_applySpec this name command options).1.2
        ∧ Options instance = (Start_applySpec this name command options).2
        ∧ Args (Options instance) =
            (if IgnoreSpecArgs options then Args options
             else Spec.Args appSpec ++ Args options)
        ∧ last (trace w') =
            Some (EvExec (Command instance) (Args (Options instance))
                    (WorkDir (Options instance)) (Background options) (Pid instance)).
Proof.
  intros this name command options appSpec Hget.
  rewrite (Start_applySpec_found _ _ _ _ _ Hget). simpl.
  do 3 (split; [done|]).
  intros w env w' instance HStart.
  destruct (Start_Ok_inv _ _ _ _ _ _ _ _ HStart) as (w1 & p & _ & _ & _ & _ & Hi & ->).
  rewrite (Start_applySpec_found _ _ _ _ _ Hget) in Hi. simpl in Hi.
  rewrite Hi. simpl. rewrite last_snoc. done.
Qed.

Lemma C8_Start_resolves_against_the_spec_witness :
  ∃ w' instance,
    Start echo_runner world_empty (env_ok id_bytes_1 812 proc_plain)
      "echo" "" caller_options = Some (w', Ok instance)
    ∧ Args (Options instance) = ["1000"; "--verbose"]
    ∧ Command instance = "sleep"
    ∧ WorkDir (Options instance) = "/tmp".
Proof.
  eexists _, _. split; [reflexivity|].
  pose proof (C8_Start_resolves_against_the_spec echo_runner "echo" "" caller_options
                echo_spec eq_refl) as (_ & H2 & H3 & HStart).
  destruct (HStart world_empty (env_ok id_bytes_1 812 proc_plain) _ _ eq_refl)
    as (Hc & Ho & Ha & _).
  split; [exact Ha|]. split; [exact Hc|reflexivity].
Defined.

(** ** Enumerating the store *)

Lemma loadInstances_loop_Err idF instF es :
  (∃ e, loadInstances_loop idF instF es = Err e) ↔
  ∃ name node, (name, node) ∈ es ∧ passes idF name = true ∧ node_instance node = None.
Proof.
  induction es as [|[n x] es IH]; simpl.
  { split; [by intros [e ?]|]. intros (? & ? & H & _). by apply elem_of_nil in H. }
  assert (Hskip : (if match idF with Some f => negb (f n) | None => false end
                   then true else false) = negb (passes idF n)).
  { unfold passes. destruct idF as [f|]; [by destruct (f n)|done]. }
  destruct (match idF with Some f => negb (f n) | None => false end) eqn:Hf;
    simpl in Hskip.
  - rewrite IH. split.
    + intros (name & node & Hin & Hp & Hn). exists name, node.
      split; [by apply list_elem_of_further|done].
    + intros (name & node & Hin & Hp & Hn).
      apply elem_of_cons in Hin as [[= -> ->]|Hin].
      * rewrite Hp in Hskip. done.
      * by exists name, node.
  - assert (Hpass : passes idF n = true) by (by destruct (passes idF n)).
    unfold node_instance in *.
    destruct (ioutil_ReadFile_info x) as [data|e] eqn:Hr.
    + destruct (json_Unmarshal data) as [i|e] eqn:Hj.
      * destruct (loadInstances_loop idF instF es) as [l|e] eqn:Hl.
        -- split.
           { intros [e He]. by destruct (match instF with Some f => f i | None => true end). }
           intros (name & node & Hin & Hp & Hn).
           apply elem_of_cons in Hin as [[= -> ->]|Hin].
           ++ by rewrite Hr, Hj in Hn.
           ++ destruct (proj2 IH) as [e' He']; [by exists name, node|done].
        -- split; [|by eauto]. intros _.
           destruct (proj1 IH) as (name & node & Hin & Hp & Hn); [by eauto|].
           exists name, node. split; [by apply list_elem_of_further|done].
      * split; [|by eauto]. intros _. exists n, x.
        split; [apply list_elem_of_here|]. by rewrite Hr, Hj.
    + split; [|by eauto]. intros _. exists n, x.
      split; [apply list_elem_of_here|]. by rewrite Hr.
Qed.

Lemma loadInstances_Err w idF instF :
  (∀ err, store w ≠ BadRoot err) →
  (∃ e, loadInstances w idF instF = Err e) ↔
  ∃ name node, (name, node) ∈ root_entries (store w)
               ∧ passes idF name = true ∧ node_instance node = None.
Proof.
  intros Hroot. unfold loadInstances. destruct (store w) as [|err|es]; simpl.
  - split; [by intros [e ?]|]. intros (? & ? & H & _). by apply elem_of_nil in H.
  - by destruct (Hroot err).
  - apply loadInstances_loop_Err.
Qed.

Lemma has_corrupt_record_root w :
  has_corrupt_record w → ∀ err, store w ≠ BadRoot err.
Proof.
  intros (name & node & Hin & _) err Hs. rewrite Hs in Hin.
  by apply elem_of_nil in Hin.
Qed.

Lemma loadInstances_unfiltered_corrupt w instF :
  has_corrupt_record w → ∃ e, loadInstances w None instF = Err e.
Proof.
  intros Hc. apply loadInstances_Err; [by apply has_corrupt_record_root|].
  destruct Hc as (name & node & Hin & Hn). by exists name, node.
Qed.

(** C4, as it stands, fails for GetInstance: the id filter is applied to the
    directory name before the record is read, so the corrupt record of
    another directory is never looked at. *)
Lemma C4_GetInstance_skips_corrupt_records :
  has_corrupt_record corrupt_world
  ∧ GetInstance corrupt_world good_id = Ok (Some good_instance).
Proof.
  split; [|reflexivity].
  exists corrupt_id, (Dir {| info_json := Some (Raw "{id: "); stderr_log := Some "";
                             stdout_log := Some ""; locked := false |}).
  split; [|reflexivity].
  apply list_elem_of_further, list_elem_of_here.
Qed.

(** C4, amended: when an entry under the root has a record file that cannot
    be read or does not parse, every enumeration without an id filter (List,
    GetInstancesByName, GetRunningInstancesByName, CleanAll) returns an
    error and no list, and CleanAll removes nothing; GetInstance reads only
    the entries called [id] and fails exactly when one of those has such a
    record file. *)
Theorem C4_corrupt_record_fails_unfiltered_enumeration :
  ∀ (this : AppRunner) (w : World),
    has_corrupt_record w →
    (∀ onlyRunning, ∃ e, List w onlyRunning = Err e)
    ∧ (∀ name, ∃ e, GetInstancesByName this w name = Err e)
    ∧ (∀ name, ∃ e, GetRunningInstancesByName this w name = Err e)
    ∧ (∃ e, CleanAll w = (w, Some e))
    ∧ (∀ id, (∃ e, GetInstance w id = Err e) ↔
             ∃ node, (id, node) ∈ root_entries (store w) ∧ node_instance node = None).
Proof.
  intros this w Hc. split; [|split; [|split; [|split]]].
  - intros [|]; unfold List; simpl; by apply loadInstances_unfiltered_corrupt.
  - intros name. unfold GetInstancesByName. by apply loadInstances_unfiltered_corrupt.
  - intros name. unfold GetRunningInstancesByName.
    by apply loadInstances_unfiltered_corrupt.
  - unfold CleanAll, List. simpl.
    destruct (loadInstances_unfiltered_corrupt w None Hc) as [e ->]. by exists e.
  - intros id. unfold GetInstance.
    pose proof (loadInstances_Err w (Some (λ _id, bool_decide (_id = id))) None
                  (has_corrupt_record_root w Hc)) as Hiff.
    split.
    + intros [e He].
      destruct (loadInstances w (Some (λ _id, bool_decide (_id = id))) None)
        as [l|e'] eqn:Hl.
      { by destruct l. }
      destruct (proj1 Hiff) as (name & node & Hin & Hp & Hn); [by eauto|].
      simpl in Hp. apply bool_decide_eq_true_1 in Hp as ->. by exists node.
    + intros (node & Hin & Hn).
      destruct (proj2 Hiff) as [e He].
      { exists id, node. split; [done|]. split; [|done]. simpl.
        by apply bool_decide_eq_true_2. }
      rewrite He. by exists e.
Qed.

Lemma C4_corrupt_record_fails_unfiltered_enumeration_witness :
  (∃ e, List corrupt_world false = Err e)
  ∧ (∃ e, CleanAll corrupt_world = (corrupt_world, Some e)).
Proof.
  assert (Hc : has_corrupt_record corrupt_world).
  { exists corrupt_id, (Dir {| info_json := Some (Raw "{id: "); stderr_log := Some "";
                               stdout_log := Some ""; locked := false |}).
    split; [|reflexivity]. apply list_elem_of_further, list_elem_of_here. }
  pose proof (C4_corrupt_record_fails_unfiltered_enumeration echo_runner corrupt_world
                Hc) as (H1 & _ & _ & H2 & _).
  exact (conj (H1 false) H2).
Defined.

(** ** Restart *)

Lemma loadInstances_loop_by_id id es instance instances :
  loadInstances_loop (Some (λ _id, bool_decide (_id = id))) None es
    = Ok (instance :: instances) →
  ∃ node, entries_get id es = Some node ∧ node_instance node = Some instance.
Proof.
  induction es as [|[n x] es IH]; simpl; [done|].
  case_bool_decide as Hn; simpl; [|by apply IH].
  unfold node_instance.
  destruct (ioutil_ReadFile_info x) as [data|e] eqn:Hr; [|done].
  destruct (json_Unmarshal data) as [i|e] eqn:Hj; [|done].
  destruct (loadInstances_loop _ None es) as [l|e]; [|done].
  intros [= <- <-]. exists x. by rewrite Hr, Hj.
Qed.

Lemma GetInstance_Some w id instance :
  GetInstance w id = Ok (Some instance) →
  ∃ node, store_get w id = Some node ∧ node_instance node = Some instance.
Proof.
  unfold GetInstance, loadInstances, store_get.
  destruct (store w) as [|err|es]; simpl; [done..|].
  destruct (loadInstances_loop _ None es) as [[|i l]|e] eqn:Hl; [done| |done].
  intros [= <-]. by apply (loadInstances_loop_by_id _ _ _ _ Hl).
Qed.

Lemma Restart_Ok_inv this w env id clean w' instance' :
  Restart this w env id clean = Some (w', Ok instance') →
  ∃ old w1 w2,
    GetInstance w id = Ok (Some old)
    ∧ Stop w old = (w1, None)
    ∧ (if clean then Clean w1 (ID old) else (w1, None)) = (w2, None)
    ∧ Start this w2 env (Name old) (Command old) (Options old) = Some (w', Ok instance').
Proof.
  unfold Restart. destruct (GetInstance w id) as [[old|]|e] eqn:Hg; [|done..].
  destruct (Stop w old) as [w1 [e|]] eqn:Hs; [done|].
  destruct (if clean then Clean w1 (ID old) else (w1, None)) as [w2 [e|]] eqn:Hc; [done|].
  intros HStart. exists old, w1, w2. by rewrite Hs, Hc.
Qed.

(** C10: Restart hands the stored options back to Start, which applies the
    spec of the stored name again. With a spec whose Args are not empty and
    IgnoreSpecArgs unset in the stored options, the arguments of the new
    record, which are those of the new launch, are the spec's Args followed
    by the stored arguments; when the stored arguments were themselves made
    by Start from that spec, the spec's Args come twice, and the arguments
    differ from the stored ones. *)
Theorem C10_Restart_prepends_spec_args_again :
  ∀ (this : AppRunner) (w : World) (env : StartEnv) (id : string) (clean : bool)
    (old : AppInstance) (appSpec : RunnerAppSpec) (w' : World) (instance' : AppInstance),
    GetInstance w id = Ok (Some old) →
    Apps_get this (Name old) = Some appSpec →
    Spec.Args appSpec ≠ [] →
    IgnoreSpecArgs (Options old) = false →
    Restart this w env id clean = Some (w', Ok instance') →
    Args (Options instance') = (Spec.Args appSpec ++ Args (Options old))%list
    ∧ (∀ callerArgs,
         Args (Options old) = (Spec.Args appSpec ++ callerArgs)%list →
         Args (Options instance')
         = (Spec.Args appSpec ++ Spec.Args appSpec ++ callerArgs)%list)
    ∧ Args (Options instance') ≠ Args (Options old)
    ∧ last (trace w') =
        Some (EvExec (Command instance') (Spec.Args appSpec ++ Args (Options old))
                (WorkDir (Options instance')) (Background (Options old))
                (Pid instance')).
Proof.
  intros this w env id clean old appSpec w' instance' Hold Hspec Hargs Hign HRestart.
  destruct (Restart_Ok_inv _ _ _ _ _ _ _ HRestart) as (old' & w1 & w2 & Hg & _ & _ & HStart).
  rewrite Hold in Hg. injection Hg as <-.
  destruct (Start_args_of_spec _ _ _ _ _ _ _ _ _ Hspec HStart) as (Ha & Hl).
  rewrite Hign in Ha. split; [done|]. split; [|split].
  - intros callerArgs Hc. by rewrite Ha, Hc.
  - rewrite Ha. intros Heq. apply (f_equal length) in Heq.
    rewrite length_app in Heq. destruct (Spec.Args appSpec); [done|]. simpl in Heq. lia.
  - by rewrite Hl, Ha.
Qed.

Example Start_echo_in_empty_world :
  Start echo_runner world_empty (env_ok id_bytes_1 812 proc_plain) "echo" "" caller_options
  = Some (world_after_start, Ok first_instance).
Proof. reflexivity. Qed.

Lemma C10_Restart_prepends_spec_args_again_witness :
  ∃ w' instance',
    Restart echo_runner world_after_start (env_ok id_bytes_2 813 proc_plain) good_id false
    = Some (w', Ok instance')
    ∧ Args (Options instance') = ["1000"; "1000"; "--verbose"].
Proof.
  eexists _, _. split; [reflexivity|].
  refine (proj1 (proj2 (C10_Restart_prepends_spec_args_again echo_runner
            world_after_start (env_ok id_bytes_2 813 proc_plain) good_id false
            first_instance echo_spec _ _ eq_refl eq_refl _ eq_refl eq_refl))
            ["--verbose"] eq_refl).
  discriminate.
Defined.

Lemma remove_entry_spec w es name w' :
  store w = RootDir es →
  remove_entry w es name = (w', None) →
  store w' = RootDir (entries_remove name es)
  ∧ procs w' = procs w ∧ unopenable w' = unopenable w
  ∧ trace w' = trace w ∧ beyond w' = beyond w.
Proof.
  intros Hs. unfold remove_entry.
  destruct (entries_get name es) as [[b|d]|] eqn:Hg.
  - by intros [= <-].
  - destruct (locked d); [done|]. by intros [= <-].
  - intros [= <-]. by rewrite entries_remove_absent.
Qed.

(** The removal of a name that the root lists, when it does not fail. *)
Lemma os_RemoveAll_listed w name node w' :
  store_get w name = Some node →
  os_RemoveAll w name = (w', None) →
  store w' = RootDir (entries_remove name (root_entries (store w)))
  ∧ procs w' = procs w ∧ unopenable w' = unopenable w
  ∧ trace w' = trace w ∧ beyond w' = beyond w.
Proof.
  unfold store_get. destruct (store w) as [|err|es] eqn:Hs; simpl; [done..|].
  intros Hg. rewrite (os_RemoveAll_entry _ _ _ _ Hs Hg). by apply remove_entry_spec.
Qed.

Lemma os_RemoveAll_listed_get w name node w' :
  store_get w name = Some node →
  os_RemoveAll w name = (w', None) →
  store_get w' name = None
  ∧ ∀ other, other ≠ name → store_get w' other = store_get w other.
Proof.
  intros Hg Hr. destruct (os_RemoveAll_listed _ _ _ _ Hg Hr) as (Hs & _).
  unfold store_get. rewrite Hs. simpl. split.
  - apply entries_get_remove_eq.
  - intros other Hne. by apply entries_get_remove_ne.
Qed.

Lemma Start_Ok_store this w env name command options w' instance :
  Start this w env name command options = Some (w', Ok instance) →
  store_get w (ID instance) = None
  ∧ store_get w' (ID instance) = Some (Dir (started_dir instance))
  ∧ ∀ other, other ≠ ID instance → store_get w' other = store_get w other.
Proof.
  intros HStart.
  destruct (Start_Ok_inv _ _ _ _ _ _ _ _ HStart)
    as (w1 & p & _ & Hsing & Hid & _ & _ & ->).
  pose proof (Start_singleton_frame this w
                (Start_applySpec this name command options).1.1
                (Start_applySpec this name command options).2) as [Hs _].
  rewrite Hsing in Hs. simpl in Hs.
  destruct (os_Stat_NotExist _ _ (getNextRandomID_free _ _ _ Hid)) as [Hget _].
  unfold store_get. rewrite <- Hs. split; [done|]. simpl. split.
  - by apply entries_get_ins_eq.
  - intros other Hne. by apply entries_get_ins_ne.
Qed.

Lemma entries_get_elem name node es :
  entries_get name es = Some node → (name, node) ∈ es.
Proof.
  induction es as [|[n y] es IH]; simpl; [done|].
  case_bool_decide as Hn.
  - intros [= ->]. subst. apply list_elem_of_here.
  - intros H. apply list_elem_of_further. auto.
Qed.

(** On a store as Start builds it, the record found under [id] carries
    [id]. *)
Lemma GetInstance_ID w id instance :
  store_ok w → GetInstance w id = Ok (Some instance) → ID instance = id.
Proof.
  intros [_ Hid] Hg. destruct (GetInstance_Some _ _ _ Hg) as (node & Hn & Hi).
  apply (Hid id node instance); [|done]. by apply entries_get_elem.
Qed.

(** C6, refuted as it stands. When the old directory is cleaned, the id is
    only checked against the directories that exist, and the draw of the
    random source can name the directory just removed. And the directory is
    found by the ID that the record carries: in a store whose directory
    [good_id] holds the record of [second_id], Restart of [good_id] with
    [clean] removes the directory [second_id] and leaves [good_id]. *)
Lemma C6_Restart_clean_can_reuse_the_id :
  (∃ w' instance',
     Restart echo_runner stale_world (env_ok id_bytes_1 813 proc_plain) good_id true
     = Some (w', Ok instance')
     ∧ ID instance' = good_id)
  ∧ (∃ w' instance',
       Restart echo_runner misfiled_world (env_ok id_bytes_3 814 proc_plain) good_id true
       = Some (w', Ok instance')
       ∧ store_get misfiled_world second_id = Some (Dir (started_dir running_instance))
       ∧ store_get w' second_id = None
       ∧ store_get w' good_id = Some (Dir (started_dir second_instance))).
Proof.
  split.
  - eexists _, _. split; reflexivity.
  - eexists _, _. split; [reflexivity|]. repeat split; reflexivity.
Qed.

(** C6 (as amended): on a store as Start builds it, a Restart that succeeds
    has loaded the record of [id], which carries [id], sent it the Stop
    signal, removed its directory if [clean] was asked, and called Start
    with the name, command and options stored in the record. The id of the
    instance it returns names no directory that existed when it was
    allocated, and the call changes no other entry of the store than the
    new directory and, under [clean], the removed one. Without [clean] the
    new id differs from [id] and the old entry is still in the store as it
    was; with [clean] the directory [id] is gone when Start is called, and
    is in the store afterwards only if the new instance drew [id] again. *)
Theorem C6_Restart_starts_a_new_record :
  ∀ (this : AppRunner) (w : World) (env : StartEnv) (id : string) (clean : bool)
    (w' : World) (instance' : AppInstance),
    store_ok w →
    Restart this w env id clean = Some (w', Ok instance') →
    ∃ (old : AppInstance) (w1 w2 : World),
      GetInstance w id = Ok (Some old)
      ∧ ID old = id
      ∧ Stop w old = (w1, None)
      ∧ (if clean then Clean w1 (ID old) else (w1, None)) = (w2, None)
      ∧ Start this w2 env (Name old) (Command old) (Options old)
        = Some (w', Ok instance')
      ∧ store_get w2 (ID instance') = None
      ∧ store_get w' (ID instance') = Some (Dir (started_dir instance'))
      ∧ (∀ other, other ≠ ID instance' → clean = false ∨ other ≠ ID old →
           store_get w' other = store_get w other)
      ∧ (clean = false → ID instance' ≠ id ∧ store_get w' id = store_get w id)
      ∧ (clean = true →
           store_get w2 id = None
           ∧ (ID instance' ≠ id → store_get w' id = None)
           ∧ (ID instance' = id →
                store_get w' id = Some (Dir (started_dir instance')))).
Proof.
  intros this w env id clean w' instance' Hok HRestart.
  destruct (Restart_Ok_inv _ _ _ _ _ _ _ HRestart)
    as (old & w1 & w2 & Hg & HStop & HClean & HStart).
  pose proof (GetInstance_ID _ _ _ Hok Hg) as Hold.
  exists old, w1, w2. do 5 (split; [done|]).
  destruct (Start_Ok_store _ _ _ _ _ _ _ _ HStart) as (Hfree & Hnew & Hother).
  do 2 (split; [done|]).
  destruct (GetInstance_Some _ _ _ Hg) as (node & Hnode & _).
  assert (Hw1 : ∀ n, store_get w1 n = store_get w n).
  { intros n. unfold store_get. rewrite Stop_send in HStop.
    pose proof (send_frame SignalInt w old) as [Hs _]. rewrite HStop in Hs.
    simpl in Hs. by rewrite Hs. }
  assert (Hw2 : ∀ n, clean = false ∨ n ≠ ID old → store_get w2 n = store_get w n).
  { intros n Hn. rewrite <- Hw1. destruct clean.
    - destruct Hn as [|Hn]; [done|]. unfold Clean in HClean.
      rewrite Hold in HClean, Hn. rewrite <- Hw1 in Hnode.
      by apply (os_RemoveAll_listed_get _ _ _ _ Hnode HClean).
    - by injection HClean as <-. }
  split; [|split].
  - intros other Hne Hc. rewrite Hother by done. by apply Hw2.
  - intros ->.
    assert (Hne : ID instance' ≠ id).
    { intros Heq. rewrite Heq, Hw2, Hnode in Hfree by auto. done. }
    split; [done|]. rewrite Hother by done. apply Hw2. by left.
  - intros ->. unfold Clean in HClean. rewrite Hold in HClean.
    rewrite <- Hw1 in Hnode.
    destruct (os_RemoveAll_listed_get _ _ _ _ Hnode HClean) as [Hgone _].
    split; [done|]. split.
    + intros Hne. rewrite Hother by done. done.
    + intros Heq. by rewrite <- Heq.
Qed.

Lemma C6_Restart_starts_a_new_record_witness :
  ∃ w' instance',
    Restart echo_runner world_after_start (env_ok id_bytes_2 813 proc_plain) good_id false
    = Some (w', Ok instance')
    ∧ ID instance' ≠ good_id
    ∧ store_get w' good_id = store_get world_after_start good_id.
Proof.
  eexists _, _. split; [reflexivity|].
  assert (Hok : store_ok world_after_start).
  { split.
    - apply (bool_decide_unpack (NoDup _)). vm_compute. exact I.
    - simpl. intros name node instance Hin.
      repeat (apply elem_of_cons in Hin as [[= -> ->]|Hin];
              [by intros [= <-]|]).
      by apply elem_of_nil in Hin. }
  destruct (C6_Restart_starts_a_new_record echo_runner world_after_start
              (env_ok id_bytes_2 813 proc_plain) good_id false _ _ Hok eq_refl)
    as (old & w1 & w2 & _ & _ & _ & _ & _ & _ & _ & _ & Hkeep & _).
  exact (Hkeep eq_refl).
Defined.

(** ** CleanAll *)

Lemma entries_get_None name es : entries_get name es = None ↔ name ∉ es.*1.
Proof.
  induction es as [|[n x] es IH]; simpl.
  - split; [intros _; apply not_elem_of_nil|done].
  - rewrite not_elem_of_cons, <- IH. case_bool_decide as Hn.
    + split; [done|]. by intros [? _].
    + split; [by intros ?; split; [intros ->|]|by intros [_ ?]].
Qed.

Lemma entries_remove_middle name x (pre rest : list (string * Node)) :
  NoDup (pre ++ (name, x) :: rest).*1 →
  entries_remove name (pre ++ (name, x) :: rest) = pre ++ rest
  ∧ entries_get name (pre ++ (name, x) :: rest) = Some x.
Proof.
  rewrite fmap_app, fmap_cons. simpl. intros Hnd.
  apply NoDup_app in Hnd as (Hd & Hdis & Hr).
  apply NoDup_cons in Hr as [Hn Hr].
  assert (Hnd' : name ∉ pre.*1).
  { intros Hin. apply (Hdis _ Hin). apply list_elem_of_here. }
  split.
  - unfold entries_remove. rewrite filter_app.
    rewrite filter_cons_False by (simpl; auto).
    fold (entries_remove name pre). fold (entries_remove name rest).
    rewrite !entries_remove_absent by (by apply entries_get_None). done.
  - clear -Hnd'. induction pre as [|[n y] pre IH]; simpl.
    + by rewrite bool_decide_eq_true_2.
    + simpl in Hnd'. apply not_elem_of_cons in Hnd' as [Hne Hnd'].
      rewrite bool_decide_eq_false_2 by done. auto.
Qed.

Lemma loadInstances_loop_all_cons n x rest instances :
  loadInstances_loop None None ((n, x) :: rest) = Ok instances →
  ∃ instance instances',
    node_instance x = Some instance ∧ instances = instance :: instances'
    ∧ loadInstances_loop None None rest = Ok instances'.
Proof.
  simpl. unfold node_instance.
  destruct (ioutil_ReadFile_info x) as [data|e]; [|done].
  destruct (json_Unmarshal data) as [i|e]; [|done].
  destruct (loadInstances_loop None None rest) as [l|e]; [|done].
  intros [= <-]. by exists i, l.
Qed.

Lemma node_instance_Dir node instance :
  node_instance node = Some instance → ∃ d, node = Dir d.
Proof. destruct node as [b|d]; [done|]. by exists d. Qed.

Lemma CleanAll_loop_spec w rest : ∀ (pre : list (string * Node)) w0 instances w' r,
  store w0 = RootDir (pre ++ rest) →
  NoDup (pre ++ rest).*1 →
  (∀ name node instance, (name, node) ∈ rest →
     node_instance node = Some instance → ID instance = name) →
  procs w0 = procs w → unopenable w0 = unopenable w →
  loadInstances_loop None None rest = Ok instances →
  CleanAll_loop w0 instances = (w', r) →
  ∃ kept,
    store w' = RootDir (pre ++ kept)
    ∧ procs w' = procs w0 ∧ unopenable w' = unopenable w0 ∧ trace w' = trace w0
    ∧ (∀ e, e ∈ rest → entry_exited w e = false → e ∈ kept)
    ∧ (r = None → kept = filter (λ e, entry_exited w e = false) rest).
Proof.
  induction rest as [|[n x] rest IH]; intros pre w0 instances w' r Hst Hnd Hid Hp Hu Hl Hc.
  - simpl in Hl. injection Hl as <-. simpl in Hc. injection Hc as <- <-.
    exists []. by rewrite Hst.
  - destruct (loadInstances_loop_all_cons _ _ _ _ Hl) as (i & l & Hi & -> & Hl').
    assert (Hidn : ID i = n) by (apply (Hid n x i); [apply list_elem_of_here|done]).
    assert (Hex : entry_exited w (n, x)
                  = bool_decide ((GetStatus w0 i).1 = StatusExited)).
    { unfold entry_exited. simpl. rewrite Hi. by rewrite (GetStatus_ext w0 w). }
    simpl in Hc. rewrite <- Hex in Hc.
    destruct (entry_exited w (n, x)) eqn:Hexited.
    + destruct (entries_remove_middle n x pre rest Hnd) as [Hrm Hget].
      destruct (node_instance_Dir _ _ Hi) as [d ->].
      unfold RemoveInstance in Hc.
      rewrite Hidn, (os_RemoveAll_entry _ _ _ _ Hst Hget) in Hc.
      unfold remove_entry in Hc. rewrite Hget in Hc.
      destruct (locked d).
      * injection Hc as <- <-. exists ((n, Dir d) :: rest).
        split; [done|]. do 3 (split; [done|]). split; [done|]. done.
      * rewrite Hrm in Hc.
        destruct (IH pre (set_store w0 (RootDir (pre ++ rest))) l w' r)
          as (kept & Hst' & Hp' & Hu' & Ht' & Hkeep & Hfilter); try done.
        { rewrite fmap_app, fmap_cons in Hnd. rewrite fmap_app.
          apply NoDup_app in Hnd as (Hd & Hdis & Hr).
          apply NoDup_cons in Hr as [_ Hr]. apply NoDup_app. split; [done|].
          split; [|done]. intros y Hy Hy'. apply (Hdis y Hy).
          by apply list_elem_of_further. }
        { intros name node inst Hin. apply Hid. by apply list_elem_of_further. }
        exists kept. split; [done|]. do 3 (split; [done|]). split.
        -- intros e He Hne. apply elem_of_cons in He as [->|He]; [congruence|auto].
        -- intros Hr. rewrite filter_cons_False by (rewrite Hexited; done). auto.
    + destruct (IH (pre ++ [(n, x)]) w0 l w' r)
        as (kept & Hst' & Hp' & Hu' & Ht' & Hkeep & Hfilter); try done.
      { by rewrite <- app_assoc. }
      { by rewrite <- app_assoc. }
      { intros name node inst Hin. apply Hid. by apply list_elem_of_further. }
      exists ((n, x) :: kept). rewrite <- app_assoc in Hst'.
      split; [done|]. do 3 (split; [done|]). split.
      * intros e He Hne. apply elem_of_cons in He as [->|He];
          [apply list_elem_of_here|]. apply list_elem_of_further. auto.
      * intros Hr. rewrite filter_cons_True by done. f_equal. auto.
Qed.

(** C5, refuted as it stands: CleanAll removes the directory that the ID of
    an Exited record names. In a store whose directory [good_id] holds the
    record of [second_id], which is Exited, while the directory [second_id]
    holds the record of a Running instance, CleanAll returns nil, has removed
    the directory of the Running instance and has kept the directory with
    the Exited record. *)
Lemma C5_CleanAll_removes_the_directory_the_record_names :
  ∃ w',
    CleanAll misfiled_world = (w', None)
    ∧ root_entries (store misfiled_world)
      = [(good_id, Dir (started_dir second_instance));
         (second_id, Dir (started_dir running_instance))]
    ∧ GetStatus misfiled_world second_instance = (StatusExited, None)
    ∧ GetStatus misfiled_world running_instance = (StatusRunning, None)
    ∧ root_entries (store w') = [(good_id, Dir (started_dir second_instance))].
Proof. eexists. split; [reflexivity|]. repeat split; reflexivity. Qed.

(** C5 (as amended): on a store as Start builds it, where no two entries
    share a name and every readable record carries the name of its directory
    as ID, a CleanAll that returns nil leaves under the root exactly the
    entries whose instance is not Exited, in their order and with their
    contents (record and log files), and touches neither processes nor
    trace; whatever CleanAll returns, every entry whose instance is Running
    or in Error is still there as it was. *)
Theorem C5_CleanAll_removes_exactly_the_exited :
  ∀ (w w' : World) (r : error),
    store_ok w →
    CleanAll w = (w', r) →
    (r = None →
       root_entries (store w')
       = filter (λ e, entry_exited w e = false) (root_entries (store w)))
    ∧ (∀ name node instance,
         (name, node) ∈ root_entries (store w) →
         node_instance node = Some instance →
         (GetStatus w instance).1 = StatusRunning
         ∨ (GetStatus w instance).1 = StatusError →
         (name, node) ∈ root_entries (store w'))
    ∧ (r = None →
       ∀ name node instance,
         (name, node) ∈ root_entries (store w) →
         node_instance node = Some instance →
         (GetStatus w instance).1 = StatusExited →
         (name, node) ∉ root_entries (store w'))
    ∧ procs w' = procs w ∧ trace w' = trace w.
Proof.
  intros w w' r [Hnd Hid] HClean. unfold CleanAll, List, loadInstances in HClean.
  simpl in HClean.
  assert (Hgoal :
    (r = None → root_entries (store w')
                = filter (λ e, entry_exited w e = false) (root_entries (store w)))
    ∧ (∀ e, e ∈ root_entries (store w) → entry_exited w e = false →
            e ∈ root_entries (store w'))
    ∧ procs w' = procs w ∧ trace w' = trace w).
  { destruct (store w) as [|err|es] eqn:Hs.
    - simpl in HClean. injection HClean as <- <-. rewrite Hs. simpl. done.
    - injection HClean as <- <-. rewrite Hs. simpl. done.
    - destruct (loadInstances_loop None None es) as [instances|e] eqn:Hl.
      + destruct (CleanAll_loop_spec w es [] w instances w' r)
          as (kept & Hst' & Hp' & Hu' & Ht' & Hkeep & Hfilter); try done.
        rewrite Hst'. simpl. done.
      + injection HClean as <- <-. rewrite Hs. done. }
  destruct Hgoal as (Hfilter & Hkeep & Hp & Ht).
  split; [done|]. split; [|split; [|done]].
  - intros name node instance Hin Hi Hstatus. apply Hkeep; [done|].
    unfold entry_exited. simpl. rewrite Hi. apply bool_decide_eq_false_2.
    unfold StatusRunning, StatusError, StatusExited in *.
    destruct Hstatus as [-> | ->]; done.
  - intros Hr name node instance Hin Hi Hstatus. rewrite (Hfilter Hr).
    rewrite list_elem_of_filter. intros [Hne _]. unfold entry_exited in Hne.
    simpl in Hne. rewrite Hi in Hne. by rewrite bool_decide_eq_true_2 in Hne.
Qed.

Lemma C5_CleanAll_removes_exactly_the_exited_witness :
  ∃ w', CleanAll three_world = (w', None)
        ∧ root_entries (store w') = [(good_id, Dir (started_dir first_instance))].
Proof.
  eexists. split; [reflexivity|].
  assert (Hok : store_ok three_world).
  { split.
    - apply (bool_decide_unpack (NoDup _)). vm_compute. exact I.
    - simpl. intros name node instance Hin.
      repeat (apply elem_of_cons in Hin as [[= -> ->]|Hin];
              [by intros [= <-]|]).
      by apply elem_of_nil in Hin. }
  exact (proj1 (C5_CleanAll_removes_exactly_the_exited three_world _ None Hok eq_refl)
           eq_refl).
Defined.

(** ** The singleton rule of Start *)

Lemma loadInstances_loop_Ok_inv F es instances :
  loadInstances_loop None F es = Ok instances →
  (∀ n x, (n, x) ∈ es → is_Some (node_instance x))
  ∧ ∀ i, i ∈ instances ↔ stored_in es i ∧ accepts F i = true.
Proof.
  revert instances. induction es as [|[n x] es IH]; simpl; intros instances.
  - intros [= <-]. split.
    + intros ?? H. by apply elem_of_nil in H.
    + intros i. split; [intros H; by apply elem_of_nil in H|].
      intros [(? & ? & H & _) _]. by apply elem_of_nil in H.
  - unfold stored_in, node_instance in *.
    destruct (ioutil_ReadFile_info x) as [data|e] eqn:Hr; [|done].
    destruct (json_Unmarshal data) as [i0|e] eqn:Hj; [|done].
    destruct (loadInstances_loop None F es) as [l|e]; [|done].
    destruct (IH l eq_refl) as [Hread Hmem].
    intros Hres. split.
    + intros m y Hin. apply elem_of_cons in Hin as [[= -> ->]|Hin].
      * rewrite Hr, Hj. by eexists.
      * by apply (Hread m y).
    + intros i. fold (accepts F i0) in Hres.
      assert (Hhead : (∃ name node, (name, node) ∈ (n, x) :: es
                         ∧ match ioutil_ReadFile_info node with
                           | Ok data0 => match json_Unmarshal data0 with
                                         | Ok instance => Some instance
                                         | Err _ => None
                                         end
                           | Err _ => None
                           end = Some i)
                      ↔ i = i0 ∨ (∃ name node, (name, node) ∈ es
                         ∧ match ioutil_ReadFile_info node with
                           | Ok data0 => match json_Unmarshal data0 with
                                         | Ok instance => Some instance
                                         | Err _ => None
                                         end
                           | Err _ => None
                           end = Some i)).
      { split.
        - intros (m & y & Hin & Hy).
          apply elem_of_cons in Hin as [[= -> ->]|Hin].
          + left. rewrite Hr, Hj in Hy. by injection Hy.
          + right. by exists m, y.
        - intros [->|(m & y & Hin & Hy)].
          + exists n, x. split; [apply list_elem_of_here|]. by rewrite Hr, Hj.
          + exists m, y. split; [by apply list_elem_of_further|done]. }
      rewrite Hhead.
      destruct (accepts F i0) eqn:Hacc; injection Hres as <-.
      * rewrite elem_of_cons, Hmem. split.
        -- intros [->|[Hs Ha]]; [by split; [left|]|by split; [right|]].
        -- intros [[->|Hs] Ha]; [by left|by right].
      * rewrite Hmem. split.
        -- intros [Hs Ha]. by split; [right|].
        -- intros [[->|Hs] Ha]; [congruence|done].
Qed.

Lemma loadInstances_loop_nobody F es :
  (∀ n x, (n, x) ∈ es → is_Some (node_instance x)) →
  (∀ i, stored_in es i → accepts F i = false) →
  loadInstances_loop None F es = Ok [].
Proof.
  induction es as [|[n x] es IH]; simpl; intros Hread Hrej; [done|].
  destruct (Hread n x (list_elem_of_here _ _)) as [i Hi].
  assert (Hacc : accepts F i = false).
  { apply Hrej. exists n, x. split; [apply list_elem_of_here|done]. }
  unfold node_instance in Hi.
  destruct (ioutil_ReadFile_info x) as [data|e]; [|done].
  destruct (json_Unmarshal data) as [i0|e]; [|done].
  injection Hi as ->. rewrite IH.
  - fold (accepts F i). by rewrite Hacc.
  - intros m y Hin. apply (Hread m y). by apply list_elem_of_further.
  - intros j (m & y & Hin & Hy). apply Hrej. exists m, y.
    split; [by apply list_elem_of_further|done].
Qed.

Lemma loadInstances_loop_only F es1 es2 id x instance :
  (∀ n y, (n, y) ∈ es1 ++ es2 → is_Some (node_instance y)) →
  (∀ i, stored_in (es1 ++ es2) i → accepts F i = false) →
  node_instance x = Some instance →
  accepts F instance = true →
  loadInstances_loop None F (es1 ++ (id, x) :: es2) = Ok [instance].
Proof.
  intros Hread Hrej Hx Hacc.
  induction es1 as [|[n y] es1 IH]; simpl.
  - unfold node_instance in Hx.
    destruct (ioutil_ReadFile_info x) as [data|e]; [|done].
    destruct (json_Unmarshal data) as [i0|e]; [|done].
    injection Hx as ->. rewrite (loadInstances_loop_nobody F es2 Hread Hrej).
    fold (accepts F instance). by rewrite Hacc.
  - destruct (Hread n y (list_elem_of_here _ _)) as [i Hi].
    assert (Hacci : accepts F i = false).
    { apply Hrej. exists n, y. split; [apply list_elem_of_here|done]. }
    unfold node_instance in Hi.
    destruct (ioutil_ReadFile_info y) as [data|e]; [|done].
    destruct (json_Unmarshal data) as [i0|e]; [|done].
    injection Hi as ->. rewrite IH.
    + fold (accepts F i). by rewrite Hacci.
    + intros m z Hin. apply (Hread m z). by apply list_elem_of_further.
    + intros j (m & z & Hin & Hz). apply Hrej. exists m, z.
      split; [by apply list_elem_of_further|done].
Qed.

Lemma entries_ins_split name x es :
  ∃ es1 es2, es = es1 ++ es2 ∧ entries_ins name x es = es1 ++ (name, x) :: es2.
Proof.
  induction es as [|[n y] es IH]; simpl.
  - by exists [], [].
  - destruct (String.ltb name n).
    + by exists [], ((n, y) :: es).
    + destruct IH as (es1 & es2 & -> & ->). by exists ((n, y) :: es1), es2.
Qed.

Lemma Stop_running w this :
  (GetStatus w this).1 = StatusRunning →
  ∃ p, procs w !! Pid this = Some p
    ∧ Stop w this =
        (log_event (if bool_decide (SignalInt ∈ proc_fatal p)
                    then set_procs w (delete (Pid this) (procs w)) else w)
           (EvSignal (Pid this) SignalInt), None).
Proof.
  rewrite GetStatus_running. intros (Hu & p & Hp & He). exists p. split; [done|].
  rewrite Stop_send. unfold send, os_FindProcess, proc_Signal. rewrite Hu, Hp, He.
  rewrite (bool_decide_eq_false_2 (SignalInt = 0)) by done.
  by case_bool_decide.
Qed.

Lemma not_running_mono w w1 this :
  procs w1 ⊆ procs w → unopenable w1 = unopenable w →
  (GetStatus w this).1 ≠ StatusRunning → (GetStatus w1 this).1 ≠ StatusRunning.
Proof.
  intros Hsub Hu Hn Hr. apply Hn. apply GetStatus_running.
  apply GetStatus_running in Hr as (Hu1 & p & Hp & He).
  split; [congruence|]. exists p. split; [|done].
  by apply (lookup_weaken _ _ _ _ Hp).
Qed.

Lemma Start_stopRunning_trace instances : ∀ w w1,
  Start_stopRunning w instances = (w1, None) →
  ∃ sigs,
    trace w1 = trace w ++ sigs
    ∧ (∀ ev, ev ∈ sigs → ∃ i, i ∈ instances ∧ ev = EvSignal (Pid i) SignalInt)
    ∧ (∀ i, i ∈ instances → (GetStatus w i).1 = StatusRunning →
            EvSignal (Pid i) SignalInt ∈ sigs).
Proof.
  induction instances as [|i0 l IH]; intros w w1; simpl.
  - intros [= <-]. exists []. rewrite app_nil_r. split; [done|].
    split; intros ? H; by apply elem_of_nil in H.
  - destruct (GetStatus w i0) as [st [err|]] eqn:Hst; [done|].
    case_bool_decide as Hrun.
    + assert (Hrun' : (GetStatus w i0).1 = StatusRunning) by (by rewrite Hst).
      destruct (Stop_running _ _ Hrun') as (p & Hp & ->).
      set (w' := log_event _ _). intros Hloop.
      destruct (IH w' w1 Hloop) as (sigs & Htr & Hfrom & Hall).
      exists (EvSignal (Pid i0) SignalInt :: sigs). split; [|split].
      * rewrite Htr. unfold w'.
        destruct (bool_decide (SignalInt ∈ proc_fatal p)); simpl;
          by rewrite <- app_assoc.
      * intros ev Hev. apply elem_of_cons in Hev as [->|Hev].
        -- exists i0. split; [apply list_elem_of_here|done].
        -- destruct (Hfrom ev Hev) as (i & Hi & ->). exists i.
           split; [by apply list_elem_of_further|done].
      * intros i Hi Hr. apply elem_of_cons in Hi as [->|Hi];
          [apply list_elem_of_here|].
        destruct (decide (Pid i = Pid i0)) as [->|Hne]; [apply list_elem_of_here|].
        apply list_elem_of_further, Hall; [done|].
        apply GetStatus_running. apply GetStatus_running in Hr as (Hu & q & Hq & He).
        split; [by destruct (bool_decide (SignalInt ∈ proc_fatal p))|].
        exists q. split; [|done]. unfold w'.
        destruct (bool_decide (SignalInt ∈ proc_fatal p)); simpl; [|done].
        by rewrite lookup_delete_ne.
    + intros Hloop. destruct (IH w w1 Hloop) as (sigs & Htr & Hfrom & Hall).
      exists sigs. split; [done|]. split.
      * intros ev Hev. destruct (Hfrom ev Hev) as (i & Hi & ->). exists i.
        split; [by apply list_elem_of_further|done].
      * intros i Hi Hr. apply elem_of_cons in Hi as [->|Hi]; [|auto].
        rewrite Hst in Hr. done.
Qed.

Lemma Start_stopRunning_stopped instances : ∀ w w1,
  Start_stopRunning w instances = (w1, None) →
  (∀ i p, i ∈ instances → procs w !! Pid i = Some p → SignalInt ∈ proc_fatal p) →
  procs w1 ⊆ procs w
  ∧ ∀ i, i ∈ instances → (GetStatus w1 i).1 ≠ StatusRunning.
Proof.
  induction instances as [|i0 l IH]; intros w w1; simpl.
  - intros [= <-] _. split; [done|]. intros ? H. by apply elem_of_nil in H.
  - destruct (GetStatus w i0) as [st [err|]] eqn:Hst; [done|].
    case_bool_decide as Hrun.
    + assert (Hrun' : (GetStatus w i0).1 = StatusRunning) by (by rewrite Hst).
      destruct (Stop_running _ _ Hrun') as (p & Hp & ->).
      intros Hloop Hfatal.
      rewrite bool_decide_eq_true_2 in Hloop
        by (apply (Hfatal i0 p); [apply list_elem_of_here|done]).
      destruct (IH _ w1 Hloop) as [Hsub Hstopped].
      { simpl. intros i q Hi Hq. apply (Hfatal i q); [by apply list_elem_of_further|].
        by apply (lookup_weaken _ _ _ _ Hq), delete_subseteq. }
      simpl in Hsub. split.
      * etrans; [exact Hsub|apply delete_subseteq].
      * intros i Hi. apply elem_of_cons in Hi as [->|Hi]; [|auto].
        rewrite GetStatus_running. intros (_ & q & Hq & _).
        pose proof (lookup_weaken _ _ _ _ Hq Hsub) as Hq'.
        by rewrite lookup_delete_eq in Hq'.
    + intros Hloop Hfatal.
      destruct (IH w w1 Hloop) as [Hsub Hstopped].
      { intros i q Hi. apply Hfatal. by apply list_elem_of_further. }
      split; [done|].
      intros i Hi. apply elem_of_cons in Hi as [->|Hi]; [|auto].
      apply (not_running_mono w); [done| |by rewrite Hst].
      by destruct (Start_stopRunning_frame l w) as [_ Hu]; rewrite Hloop in Hu.
Qed.

Lemma loadInstances_Ok_inv w F instances :
  loadInstances w None F = Ok instances →
  (∀ n x, (n, x) ∈ root_entries (store w) → is_Some (node_instance x))
  ∧ ∀ i, i ∈ instances ↔ stored w i ∧ accepts F i = true.
Proof.
  unfold loadInstances, stored. destruct (store w) as [|err|es]; simpl; [|done|].
  - intros [= <-]. split.
    + intros ?? H. by apply elem_of_nil in H.
    + intros i. split; [intros H; by apply elem_of_nil in H|].
      intros [(? & ? & H & _) _]. by apply elem_of_nil in H.
  - apply loadInstances_loop_Ok_inv.
Qed.

Lemma Start_singleton_on this w name options w1 :
  Singleton options = true →
  name_settled this name →
  Start_singleton this w name options = (w1, None) →
  ∃ instances,
    loadInstances w None (Some (λ instance, bool_decide (Name instance = name)))
      = Ok instances
    ∧ Start_stopRunning w instances = (w1, None).
Proof.
  unfold Start_singleton, GetInstancesByName, name_settled. intros -> Hset.
  destruct (Apps_get this name) as [appSpec|]; [rewrite Hset|];
    (destruct (loadInstances w None _) as [instances|e]; [|done]);
    intros Hloop; by exists instances.
Qed.

Lemma send_procs_sub sig w this : procs (send sig w this).1 ⊆ procs w.
Proof.
  unfold send. destruct (os_FindProcess w (Pid this)); [done|]. simpl.
  unfold proc_Signal. destruct (procs w !! Pid this) as [p|];
    [|by repeat case_bool_decide].
  destruct (proc_sigerr p); [done|].
  repeat case_bool_decide; simpl; try done. apply delete_subseteq.
Qed.

Lemma Start_stopRunning_procs_sub instances : ∀ w,
  procs (Start_stopRunning w instances).1 ⊆ procs w.
Proof.
  induction instances as [|i l IH]; intros w; simpl; [done|].
  destruct (GetStatus w i) as [st [err|]]; [done|].
  case_bool_decide; [|apply IH].
  rewrite Stop_send. pose proof (send_procs_sub SignalInt w i) as Hsub.
  destruct (send SignalInt w i) as [w1 [err|]]; simpl in *; [done|].
  etrans; [apply IH|done].
Qed.

Lemma Start_singleton_procs_sub this w name options :
  procs (Start_singleton this w name options).1 ⊆ procs w.
Proof.
  unfold Start_singleton. destruct (Singleton options); [|done].
  destruct (GetInstancesByName this w name); [|done].
  apply Start_stopRunning_procs_sub.
Qed.

Lemma stored_in_ins name x es instance :
  stored_in (entries_ins name x es) instance →
  node_instance x = Some instance ∨ stored_in es instance.
Proof.
  destruct (entries_ins_split name x es) as (es1 & es2 & -> & ->).
  intros (n & y & Hin & Hy).
  apply elem_of_app in Hin as [Hin|Hin].
  - right. exists n, y. split; [|done]. apply elem_of_app. by left.
  - apply elem_of_cons in Hin as [[= -> ->]|Hin]; [by left|].
    right. exists n, y. split; [|done]. apply elem_of_app. by right.
Qed.

(** After a start whose process ends on the interrupt signal, the processes
    of the stored instances of a name still all end on it. *)
Lemma interrupt_ends_after_Start this w0 env0 name command options w first rn :
  Start this w0 env0 name command options = Some (w, Ok first) →
  (∀ p0, env_launch env0 = Ok (Pid first, p0) → SignalInt ∈ proc_fatal p0) →
  interrupt_ends w0 rn →
  interrupt_ends w rn.
Proof.
  intros HStart Hp0 Hends0.
  destruct (Start_Ok_inv _ _ _ _ _ _ _ _ HStart)
    as (w1 & p0 & _ & Hsing & _ & Hlaunch & _ & ->).
  pose proof (Start_singleton_procs_sub this w0
                (Start_applySpec this name command options).1.1
                (Start_applySpec this name command options).2) as Hsub.
  pose proof (Start_singleton_frame this w0
                (Start_applySpec this name command options).1.1
                (Start_applySpec this name command options).2) as [Hst _].
  rewrite Hsing in Hsub, Hst. simpl in Hsub, Hst.
  intros i q Hs Hn Hq. unfold stored in Hs. simpl in Hs, Hq.
  destruct (decide (Pid first = Pid i)) as [Heq|Hne].
  - rewrite Heq, lookup_insert_eq in Hq. injection Hq as <-. by apply Hp0.
  - rewrite lookup_insert_ne in Hq by done.
    apply stored_in_ins in Hs as [Hs|Hs].
    + injection Hs as <-. done.
    + apply (Hends0 i q); [|done|by apply (lookup_weaken _ _ _ _ Hq)].
      unfold stored. by rewrite <- Hst.
Qed.

(** C1, as it stands, fails for a process that the interrupt signal does
    not end: Stop delivers the signal and returns, the second start goes
    on, and both instances of the singleton app are Running. *)
Lemma C1_two_running_instances_of_a_singleton :
  ∃ w1 i1 w2 i2,
    Start echo_runner world_empty (env_ok id_bytes_1 812 proc_stubborn)
      "echo" "" caller_options = Some (w1, Ok i1)
    ∧ Start echo_runner w1 (env_ok id_bytes_2 813 proc_stubborn)
        "echo" "" caller_options = Some (w2, Ok i2)
    ∧ Singleton (Options i1) = true ∧ Singleton (Options i2) = true
    ∧ EvSignal 812 SignalInt ∈ trace w2
    ∧ GetRunningInstancesByName echo_runner w2 "echo" = Ok [i1; i2].
Proof.
  eexists _, _, _, _. split; [reflexivity|]. split; [reflexivity|].
  split; [reflexivity|]. split; [reflexivity|]. split; [|reflexivity].
  apply list_elem_of_further, list_elem_of_here.
Qed.

(** C1, amended: a Start of a singleton app that succeeds has, before it
    launched the new process, delivered the interrupt signal to the process
    of every instance that is stored under the resolved name and was
    Running, and to no other process; the resolved name is taken not to be
    the key of a spec with another Name. Stop does not wait, so what
    follows depends on the processes: if each of them ends on the interrupt
    signal, and the new process is alive under a pid that no stored record
    of that name carries, then after the Start (in particular after the
    second of two in sequence) exactly one instance of the name is Running,
    the one just returned. *)
Theorem C1_singleton_Start_stops_then_launches :
  ∀ (this : AppRunner) (w : World) (env : StartEnv) (name command : string)
    (options : AppStartOptions) (w' : World) (instance : AppInstance),
    Start this w env name command options = Some (w', Ok instance) →
    Singleton (Options instance) = true →
    name_settled this (Name instance) →
    (∃ sigs,
       trace w' = trace w ++ sigs
                    ++ [EvExec (Command instance) (Args (Options instance))
                          (WorkDir (Options instance)) (Background (Options instance))
                          (Pid instance)]
       ∧ (∀ ev, ev ∈ sigs →
            ∃ old, stored w old ∧ Name old = Name instance
                   ∧ ev = EvSignal (Pid old) SignalInt)
       ∧ (∀ old, stored w old → Name old = Name instance →
            (GetStatus w old).1 = StatusRunning →
            EvSignal (Pid old) SignalInt ∈ sigs))
    ∧ (interrupt_ends w (Name instance) →
       (∀ old, stored w old → Name old = Name instance → Pid old ≠ Pid instance) →
       (∀ p, env_launch env = Ok (Pid instance, p) → proc_sigerr p = None) →
       unopenable w !! Pid instance = None →
       GetRunningInstancesByName this w' (Name instance) = Ok [instance])
    ∧ (∀ (w0 : World) (env0 : StartEnv) (first : AppInstance),
         Start this w0 env0 name command options = Some (w, Ok first) →
         (∀ p0, env_launch env0 = Ok (Pid first, p0) → SignalInt ∈ proc_fatal p0) →
         interrupt_ends w0 (Name instance) →
         (∀ old, stored w old → Name old = Name instance → Pid old ≠ Pid instance) →
         (∀ p, env_launch env = Ok (Pid instance, p) → proc_sigerr p = None) →
         unopenable w !! Pid instance = None →
         GetRunningInstancesByName this w' (Name instance) = Ok [instance]).
Proof.
  intros this w env name command options w' instance HStart Hsingle Hset.
  destruct (Start_Ok_inv _ _ _ _ _ _ _ _ HStart)
    as (w1 & p & _ & Hsing & Hid & Hlaunch & Hi & ->).
  set (rs := Start_applySpec this name command options) in *.
  assert (Hname : Name instance = rs.1.1) by (by rewrite Hi).
  assert (Hopts : Options instance = rs.2) by (by rewrite Hi).
  rewrite <- Hname, <- Hopts in Hsing.
  destruct (Start_singleton_on _ _ _ _ _ Hsingle Hset Hsing)
    as (instances & Hload & Hloop).
  destruct (loadInstances_Ok_inv _ _ _ Hload) as [Hread Hmem].
  assert (Hmem' : ∀ i, i ∈ instances ↔ stored w i ∧ Name i = Name instance).
  { intros i. rewrite Hmem. simpl. by rewrite bool_decide_eq_true. }
  destruct (Start_stopRunning_frame instances w) as [Hstore Hunop].
  rewrite Hloop in Hstore, Hunop. simpl in Hstore, Hunop.
  split.
  - destruct (Start_stopRunning_trace _ _ _ Hloop) as (sigs & Htr & Hfrom & Hall).
    exists sigs. split; [|split].
    + simpl. rewrite Htr. by rewrite <- app_assoc.
    + intros ev Hev. destruct (Hfrom ev Hev) as (i & Hin & ->).
      apply Hmem' in Hin as [Hs Hn]. by exists i.
    + intros old Hs Hn Hr. apply Hall; [|done]. by apply Hmem'.
  - assert (Hone :
      interrupt_ends w (Name instance) →
      (∀ old, stored w old → Name old = Name instance → Pid old ≠ Pid instance) →
      (∀ p, env_launch env = Ok (Pid instance, p) → proc_sigerr p = None) →
      unopenable w !! Pid instance = None →
      GetRunningInstancesByName this (started_world w1 instance p) (Name instance)
      = Ok [instance]); [|split; [exact Hone|]].
    2:{ intros w0 env0 first HStart0 Hp0 Hends0. apply Hone.
        by apply (interrupt_ends_after_Start _ _ _ _ _ _ _ _ _ HStart0). }
    intros Hends Hfresh Halive Hopen.
    destruct (Start_stopRunning_stopped _ _ _ Hloop) as [Hsub Hstopped].
    { intros i q Hin Hq. apply Hmem' in Hin as [Hs Hn]. by apply (Hends i q). }
    unfold GetRunningInstancesByName, loadInstances.
    assert (Hn' : match Apps_get this (Name instance) with
                  | Some appSpec => Spec.Name appSpec
                  | None => Name instance
                  end = Name instance).
    { unfold name_settled in Hset. by destruct (Apps_get this (Name instance)). }
    rewrite Hn'. simpl. rewrite Hstore.
    destruct (entries_ins_split (ID instance) (Dir (started_dir instance))
                (root_entries (store w))) as (es1 & es2 & Hes & ->).
    apply loadInstances_loop_only.
    + rewrite <- Hes. exact Hread.
    + rewrite <- Hes. intros i Hs. simpl.
      case_bool_decide as Hn; [|done].
      apply bool_decide_eq_false_2. intros Hr.
      apply (Hstopped i); [by apply Hmem'|].
      apply GetStatus_running. apply GetStatus_running in Hr as (Hu & q & Hq & He).
      simpl in Hu, Hq. split; [done|]. exists q. split; [|done].
      rewrite lookup_insert_ne in Hq; [done|].
      intros Heq. by apply (Hfresh i Hs Hn).
    + reflexivity.
    + simpl. rewrite bool_decide_eq_true_2 by done.
      apply bool_decide_eq_true_2. apply GetStatus_running. simpl.
      split; [by rewrite Hunop|]. exists p. split; [by rewrite lookup_insert_eq|].
      by apply Halive.
Qed.

Lemma C1_singleton_Start_stops_then_launches_witness :
  ∃ w2 i2,
    Start echo_runner world_after_start (env_ok id_bytes_2 813 proc_plain)
      "echo" "" caller_options = Some (w2, Ok i2)
    ∧ GetRunningInstancesByName echo_runner w2 (Name i2) = Ok [i2]
    ∧ Pid i2 = 813.
Proof.
  eexists _, _. split; [reflexivity|]. split; [|reflexivity].
  refine (proj1 (proj2 (C1_singleton_Start_stops_then_launches echo_runner
                   world_after_start (env_ok id_bytes_2 813 proc_plain) "echo" ""
                   caller_options _ _ eq_refl eq_refl eq_refl)) _ _ _ eq_refl).
  - intros instance p (n & x & Hin & Hx) _.
    apply elem_of_cons in Hin as [[= -> ->]|Hin]; [|by apply elem_of_nil in Hin].
    injection Hx as <-. vm_compute. intros [= <-].
    apply list_elem_of_here.
  - intros old (n & x & Hin & Hx) _.
    apply elem_of_cons in Hin as [[= -> ->]|Hin]; [|by apply elem_of_nil in Hin].
    injection Hx as <-. discriminate.
  - intros p [= <-]. reflexivity.
Defined.

(** ** The store invariant *)

Lemma store_ok_empty : store_ok world_empty.
Proof.
  split; [apply NoDup_nil_2|]. intros ??? H. by apply elem_of_nil in H.
Qed.

Lemma entries_ins_ok id x es :
  NoDup es.*1 →
  (∀ name node instance,
     (name, node) ∈ es → node_instance node = Some instance → ID instance = name) →
  entries_get id es = None →
  (∀ instance, node_instance x = Some instance → ID instance = id) →
  NoDup (entries_ins id x es).*1
  ∧ ∀ name node instance,
      (name, node) ∈ entries_ins id x es →
      node_instance node = Some instance → ID instance = name.
Proof.
  intros Hnd Hid Hget Hx.
  destruct (entries_ins_split id x es) as (es1 & es2 & Hes & ->).
  rewrite Hes in Hnd, Hid, Hget. apply entries_get_None in Hget.
  rewrite fmap_app in Hnd, Hget. rewrite fmap_app, fmap_cons. simpl.
  apply NoDup_app in Hnd as (Hd1 & Hdis & Hd2).
  apply not_elem_of_app in Hget as [Hg1 Hg2]. split.
  - apply NoDup_app. split; [done|]. split.
    + intros y Hy Hy'. apply elem_of_cons in Hy' as [->|Hy']; [done|].
      by apply (Hdis y).
    + apply NoDup_cons. by split.
  - intros n y i Hin Hy. apply elem_of_app in Hin as [Hin|Hin].
    + apply (Hid n y i); [|done]. apply elem_of_app. by left.
    + apply elem_of_cons in Hin as [[= -> ->]|Hin].
      * by apply Hx.
      * apply (Hid n y i); [|done]. apply elem_of_app. by right.
Qed.

(** [store_ok] is kept by Start, whatever it returns: the only entry it
    adds is the directory of the fresh id, with the record of that id or,
    when Start fails and the removal of the directory fails too, with no
    record. *)
Lemma Start_preserves_store_ok this w env name command options w' r :
  Start this w env name command options = Some (w', r) →
  store_ok w → store_ok w'.
Proof.
  intros HStart [Hnd Hid]. destruct r as [instance|err].
  - destruct (Start_Ok_inv _ _ _ _ _ _ _ _ HStart)
      as (w1 & p & _ & Hsing & Hfree & _ & _ & ->).
    pose proof (Start_singleton_frame this w
                  (Start_applySpec this name command options).1.1
                  (Start_applySpec this name command options).2) as [Hs _].
    rewrite Hsing in Hs. simpl in Hs.
    destruct (os_Stat_NotExist _ _ (getNextRandomID_free _ _ _ Hfree)) as [Hget _].
    rewrite Hs in Hget. unfold store_ok. simpl. rewrite Hs.
    apply entries_ins_ok; try done. by intros i [= <-].
  - destruct (Start_Err_inv _ _ _ _ _ _ _ _ HStart)
      as (_ & [He|(_ & id & d & Hfree & Hinfo & He)]);
      unfold store_ok; rewrite He; [done|].
    apply entries_ins_ok; try done.
    intros i. unfold node_instance. simpl. by rewrite Hinfo.
Qed.

(** * Further properties of the runner *)

(** ** Reading back what Start wrote *)

Lemma loadInstances_loop_app idF F es1 es2 :
  loadInstances_loop idF F (es1 ++ es2) =
  match loadInstances_loop idF F es1 with
  | Err e => Err e
  | Ok l1 =>
      match loadInstances_loop idF F es2 with
      | Err e => Err e
      | Ok l2 => Ok (l1 ++ l2)
      end
  end.
Proof.
  induction es1 as [|[n x] es1 IH]; simpl.
  - by destruct (loadInstances_loop idF F es2).
  - destruct (match idF with Some f => negb (f n) | None => false end); [done|].
    destruct (ioutil_ReadFile_info x) as [data|e]; [|done].
    destruct (json_Unmarshal data) as [i|e]; [|done].
    rewrite IH.
    destruct (loadInstances_loop idF F es1) as [l1|e]; [|done].
    destruct (match F with Some f => f i | None => true end);
      by destruct (loadInstances_loop idF F es2).
Qed.

Lemma loadInstances_loop_other_ids id F es :
  id ∉ es.*1 →
  loadInstances_loop (Some (λ _id, bool_decide (_id = id))) F es = Ok [].
Proof.
  induction es as [|[n x] es IH]; simpl; [done|].
  intros Hn. apply not_elem_of_cons in Hn as [Hne Hn].
  rewrite bool_decide_eq_false_2 by done. simpl. auto.
Qed.

(** The store a successful Start leaves is the old one with the new
    directory put in, under a name the old one did not have. *)
Lemma Start_Ok_entries this w env name command options w' instance :
  Start this w env name command options = Some (w', Ok instance) →
  store w' = RootDir (entries_ins (ID instance) (Dir (started_dir instance))
                        (root_entries (store w)))
  ∧ (ID instance ∉ (root_entries (store w)).*1)
  ∧ ∀ err, store w ≠ BadRoot err.
Proof.
  intros HStart.
  destruct (Start_Ok_inv _ _ _ _ _ _ _ _ HStart)
    as (w1 & p & _ & Hsing & Hid & _ & _ & ->).
  pose proof (Start_singleton_frame this w
                (Start_applySpec this name command options).1.1
                (Start_applySpec this name command options).2) as [Hs _].
  rewrite Hsing in Hs. simpl in Hs.
  pose proof (getNextRandomID_free _ _ _ Hid) as Hfree.
  destruct (os_Stat_NotExist _ _ Hfree) as [Hget _].
  rewrite Hs in Hget. simpl. rewrite Hs. split; [done|].
  split; [by apply entries_get_None|].
  intros err Hbad. unfold os_Stat in Hfree. by rewrite Hs, Hbad in Hfree.
Qed.

Lemma GetInstance_after_Start this w env name command options w' instance :
  Start this w env name command options = Some (w', Ok instance) →
  GetInstance w' (ID instance) = Ok (Some instance).
Proof.
  intros HStart.
  destruct (Start_Ok_entries _ _ _ _ _ _ _ _ HStart) as (Hst & Hfree & _).
  unfold GetInstance, loadInstances. rewrite Hst.
  destruct (entries_ins_split (ID instance) (Dir (started_dir instance))
              (root_entries (store w))) as (es1 & es2 & Hes & ->).
  rewrite Hes, fmap_app in Hfree. apply not_elem_of_app in Hfree as [H1 H2].
  rewrite loadInstances_loop_app, (loadInstances_loop_other_ids _ _ _ H1).
  simpl. rewrite bool_decide_eq_true_2 by done. simpl.
  by rewrite (loadInstances_loop_other_ids _ _ _ H2).
Qed.

(** The place at which [entries_ins] puts a name: after the entries it
    passes, none of which has a greater name, and before the first entry
    whose name is greater. *)
Lemma entries_ins_place name x es :
  ∃ es1 es2,
    es = es1 ++ es2
    ∧ entries_ins name x es = es1 ++ (name, x) :: es2
    ∧ (∀ e, e ∈ es1 → String.ltb name e.1 = false)
    ∧ match es2 with
      | [] => True
      | e :: _ => String.ltb name e.1 = true
      end.
Proof.
  induction es as [|[n y] es IH]; simpl.
  - exists [], []. do 2 (split; [done|]). split; [|done].
    intros e He. by apply elem_of_nil in He.
  - destruct (String.ltb name n) eqn:Hlt.
    + exists [], ((n, y) :: es). do 2 (split; [done|]). split; [|done].
      intros e He. by apply elem_of_nil in He.
    + destruct IH as (es1 & es2 & -> & -> & Hle & Hgt).
      exists ((n, y) :: es1), es2. do 2 (split; [done|]). split; [|done].
      intros e He. apply elem_of_cons in He as [->|He]; [done|auto].
Qed.

(** X2: after a successful Start the root has its former entries and the
    new directory, which stands after the entries it was compared with, none
    of which has a name greater than the new ID, and before the first entry
    whose name is greater; the full listing is the former listing with the
    new record put in between the records of these two parts; and a listing
    that failed before the Start fails after it with the same error. *)
Theorem Start_then_List_adds_the_record :
  ∀ (this : AppRunner) (w : World) (env : StartEnv) (name command : string)
    (options : AppStartOptions) (w' : World) (instance : AppInstance),
    Start this w env name command options = Some (w', Ok instance) →
    ∃ es1 es2,
      root_entries (store w) = es1 ++ es2
      ∧ root_entries (store w')
        = es1 ++ (ID instance, Dir (started_dir instance)) :: es2
      ∧ (∀ e, e ∈ es1 → String.ltb (ID instance) e.1 = false)
      ∧ match es2 with
        | [] => True
        | e :: _ => String.ltb (ID instance) e.1 = true
        end
      ∧ match List w false with
        | Ok instances =>
            ∃ before after,
              loadInstances_loop None None es1 = Ok before
              ∧ loadInstances_loop None None es2 = Ok after
              ∧ instances = before ++ after
              ∧ List w' false = Ok (before ++ instance :: after)
        | Err e => List w' false = Err e
        end.
Proof.
  intros this w env name command options w' instance HStart.
  destruct (Start_Ok_entries _ _ _ _ _ _ _ _ HStart) as (Hst & _ & Hroot).
  destruct (entries_ins_place (ID instance) (Dir (started_dir instance))
              (root_entries (store w))) as (es1 & es2 & Hes & Hins & Hle & Hgt).
  exists es1, es2. rewrite Hst. simpl. do 4 (split; [done|]).
  unfold List, loadInstances. simpl. rewrite Hst, Hins.
  assert (Hold : match store w with
                 | NoRoot => Ok []
                 | BadRoot err => Err err
                 | RootDir infos => loadInstances_loop None None infos
                 end = loadInstances_loop None None (es1 ++ es2)).
  { rewrite <- Hes. destruct (store w) as [|err|es]; [done| |done].
    by destruct (Hroot err). }
  rewrite Hold, !loadInstances_loop_app. simpl.
  destruct (loadInstances_loop None None es1) as [l1|e]; [|done].
  destruct (loadInstances_loop None None es2) as [l2|e]; [|done].
  by exists l1, l2.
Qed.

Lemma Start_then_List_adds_the_record_witness :
  List world_after_start false = Ok [first_instance].
Proof.
  destruct (Start_then_List_adds_the_record echo_runner world_empty
              (env_ok id_bytes_1 812 proc_plain) "echo" "" caller_options
              world_after_start first_instance eq_refl)
    as (es1 & es2 & _ & _ & _ & _ & H).
  simpl in H. destruct H as (before & after & _ & _ & Hnil & ->).
  symmetry in Hnil. apply app_eq_nil in Hnil as [-> ->]. reflexivity.
Defined.

(** X3: two starts in sequence return different IDs, and both records can
    be read back afterwards. *)
Theorem sequential_Starts_have_distinct_IDs :
  ∀ (this : AppRunner) (w w1 w2 : World) (env1 env2 : StartEnv)
    (name1 command1 name2 command2 : string) (options1 options2 : AppStartOptions)
    (i1 i2 : AppInstance),
    Start this w env1 name1 command1 options1 = Some (w1, Ok i1) →
    Start this w1 env2 name2 command2 options2 = Some (w2, Ok i2) →
    ID i1 ≠ ID i2
    ∧ GetInstance w2 (ID i1) = Ok (Some i1)
    ∧ GetInstance w2 (ID i2) = Ok (Some i2).
Proof.
  intros this w w1 w2 env1 env2 n1 c1 n2 c2 o1 o2 i1 i2 H1 H2.
  destruct (Start_Ok_store _ _ _ _ _ _ _ _ H1) as (_ & Hnew1 & _).
  destruct (Start_Ok_store _ _ _ _ _ _ _ _ H2) as (Hfree2 & _ & _).
  assert (Hne : ID i1 ≠ ID i2).
  { intros Heq. rewrite <- Heq, Hnew1 in Hfree2. done. }
  split; [done|]. split; [|by eapply GetInstance_after_Start].
  pose proof (GetInstance_after_Start _ _ _ _ _ _ _ _ H1) as Hg1.
  destruct (Start_Ok_entries _ _ _ _ _ _ _ _ H2) as (Hst2 & _ & Hroot).
  unfold GetInstance, loadInstances in *. rewrite Hst2.
  destruct (entries_ins_split (ID i2) (Dir (started_dir i2))
              (root_entries (store w1))) as (es1 & es2 & Hes & ->).
  assert (Hold : match store w1 with
                 | NoRoot => Ok []
                 | BadRoot err => Err err
                 | RootDir infos =>
                     loadInstances_loop (Some (λ _id, bool_decide (_id = ID i1))) None infos
                 end = loadInstances_loop (Some (λ _id, bool_decide (_id = ID i1))) None
                         (es1 ++ es2)).
  { rewrite <- Hes. destruct (store w1) as [|err|es]; [done| |done].
    by destruct (Hroot err). }
  rewrite Hold, loadInstances_loop_app in Hg1. rewrite loadInstances_loop_app.
  destruct (loadInstances_loop _ None es1) as [l1|e]; [|done].
  simpl. rewrite bool_decide_eq_false_2 by (intros Heq; by apply Hne). simpl.
  done.
Qed.

Lemma sequential_Starts_have_distinct_IDs_witness :
  ∃ w2 i2,
    Start echo_runner world_after_start (env_ok id_bytes_2 813 proc_plain)
      "echo" "" caller_options = Some (w2, Ok i2)
    ∧ ID first_instance ≠ ID i2
    ∧ GetInstance w2 (ID first_instance) = Ok (Some first_instance).
Proof.
  eexists _, _. split; [reflexivity|].
  pose proof (sequential_Starts_have_distinct_IDs echo_runner world_empty
                world_after_start _ (env_ok id_bytes_1 812 proc_plain)
                (env_ok id_bytes_2 813 proc_plain) "echo" "" "echo" ""
                caller_options caller_options first_instance _ eq_refl eq_refl)
    as (H1 & H2 & _).
  exact (conj H1 H2).
Defined.

(** ** Allocation of the id, again *)

Lemma getNextRandomID_skips w pre draws :
  Forall (collides w) pre →
  getNextRandomID w (pre ++ draws) = getNextRandomID w draws.
Proof.
  induction 1 as [|d pre Hd _ IH]; [done|]. simpl.
  destruct d as [err|idBytes]; [done|]. simpl in Hd.
  by destruct (os_Stat w (hex_EncodeToString idBytes)).
Qed.

(** X4: getNextRandomID passes over the draws whose id is taken and answers
    with the first draw after them: its id when that is free, its error when
    the read failed; when every draw it is given collides it has not
    returned. So one collision costs exactly one more draw. *)
Theorem getNextRandomID_takes_the_first_free_draw :
  ∀ (w : World) (pre rest : list Draw),
    Forall (collides w) pre →
    (∀ idBytes,
       os_Stat w (hex_EncodeToString idBytes) = StatNotExist →
       getNextRandomID w (pre ++ RandBytes idBytes :: rest)
       = Some (Ok (hex_EncodeToString idBytes)))
    ∧ (∀ err, getNextRandomID w (pre ++ RandErr err :: rest) = Some (Err err))
    ∧ getNextRandomID w pre = None.
Proof.
  intros w pre rest Hpre. split; [|split].
  - intros idBytes Hfree. rewrite getNextRandomID_skips by done. simpl.
    by rewrite Hfree.
  - intros err. by rewrite getNextRandomID_skips.
  - rewrite <- (app_nil_r pre). by rewrite getNextRandomID_skips.
Qed.

Lemma getNextRandomID_takes_the_first_free_draw_witness :
  getNextRandomID stale_world [RandBytes id_bytes_1; RandBytes id_bytes_2]
  = Some (Ok second_id).
Proof.
  assert (Hpre : Forall (collides stale_world) [RandBytes id_bytes_1]).
  { constructor; [|constructor]. vm_compute. discriminate. }
  exact (proj1 (getNextRandomID_takes_the_first_free_draw stale_world
                  [RandBytes id_bytes_1] [] Hpre) id_bytes_2 eq_refl).
Defined.

Lemma unhex_hex_byte v rest :
  unhex (String (hex_digit (N.shiftr (Byte.to_N v) 4))
           (String (hex_digit (N.land (Byte.to_N v) 15)) rest))
  = match unhex rest with Some bs => Some (v :: bs) | None => None end.
Proof.
  cbn [unhex].
  assert (H : ∃ h l,
             unhex_digit (hex_digit (N.shiftr (Byte.to_N v) 4)) = Some h
             ∧ unhex_digit (hex_digit (N.land (Byte.to_N v) 15)) = Some l
             ∧ Byte.of_N (16 * h + l) = Some v).
  { destruct v; vm_compute; eexists _, _; repeat split. }
  destruct H as (h & l & -> & -> & Hv).
  destruct (unhex rest); [|done]. by rewrite Hv.
Qed.

Lemma unhex_hex_EncodeToString src : unhex (hex_EncodeToString src) = Some src.
Proof.
  induction src as [|v src IH]; [done|].
  cbn [hex_EncodeToString]. by rewrite unhex_hex_byte, IH.
Qed.

Lemma hex_digit_in_table n : hex_digit n ∈ chars hextable.
Proof.
  unfold hex_digit.
  destruct (String.get (N.to_nat n) hextable) as [c|] eqn:Hc.
  - revert Hc. generalize (N.to_nat n). clear n.
    generalize hextable. intros s. induction s as [|a s IH]; intros k; simpl; [done|].
    destruct k as [|k].
    + intros [= ->]. apply list_elem_of_here.
    + intros Hk. apply list_elem_of_further. by apply (IH k).
  - apply list_elem_of_here.
Qed.

(** X5: the id made from the bytes of a draw has two characters per byte,
    all of them lower-case hex digits, and different bytes give different
    ids. *)
Theorem hex_EncodeToString_is_injective :
  ∀ (src : list Byte.byte),
    String.length (hex_EncodeToString src) = (2 * length src)%nat
    ∧ (∀ c, c ∈ chars (hex_EncodeToString src) → c ∈ chars "0123456789abcdef")
    ∧ ∀ src', hex_EncodeToString src = hex_EncodeToString src' → src = src'.
Proof.
  intros src. split; [|split].
  - induction src as [|v src IH]; [done|]. cbn [hex_EncodeToString String.length length].
    rewrite IH. lia.
  - induction src as [|v src IH]; intros c; cbn [hex_EncodeToString chars].
    + intros H. by apply elem_of_nil in H.
    + intros H. apply elem_of_cons in H as [->|H]; [apply hex_digit_in_table|].
      apply elem_of_cons in H as [->|H]; [apply hex_digit_in_table|]. by apply IH.
  - intros src' Heq. apply (f_equal unhex) in Heq.
    rewrite !unhex_hex_EncodeToString in Heq. by injection Heq.
Qed.

(** ** The spec table, again *)

Lemma loadRunnerSpec_file_unloadable apps file :
  unloadable file → loadRunnerSpec_file apps file = apps.
Proof. by destruct file. Qed.

(** The debug loop of loadRunnerSpec panics exactly when the workspace is
    verbose and the table binds some name to nil. *)
Lemma loadRunnerSpec_debug_false ws apps :
  loadRunnerSpec_debug ws apps = false ↔
  Verbose ws = true ∧ ∃ name, apps !! name = Some None.
Proof.
  unfold loadRunnerSpec_debug. destruct (Verbose ws).
  2: { split; [done|]. by intros [? _]. }
  assert (H : map_fold (λ (name : string) (appSpec : option RunnerAppSpec) completes,
                          match appSpec with
                          | Some _ => completes
                          | None => false
                          end) true apps = false
              ↔ ∃ name, apps !! name = Some None).
  { apply (map_fold_weak_ind
             (λ r (m : gmap string (option RunnerAppSpec)),
                r = false ↔ ∃ name, m !! name = Some None)).
    - split; [done|]. intros [name Hn]. by rewrite lookup_empty in Hn.
    - intros i x m r Hi IH. destruct x as [a|].
      + rewrite IH. split; intros [name Hn].
        * exists name. rewrite lookup_insert_ne; [done|]. intros ->. congruence.
        * destruct (decide (i = name)) as [->|Hne].
          -- by rewrite lookup_insert_eq in Hn.
          -- rewrite lookup_insert_ne in Hn by done. by exists name.
      + split; [|done]. intros _. exists i. by rewrite lookup_insert_eq. }
  rewrite H. split; [by intros ?|by intros [_ ?]].
Qed.

(** X6: New returns an error only for a nil workspace or when the runner
    path of the user directory cannot be had. Otherwise it returns the
    runner with the merged table, unless the workspace is verbose and the
    table binds a name to nil, where the debug loop of loadRunnerSpec
    panics. A spec file that is absent or that the loader rejects never
    makes New fail and adds no app, so with three such files New returns a
    runner whose table is empty; and a name that the project file binds to
    nil has no spec, whatever the earlier files say. *)
Theorem New_tolerates_unloadable_spec_files :
  ∀ (ws : Workspace) (root : string),
    New None (Ok root) = Returned (Err "Require workspace")
    ∧ (∀ err, New (Some ws) (Err err) = Returned (Err err))
    ∧ (New (Some ws) (Ok root) = Panicked ↔
         Verbose ws = true ∧ ∃ name, Apps (loadRunnerSpec ws) !! name = Some None)
    ∧ (New (Some ws) (Ok root) = Panicked
       ∨ New (Some ws) (Ok root) = Returned (Ok (loadRunnerSpec ws)))
    ∧ (unloadable (GlobalSpec ws) → unloadable (UserSpec ws) →
       unloadable (ProjectSpec ws) →
       New (Some ws) (Ok root) = Returned (Ok (loadRunnerSpec ws))
       ∧ Apps (loadRunnerSpec ws) = ∅)
    ∧ (unloadable (ProjectSpec ws) →
       loadRunnerSpec ws
       = loadRunnerSpec {| Verbose := Verbose ws;
                           GlobalSpec := GlobalSpec ws;
                           UserSpec := UserSpec ws;
                           ProjectSpec := SpecLoaded ∅ |})
    ∧ (∀ name, SpecFile_get (ProjectSpec ws) name = Some None →
               Apps_get (loadRunnerSpec ws) name = None).
Proof.
  intros ws root. split; [done|]. split; [done|].
  pose proof (loadRunnerSpec_debug_false ws (Apps (loadRunnerSpec ws))) as Hdebug.
  assert (Hempty : unloadable (GlobalSpec ws) → unloadable (UserSpec ws) →
                   unloadable (ProjectSpec ws) → Apps (loadRunnerSpec ws) = ∅).
  { intros Hg Hu Hp. unfold loadRunnerSpec. simpl.
    by rewrite !loadRunnerSpec_file_unloadable. }
  unfold New.
  destruct (loadRunnerSpec_debug ws (Apps (loadRunnerSpec ws))) eqn:Hd.
  - split; [|split; [by right|split; [|split]]].
    + split; [done|]. intros H. apply Hdebug in H. done.
    + intros Hg Hu Hp. split; [done|]. by apply Hempty.
    + intros Hp. unfold loadRunnerSpec. simpl. f_equal.
      rewrite (loadRunnerSpec_file_unloadable _ (ProjectSpec ws)) by done.
      simpl. by rewrite map_fold_empty.
    + intros name Hn. unfold Apps_get. rewrite loadRunnerSpec_lookup, Hn. done.
  - split; [|split; [by left|split; [|split]]].
    + split; [intros _; by apply Hdebug|done].
    + intros Hg Hu Hp. exfalso.
      destruct (proj1 Hdebug eq_refl) as (_ & name & Hn).
      rewrite (Hempty Hg Hu Hp), lookup_empty in Hn. done.
    + intros Hp. unfold loadRunnerSpec. simpl. f_equal.
      rewrite (loadRunnerSpec_file_unloadable _ (ProjectSpec ws)) by done.
      simpl. by rewrite map_fold_empty.
    + intros name Hn. unfold Apps_get. rewrite loadRunnerSpec_lookup, Hn. done.
Qed.

(** ** The listings and their filters *)

Lemma loadInstances_loop_filter F es :
  loadInstances_loop None F es =
  match loadInstances_loop None None es with
  | Ok l => Ok (filter (λ i, accepts F i = true) l)
  | Err e => Err e
  end.
Proof.
  induction es as [|[n x] es IH]; simpl; [done|].
  destruct (ioutil_ReadFile_info x) as [data|e]; [|done].
  destruct (json_Unmarshal data) as [i|e]; [|done].
  rewrite IH. destruct (loadInstances_loop None None es) as [l|e]; [|done].
  fold (accepts F i). destruct (accepts F i) eqn:Hacc.
  - by rewrite filter_cons_True.
  - rewrite filter_cons_False; [done|]. by rewrite Hacc.
Qed.

Lemma loadInstances_filter w F :
  loadInstances w None F =
  match loadInstances w None None with
  | Ok l => Ok (filter (λ i, accepts F i = true) l)
  | Err e => Err e
  end.
Proof.
  unfold loadInstances. destruct (store w) as [|err|es]; [done..|].
  apply loadInstances_loop_filter.
Qed.

(** X7: List(true) fails exactly when List(false) fails, with the same
    error, and otherwise is the full listing restricted, in the same order,
    to the instances whose status is Running. *)
Theorem List_onlyRunning_filters_the_full_listing :
  ∀ (w : World),
    List w true =
    match List w false with
    | Ok instances => Ok (filter (running w) instances)
    | Err e => Err e
    end.
Proof.
  intros w. unfold List. simpl. rewrite loadInstances_filter.
  destruct (loadInstances w None None) as [l|e]; [|done].
  f_equal. apply list_filter_iff. intros i. simpl. unfold running.
  by rewrite bool_decide_eq_true.
Qed.

(** X8: GetInstancesByName is the full listing restricted to the records
    whose Name is the looked-up name, and GetRunningInstancesByName is
    GetInstancesByName restricted to the Running ones; both fail exactly
    when the full listing fails. *)
Theorem by_name_listings_filter_the_full_listing :
  ∀ (this : AppRunner) (w : World) (name : string),
    GetInstancesByName this w name =
      match List w false with
      | Ok instances =>
          Ok (filter (λ i, Name i = looked_up_name this name) instances)
      | Err e => Err e
      end
    ∧ GetRunningInstancesByName this w name =
        match GetInstancesByName this w name with
        | Ok instances => Ok (filter (running w) instances)
        | Err e => Err e
        end.
Proof.
  intros this w name.
  assert (H1 : GetInstancesByName this w name =
               match List w false with
               | Ok instances =>
                   Ok (filter (λ i, Name i = looked_up_name this name) instances)
               | Err e => Err e
               end).
  { unfold GetInstancesByName, List. simpl. rewrite loadInstances_filter.
    fold (looked_up_name this name).
    destruct (loadInstances w None None) as [l|e]; [|done].
    f_equal. apply list_filter_iff. intros i. simpl. by rewrite bool_decide_eq_true. }
  split; [done|]. rewrite H1.
  unfold GetRunningInstancesByName, List. simpl. rewrite loadInstances_filter.
  fold (looked_up_name this name).
  destruct (loadInstances w None None) as [l|e]; [|done].
  f_equal. rewrite list_filter_filter. apply list_filter_iff. intros i. simpl.
  unfold running. case_bool_decide as Hn.
  - rewrite bool_decide_eq_true. naive_solver.
  - naive_solver.
Qed.

(** ** Looking up, stopping and removing one instance *)

Lemma loadInstances_loop_by_id_nil id es :
  loadInstances_loop (Some (λ _id, bool_decide (_id = id))) None es = Ok [] ↔
  entries_get id es = None.
Proof.
  induction es as [|[n x] es IH]; simpl; [done|].
  case_bool_decide as Hn; simpl; [|done].
  split; [|done].
  destruct (ioutil_ReadFile_info x) as [data|e]; [|done].
  destruct (json_Unmarshal data) as [i|e]; [|done].
  by destruct (loadInstances_loop _ None es).
Qed.

Lemma GetInstance_None_iff w id :
  GetInstance w id = Ok None ↔
  store_get w id = None ∧ ∀ err, store w ≠ BadRoot err.
Proof.
  unfold GetInstance, loadInstances, store_get.
  destruct (store w) as [|err|es]; simpl.
  - done.
  - split; [done|]. intros [_ H]. by destruct (H err).
  - rewrite <- loadInstances_loop_by_id_nil.
    destruct (loadInstances_loop _ None es) as [[|i l]|e]; naive_solver.
Qed.

(** X9: GetInstance answers nil without an error exactly when the root can
    be read (or does not exist) and has no entry called [id]. *)
Theorem GetInstance_nil_iff_no_such_directory :
  ∀ (w : World) (id : string),
    GetInstance w id = Ok None ↔
    store_get w id = None ∧ ∀ err, store w ≠ BadRoot err.
Proof. apply GetInstance_None_iff. Qed.

(** X10: for an id that names no entry of a readable root, AppRunner.Stop
    and Restart return the error "Application instance not found" and leave
    the world as it is: no signal, no removal, no launch. *)
Theorem unknown_id_is_reported_not_found :
  ∀ (this : AppRunner) (w : World) (env : StartEnv) (id : string) (clean : bool),
    store_get w id = None →
    (∀ err, store w ≠ BadRoot err) →
    Stop_by_id w id clean = (w, Some "Application instance not found")
    ∧ Restart this w env id clean = Some (w, Err "Application instance not found").
Proof.
  intros this w env id clean Hget Hroot.
  assert (Hnone : GetInstance w id = Ok None) by (by apply GetInstance_None_iff).
  unfold Stop_by_id, Restart. by rewrite Hnone.
Qed.

Lemma unknown_id_is_reported_not_found_witness :
  Stop_by_id world_after_start second_id true
  = (world_after_start, Some "Application instance not found")
  ∧ Restart echo_runner world_after_start (env_ok id_bytes_2 813 proc_plain)
      second_id true
    = Some (world_after_start, Err "Application instance not found").
Proof.
  apply (unknown_id_is_reported_not_found echo_runner world_after_start
           (env_ok id_bytes_2 813 proc_plain) second_id true); [reflexivity|].
  intros err. discriminate.
Defined.

Lemma path_elements_plain s : "/"%char ∉ chars s → path_elements s = [s].
Proof.
  induction s as [|c s IH]; simpl; [done|].
  intros Hn. apply not_elem_of_cons in Hn as [Hc Hn].
  destruct (Ascii.eqb_spec c "/"); [done|]. by rewrite IH.
Qed.

(** The path of a file name leads to the entry of that name. *)
Lemma path_target_plain id : plain_name id → path_target id = TEntry id.
Proof.
  intros (H0 & H1 & H2 & Hs). unfold path_target.
  rewrite path_elements_plain by done. simpl. unfold path_step.
  by rewrite !bool_decide_eq_false_2 by done.
Qed.

Lemma os_RemoveAll_plain w id :
  plain_name id →
  os_RemoveAll w id =
  match store w with
  | NoRoot => (w, None)
  | BadRoot err => (w, Some err)
  | RootDir es => remove_entry w es id
  end.
Proof.
  intros Hplain. unfold os_RemoveAll, remove_path, remove_target.
  rewrite (path_target_plain _ Hplain).
  destruct (store w) as [|err|es]; [done..|].
  by destruct (entries_get id es).
Qed.

Lemma os_RemoveAll_plain_Ok w name w' :
  plain_name name →
  os_RemoveAll w name = (w', None) →
  store_get w' name = None
  ∧ (∀ other, other ≠ name → store_get w' other = store_get w other)
  ∧ (∀ err, store w' ≠ BadRoot err)
  ∧ procs w' = procs w ∧ unopenable w' = unopenable w ∧ trace w' = trace w.
Proof.
  intros Hplain. rewrite (os_RemoveAll_plain _ _ Hplain). unfold store_get.
  destruct (store w) as [|err|es] eqn:Hs; [|done|].
  - intros [= <-]. by rewrite Hs.
  - intros Hrm. destruct (remove_entry_spec _ _ _ _ Hs Hrm) as (Hs' & Hp & Hu & Ht & _).
    rewrite Hs'. simpl. split; [apply entries_get_remove_eq|].
    split; [intros other Hne; by apply entries_get_remove_ne|]. done.
Qed.

(** X11: for an id that is a file name (not empty, without "/", neither "."
    nor ".."), a removal that succeeded has left no entry under the id and
    has changed no other entry, no process and no trace; asking again for
    the same removal, by RemoveInstance or by Clean, succeeds and changes
    nothing. The empty id is no file name: it is the path of the root
    itself, and its removal takes the root away with every instance. *)
Theorem RemoveInstance_is_idempotent :
  ∀ (w w' : World) (id : string),
    plain_name id →
    RemoveInstance w id = (w', None) →
    store_get w' id = None
    ∧ (∀ other, other ≠ id → store_get w' other = store_get w other)
    ∧ procs w' = procs w ∧ trace w' = trace w
    ∧ RemoveInstance w' id = (w', None)
    ∧ Clean w' id = (w', None)
    ∧ GetInstance w' id = Ok None
    ∧ (∀ (w0 : World) (es : list (string * Node)),
         store w0 = RootDir es → entries_get "" es = None →
         existsb is_locked es = false →
         RemoveInstance w0 "" = (set_store w0 NoRoot, None)).
Proof.
  intros w w' id Hplain Hrm. unfold RemoveInstance, Clean in *.
  destruct (os_RemoveAll_plain_Ok _ _ _ Hplain Hrm) as (Hgone & Hother & Hroot & Hp & _ & Ht).
  do 4 (split; [done|]).
  assert (Hagain : os_RemoveAll w' id = (w', None)).
  { rewrite (os_RemoveAll_plain _ _ Hplain). unfold store_get in Hgone.
    destruct (store w') as [|err|es]; simpl in *; [done|by destruct (Hroot err)|].
    unfold remove_entry. by rewrite Hgone. }
  do 2 (split; [done|]). split; [by apply GetInstance_None_iff|].
  intros w0 es Hs Hget Hl. unfold os_RemoveAll, remove_path. rewrite Hs, Hget.
  simpl. unfold remove_target. by rewrite Hs, Hl.
Qed.

Lemma RemoveInstance_is_idempotent_witness :
  ∃ w', RemoveInstance world_after_start good_id = (w', None)
        ∧ RemoveInstance w' good_id = (w', None)
        ∧ GetInstance w' good_id = Ok None.
Proof.
  eexists. split; [reflexivity|].
  assert (Hplain : plain_name good_id).
  { repeat split; try discriminate.
    apply (bool_decide_unpack (_ ∉ _)). vm_compute. exact I. }
  pose proof (RemoveInstance_is_idempotent world_after_start _ good_id Hplain eq_refl)
    as (_ & _ & _ & _ & H1 & _ & H2 & _).
  exact (conj H1 H2).
Defined.

(** X12: on a store as Start builds it, an AppRunner.Stop that returns nil
    found the record of [id], touched no entry other than that of [id] and
    no pid without a handle; without [clean] the store is as it was, with
    [clean] the entry of [id] is gone and GetInstance answers nil for it. *)
Theorem Stop_by_id_success :
  ∀ (w w' : World) (id : string) (clean : bool),
    store_ok w →
    Stop_by_id w id clean = (w', None) →
    (∃ instance, GetInstance w id = Ok (Some instance) ∧ ID instance = id)
    ∧ (∀ other, other ≠ id → store_get w' other = store_get w other)
    ∧ unopenable w' = unopenable w
    ∧ (if clean
       then store_get w' id = None ∧ GetInstance w' id = Ok None
       else store w' = store w).
Proof.
  intros w w' id clean Hok. unfold Stop_by_id.
  destruct (GetInstance w id) as [[instance|]|e] eqn:Hg; [|done..].
  pose proof (GetInstance_ID _ _ _ Hok Hg) as Hid.
  rewrite Stop_send. pose proof (send_frame SignalInt w instance) as [Hs Hu].
  destruct (send SignalInt w instance) as [w1 [e|]]; [done|]. simpl in Hs, Hu.
  rewrite Hid. intros Hrest. split; [by exists instance|].
  destruct clean.
  - unfold Clean in Hrest.
    destruct (GetInstance_Some _ _ _ Hg) as (node & Hnode & _).
    assert (Hnode1 : store_get w1 id = Some node) by (unfold store_get; by rewrite Hs).
    destruct (os_RemoveAll_listed_get _ _ _ _ Hnode1 Hrest) as (Hgone & Hother).
    destruct (os_RemoveAll_listed _ _ _ _ Hnode1 Hrest) as (Hs' & _ & Hu' & _).
    split; [|split; [congruence|]].
    + intros other Hne. rewrite Hother by done. unfold store_get. by rewrite Hs.
    + split; [done|]. apply GetInstance_None_iff. split; [done|].
      intros err. by rewrite Hs'.
  - injection Hrest as <-. split; [|done].
    intros other _. unfold store_get. by rewrite Hs.
Qed.

Lemma Stop_by_id_success_witness :
  ∃ w', Stop_by_id world_after_start good_id true = (w', None)
        ∧ GetInstance w' good_id = Ok None.
Proof.
  eexists. split; [reflexivity|].
  assert (Hok : store_ok world_after_start).
  { split.
    - apply (bool_decide_unpack (NoDup _)). vm_compute. exact I.
    - simpl. intros name node instance Hin.
      apply elem_of_cons in Hin as [[= -> ->]|Hin]; [by intros [= <-]|].
      by apply elem_of_nil in Hin. }
  pose proof (Stop_by_id_success world_after_start _ good_id true Hok eq_refl)
    as (_ & _ & _ & _ & H).
  exact H.
Defined.

(** X13: stopping with [clean] the instance that a Start has just returned
    brings the entries of the root back to what they were before the
    Start. *)
Theorem Start_then_Stop_clean_restores_the_store :
  ∀ (this : AppRunner) (w : World) (env : StartEnv) (name command : string)
    (options : AppStartOptions) (w' w'' : World) (instance : AppInstance),
    Start this w env name command options = Some (w', Ok instance) →
    Stop_by_id w' (ID instance) true = (w'', None) →
    root_entries (store w'') = root_entries (store w).
Proof.
  intros this w env name command options w' w'' instance HStart.
  destruct (Start_Ok_entries _ _ _ _ _ _ _ _ HStart) as (Hst & Hfree & _).
  unfold Stop_by_id. rewrite (GetInstance_after_Start _ _ _ _ _ _ _ _ HStart).
  rewrite Stop_send. pose proof (send_frame SignalInt w' instance) as [Hs _].
  destruct (send SignalInt w' instance) as [w1 [e|]]; [done|]. simpl in Hs.
  unfold Clean. rewrite <- Hs in Hst.
  rewrite (os_RemoveAll_fresh _ _ _ _ Hst) by (by apply entries_get_None || done).
  by intros [= <-].
Qed.

Lemma Start_then_Stop_clean_restores_the_store_witness :
  ∃ w'', Stop_by_id world_after_start (ID first_instance) true = (w'', None)
         ∧ root_entries (store w'') = root_entries (store world_empty).
Proof.
  eexists. split; [reflexivity|].
  exact (Start_then_Stop_clean_restores_the_store echo_runner world_empty
           (env_ok id_bytes_1 812 proc_plain) "echo" "" caller_options
           world_after_start _ first_instance eq_refl eq_refl).
Defined.

(** ** Start: what it does and what it leaves alone *)

(** X14: when the caller gives no command and the spec of the name, if
    there is one, gives none either, Start returns "Require command" at
    once: nothing is stopped, no id is drawn, nothing is created. *)
Theorem Start_requires_a_command :
  ∀ (this : AppRunner) (w : World) (env : StartEnv) (name : string)
    (options : AppStartOptions),
    match Apps_get this name with
    | Some appSpec => Spec.Command appSpec = ""
    | None => True
    end →
    Start this w env name "" options = Some (w, Err "Require command").
Proof.
  intros this w env name options Hspec. unfold Start, Start_applySpec.
  destruct (Apps_get this name) as [appSpec|]; [|done].
  rewrite Hspec. done.
Qed.

Lemma Start_requires_a_command_witness :
  Start echo_runner world_after_start (env_ok id_bytes_2 813 proc_plain)
    "no-such-app" "" caller_options
  = Some (world_after_start, Err "Require command").
Proof.
  apply (Start_requires_a_command echo_runner world_after_start
           (env_ok id_bytes_2 813 proc_plain) "no-such-app" caller_options).
  exact I.
Defined.

(** X15: a Start that succeeds for an app that is not a singleton sends no
    signal: the world it leaves is the one it found with the new process in
    the process table, the new directory in the store and the launch at the
    end of the trace, and nothing else changed. *)
Theorem Start_without_singleton_only_adds :
  ∀ (this : AppRunner) (w : World) (env : StartEnv) (name command : string)
    (options : AppStartOptions) (w' : World) (instance : AppInstance),
    Start this w env name command options = Some (w', Ok instance) →
    Singleton (Options instance) = false →
    ∃ p, env_launch env = Ok (Pid instance, p)
         ∧ w' = started_world w instance p.
Proof.
  intros this w env name command options w' instance HStart Hsingle.
  destruct (Start_Ok_inv _ _ _ _ _ _ _ _ HStart)
    as (w1 & p & _ & Hsing & _ & Hlaunch & Hi & ->).
  exists p. split; [done|].
  assert (Hopts : Options instance = (Start_applySpec this name command options).2)
    by (by rewrite Hi).
  rewrite <- Hopts in Hsing. unfold Start_singleton in Hsing.
  rewrite Hsingle in Hsing. by injection Hsing as <-.
Qed.

Lemma Start_without_singleton_only_adds_witness :
  ∃ w' instance,
    Start echo_runner world_after_start (env_ok id_bytes_2 813 proc_plain)
      "other" "cat" caller_options = Some (w', Ok instance)
    ∧ w' = started_world world_after_start instance proc_plain.
Proof.
  eexists _, _. split; [reflexivity|].
  destruct (Start_without_singleton_only_adds echo_runner world_after_start
              (env_ok id_bytes_2 813 proc_plain) "other" "cat" caller_options
              _ _ eq_refl eq_refl) as (p & Hl & Hw).
  injection Hl as <-. exact Hw.
Defined.

Lemma Start_Ok_fields this w env name command options w' instance :
  Start this w env name command options = Some (w', Ok instance) →
  Name instance = (Start_applySpec this name command options).1.1
  ∧ Command instance = (Start_applySpec this name command options).1.2
  ∧ Options instance = (Start_applySpec this name command options).2.
Proof.
  intros HStart.
  destruct (Start_Ok_inv _ _ _ _ _ _ _ _ HStart) as (w1 & p & _ & _ & _ & _ & Hi & _).
  by rewrite Hi.
Qed.

(** X16: when the name has a spec, the record of a successful Start carries
    the spec's Name, not the key it was asked under, and is a singleton as
    soon as the caller or the spec says so: a caller cannot switch off the
    singleton flag of a spec. Background and IgnoreSpecArgs are the
    caller's. *)
Theorem Start_records_spec_name_and_singleton :
  ∀ (this : AppRunner) (w : World) (env : StartEnv) (name command : string)
    (options : AppStartOptions) (appSpec : RunnerAppSpec)
    (w' : World) (instance : AppInstance),
    Apps_get this name = Some appSpec →
    Start this w env name command options = Some (w', Ok instance) →
    Name instance = Spec.Name appSpec
    ∧ Singleton (Options instance) = Singleton options || Spec.Singleton appSpec
    ∧ Background (Options instance) = Background options
    ∧ IgnoreSpecArgs (Options instance) = IgnoreSpecArgs options.
Proof.
  intros this w env name command options appSpec w' instance Hget HStart.
  destruct (Start_Ok_fields _ _ _ _ _ _ _ _ HStart) as (Hn & _ & Ho).
  rewrite (Start_applySpec_found _ _ _ _ _ Hget) in Hn, Ho. simpl in Hn.
  by rewrite Hn, Ho.
Qed.

Lemma Start_records_spec_name_and_singleton_witness :
  Name first_instance = "echo" ∧ Singleton (Options first_instance) = true.
Proof.
  pose proof (Start_records_spec_name_and_singleton echo_runner world_empty
                (env_ok id_bytes_1 812 proc_plain) "echo" "" caller_options echo_spec
                world_after_start first_instance eq_refl eq_refl) as (H1 & H2 & _).
  exact (conj H1 H2).
Defined.

(** X17: when the name has no spec (no binding, or a nil one), the record of
    a successful Start carries the name, the command and the options
    exactly as the caller gave them. *)
Theorem Start_without_spec_records_the_call :
  ∀ (this : AppRunner) (w : World) (env : StartEnv) (name command : string)
    (options : AppStartOptions) (w' : World) (instance : AppInstance),
    Apps_get this name = None →
    Start this w env name command options = Some (w', Ok instance) →
    Name instance = name ∧ Command instance = command ∧ Options instance = options.
Proof.
  intros this w env name command options w' instance Hget HStart.
  destruct (Start_Ok_fields _ _ _ _ _ _ _ _ HStart) as (Hn & Hc & Ho).
  unfold Start_applySpec in *. by rewrite Hget in Hn, Hc, Ho.
Qed.

Lemma Start_without_spec_records_the_call_witness :
  ∃ w' instance,
    Start echo_runner world_after_start (env_ok id_bytes_2 813 proc_plain)
      "other" "cat" caller_options = Some (w', Ok instance)
    ∧ Name instance = "other" ∧ Command instance = "cat"
    ∧ Options instance = caller_options.
Proof.
  eexists _, _. split; [reflexivity|].
  exact (Start_without_spec_records_the_call echo_runner world_after_start
           (env_ok id_bytes_2 813 proc_plain) "other" "cat" caller_options
           _ _ eq_refl eq_refl).
Defined.

(** ** Restart and AppRunner.Stop *)

(** X18: Restart is AppRunner.Stop followed by Start: when the stop (and
    the removal, under [clean]) fails, Restart returns that error in the
    world the stop left; otherwise it is the Start, in that world, of the
    name, command and options of the record that was stored under [id]. *)
Theorem Restart_is_Stop_then_Start :
  ∀ (this : AppRunner) (w : World) (env : StartEnv) (id : string) (clean : bool),
    Restart this w env id clean =
    match Stop_by_id w id clean with
    | (w1, Some err) => Some (w1, Err err)
    | (w1, None) =>
        match GetInstance w id with
        | Ok (Some instance) =>
            Start this w1 env (Name instance) (Command instance) (Options instance)
        | _ => None
        end
    end.
Proof.
  intros this w env id clean. unfold Restart, Stop_by_id.
  destruct (GetInstance w id) as [[instance|]|e]; [|done..].
  destruct (Stop w instance) as [w1 [e|]]; [done|].
  destruct clean; [|done].
  by destruct (Clean w1 (ID instance)) as [w2 [e|]].
Qed.

(** ** Start of a singleton app that cannot be sure of the old instances *)

Lemma GetStatus_error w this :
  (GetStatus w this).1 = StatusError ↔
  unopenable w !! Pid this = None
  ∧ ((∃ p e, procs w !! Pid this = Some p ∧ proc_sigerr p = Some e ∧ e ≠ errFinished)
     ∨ (procs w !! Pid this = None ∧ (Pid this = 0 ∨ Pid this = -1))).
Proof.
  unfold GetStatus, os_FindProcess.
  destruct (unopenable w !! Pid this) as [e|]; simpl.
  { split; [done|]. by intros [? _]. }
  destruct (procs w !! Pid this) as [p|] eqn:Hp.
  - unfold proc_Signal. rewrite Hp.
    destruct (proc_sigerr p) as [e|] eqn:He; simpl.
    + case_bool_decide as Hfin; simpl.
      * split; [done|]. intros (_ & [(p' & e' & [= <-] & He' & Hne)|[? _]]); [|done].
        rewrite He in He'. injection He' as <-. done.
      * split; [|done]. intros _. split; [done|]. left. by exists p, e.
    + destruct (bool_decide (0 = 0)); simpl; (split; [done|]);
        intros (_ & [(p' & e' & [= <-] & He' & _)|[? _]]); congruence.
  - rewrite (proc_Signal_absent _ _ _ Hp). simpl.
    destruct (decide (Pid this = 0)) as [H0|H0].
    { rewrite H0. simpl. split; [|done]. intros _. split; [done|]. right. auto. }
    destruct (decide (Pid this = -1)) as [H1|H1].
    { rewrite H1. simpl. split; [|done]. intros _. split; [done|]. right. auto. }
    rewrite (bool_decide_eq_false_2 (Pid this = 0)) by done.
    rewrite (bool_decide_eq_false_2 (Pid this = -1)) by done.
    simpl. split; [done|].
    intros (_ & [(p & e & ? & _)|(_ & [?|?])]); done.
Qed.

Lemma GetStatus_error_cause w this :
  (GetStatus w this).1 = StatusError → ∃ e, (GetStatus w this).2 = Some e.
Proof.
  unfold GetStatus.
  destruct (os_FindProcess w (Pid this)); simpl; [done|].
  destruct (proc_Signal w (Pid this) 0).2 as [e|]; simpl; [|done].
  case_bool_decide; simpl; [done|]. by exists e.
Qed.

(** The status Error of an instance outlasts the stop of another. *)
Lemma GetStatus_error_after_Stop w i0 old w1 r :
  (GetStatus w i0).1 = StatusRunning →
  Stop w i0 = (w1, r) →
  (GetStatus w old).1 = StatusError → (GetStatus w1 old).1 = StatusError.
Proof.
  intros Hrun' HStop Herr.
  destruct (Stop_running _ _ Hrun') as (p & Hp & Heq). rewrite Heq in HStop.
  injection HStop as <- <-.
  apply GetStatus_error.
  apply GetStatus_error in Herr as (Hu & Hcases).
  apply GetStatus_running in Hrun' as (_ & p' & Hp' & He').
  split; [by destruct (bool_decide (SignalInt ∈ proc_fatal p))|].
  destruct Hcases as [(q & e & Hq & He & Hfin)|(Hq & Hpid)].
  - assert (Hpid : Pid i0 ≠ Pid old) by (intros Heq'; congruence).
    left. exists q, e. split; [|done].
    destruct (bool_decide (SignalInt ∈ proc_fatal p)); simpl; [|done].
    by rewrite lookup_delete_ne.
  - right. split; [|done].
    destruct (bool_decide (SignalInt ∈ proc_fatal p)); simpl; [|done].
    apply lookup_delete_None. by right.
Qed.

Lemma send_trace sig w this :
  trace (send sig w this).1 = trace w
  ∨ trace (send sig w this).1 = trace w ++ [EvSignal (Pid this) sig].
Proof.
  unfold send. destruct (os_FindProcess w (Pid this)); [by left|]. simpl.
  unfold proc_Signal. destruct (procs w !! Pid this) as [p|];
    [|left; by repeat case_bool_decide].
  destruct (proc_sigerr p); [by left|].
  repeat case_bool_decide; simpl; auto.
Qed.

Lemma running_mono w w1 this :
  procs w1 ⊆ procs w → unopenable w1 = unopenable w →
  (GetStatus w1 this).1 = StatusRunning → (GetStatus w this).1 = StatusRunning.
Proof.
  intros Hsub Hu Hr. apply GetStatus_running.
  apply GetStatus_running in Hr as (Hu1 & p & Hp & He).
  split; [congruence|]. exists p. split; [|done].
  by apply (lookup_weaken _ _ _ _ Hp).
Qed.

(** The loop over the instances of a singleton app fails when one of them
    is in Error, and then it has delivered the interrupt signal to none but
    instances that come before that one in the list and were Running when
    the loop began. *)
Lemma Start_stopRunning_abort instances : ∀ w old,
  old ∈ instances → (GetStatus w old).1 = StatusError →
  ∃ pre post sigs e,
    instances = pre ++ old :: post
    ∧ (Start_stopRunning w instances).2 = Some e
    ∧ trace (Start_stopRunning w instances).1 = trace w ++ sigs
    ∧ ∀ ev, ev ∈ sigs →
        ∃ i, i ∈ pre ∧ (GetStatus w i).1 = StatusRunning
             ∧ ev = EvSignal (Pid i) SignalInt.
Proof.
  induction instances as [|i0 l IH]; intros w old Hin Herr.
  { by apply elem_of_nil in Hin. }
  simpl. destruct (GetStatus w i0) as [st [err|]] eqn:Hst.
  { destruct (list_elem_of_split _ _ Hin) as (pre & post & Hsplit).
    eexists pre, post, [], _. rewrite app_nil_r. split; [done|].
    split; [reflexivity|]. split; [done|].
    intros ev H. by apply elem_of_nil in H. }
  assert (Hne : old ≠ i0).
  { intros ->. destruct (GetStatus_error_cause _ _ Herr) as [e He].
    by rewrite Hst in He. }
  apply elem_of_cons in Hin as [?|Hin]; [done|].
  case_bool_decide as Hrun.
  2:{ destruct (IH w old Hin Herr) as (pre & post & sigs & e & -> & He & Htr & Hsigs).
      exists (i0 :: pre), post, sigs, e. do 3 (split; [done|]).
      intros ev Hev. destruct (Hsigs ev Hev) as (j & Hj & Hr & ->).
      exists j. split; [by apply list_elem_of_further|done]. }
  assert (Hrun' : (GetStatus w i0).1 = StatusRunning) by (by rewrite Hst).
  pose proof (send_trace SignalInt w i0) as Htr0.
  pose proof (send_procs_sub SignalInt w i0) as Hsub.
  pose proof (send_frame SignalInt w i0) as [_ Hu].
  rewrite <- Stop_send in Htr0, Hsub, Hu.
  destruct (Stop w i0) as [w1 r] eqn:HStop. simpl in Htr0, Hsub, Hu.
  pose proof (GetStatus_error_after_Stop _ _ _ _ _ Hrun' HStop Herr) as Herr1.
  assert (r = None) as ->.
  { destruct (Stop_running _ _ Hrun') as (p & _ & Heq). rewrite Heq in HStop.
    by injection HStop. }
  destruct (IH w1 old Hin Herr1) as (pre & post & sigs & e & -> & He & Htr & Hsigs).
  assert (Hrest : ∀ ev, ev ∈ sigs →
            ∃ j, j ∈ i0 :: pre ∧ (GetStatus w j).1 = StatusRunning
                 ∧ ev = EvSignal (Pid j) SignalInt).
  { intros ev Hev. destruct (Hsigs ev Hev) as (j & Hj & Hr & ->).
    exists j. split; [by apply list_elem_of_further|]. split; [|done].
    by apply (running_mono w w1). }
  destruct Htr0 as [Htr0|Htr0]; rewrite Htr0 in Htr.
  - exists (i0 :: pre), post, sigs, e. done.
  - exists (i0 :: pre), post, (EvSignal (Pid i0) SignalInt :: sigs), e.
    rewrite <- app_assoc in Htr. do 3 (split; [done|]).
    intros ev Hev. apply elem_of_cons in Hev as [->|Hev]; [|auto].
    exists i0. split; [apply list_elem_of_here|done].
Qed.

(** The loop over the instances of a singleton app only delivers the
    interrupt signal, and only to instances of its list that were Running
    when it began. *)
Lemma Start_stopRunning_only_signals instances : ∀ w,
  ∃ sigs, trace (Start_stopRunning w instances).1 = trace w ++ sigs
          ∧ ∀ ev, ev ∈ sigs →
              ∃ i, i ∈ instances ∧ (GetStatus w i).1 = StatusRunning
                   ∧ ev = EvSignal (Pid i) SignalInt.
Proof.
  induction instances as [|i l IH]; intros w; simpl.
  { exists []. rewrite app_nil_r. split; [done|]. intros ev H. by apply elem_of_nil in H. }
  destruct (GetStatus w i) as [st [err|]] eqn:Hst.
  { exists []. rewrite app_nil_r. split; [done|]. intros ev H. by apply elem_of_nil in H. }
  case_bool_decide as Hrun.
  2:{ destruct (IH w) as (sigs & Htr & Hsigs). exists sigs. split; [done|].
      intros ev Hev. destruct (Hsigs ev Hev) as (j & Hj & Hr & ->).
      exists j. split; [by apply list_elem_of_further|done]. }
  assert (Hrun' : (GetStatus w i).1 = StatusRunning) by (by rewrite Hst).
  rewrite Stop_send. pose proof (send_trace SignalInt w i) as Htr.
  pose proof (send_procs_sub SignalInt w i) as Hsub.
  pose proof (send_frame SignalInt w i) as [_ Hu].
  destruct (send SignalInt w i) as [w1 [err|]]; simpl in *.
  - destruct Htr as [->| ->].
    + exists []. rewrite app_nil_r. split; [done|].
      intros ev H. by apply elem_of_nil in H.
    + eexists. split; [done|]. intros ev Hev.
      apply elem_of_cons in Hev as [->|Hev]; [|by apply elem_of_nil in Hev].
      exists i. split; [apply list_elem_of_here|done].
  - destruct (IH w1) as (sigs & -> & Hsigs).
    assert (Hrest : ∀ ev, ev ∈ sigs →
              ∃ j, j ∈ i :: l ∧ (GetStatus w j).1 = StatusRunning
                   ∧ ev = EvSignal (Pid j) SignalInt).
    { intros ev Hev. destruct (Hsigs ev Hev) as (j & Hj & Hr & ->).
      exists j. split; [by apply list_elem_of_further|]. split; [|done].
      by apply (running_mono w w1). }
    destruct Htr as [->| ->]; [by exists sigs|].
    exists (EvSignal (Pid i) SignalInt :: sigs). rewrite <- app_assoc.
    split; [done|]. intros ev Hev. apply elem_of_cons in Hev as [->|Hev]; [|auto].
    exists i. split; [apply list_elem_of_here|done].
Qed.

Lemma Start_singleton_only_signals this w name options :
  ∃ sigs, trace (Start_singleton this w name options).1 = trace w ++ sigs
          ∧ ∀ ev, ev ∈ sigs →
              ∃ i, stored w i ∧ Name i = looked_up_name this name
                   ∧ (GetStatus w i).1 = StatusRunning
                   ∧ ev = EvSignal (Pid i) SignalInt.
Proof.
  assert (Hnone : ∃ sigs : list Event, trace w = trace w ++ sigs
            ∧ ∀ ev, ev ∈ sigs →
                ∃ i, stored w i ∧ Name i = looked_up_name this name
                     ∧ (GetStatus w i).1 = StatusRunning
                     ∧ ev = EvSignal (Pid i) SignalInt).
  { exists []. rewrite app_nil_r. split; [done|]. intros ev H. by apply elem_of_nil in H. }
  unfold Start_singleton.
  destruct (Singleton options); [|done].
  unfold GetInstancesByName. fold (looked_up_name this name).
  destruct (loadInstances w None _) as [instances|e] eqn:Hload; [|done].
  destruct (Start_stopRunning_only_signals instances w) as (sigs & Htr & Hsigs).
  exists sigs. split; [done|]. intros ev Hev.
  destruct (Hsigs ev Hev) as (i & Hi & Hr & ->).
  apply (loadInstances_Ok_inv _ _ _ Hload) in Hi as [Hst Hacc]. simpl in Hacc.
  exists i. split; [done|]. split; [by apply bool_decide_eq_true_1 in Hacc|done].
Qed.

(** X19: a Start of a singleton app gives up when the status of a stored
    instance of the looked-up name is Error: it returns an error, creates
    no directory and launches nothing. All it may have done is to deliver
    the interrupt signal to stored instances of that name that were Running
    and that the listing gives before the instance in Error, which are the
    only events it adds to the trace; the instance in Error is sent none. *)
Theorem Start_of_singleton_aborts_on_status_error :
  ∀ (this : AppRunner) (w : World) (env : StartEnv) (name command : string)
    (options : AppStartOptions) (old : AppInstance),
    (Start_applySpec this name command options).1.2 ≠ "" →
    Singleton (Start_applySpec this name command options).2 = true →
    stored w old →
    Name old = looked_up_name this (Start_applySpec this name command options).1.1 →
    (GetStatus w old).1 = StatusError →
    ∃ w' err sigs,
      Start this w env name command options = Some (w', Err err)
      ∧ store w' = store w
      ∧ trace w' = trace w ++ sigs
      ∧ Forall is_interrupt sigs
      ∧ (∀ ev, ev ∈ sigs →
           ∃ i, stored w i
                ∧ Name i = looked_up_name this
                             (Start_applySpec this name command options).1.1
                ∧ (GetStatus w i).1 = StatusRunning
                ∧ ev = EvSignal (Pid i) SignalInt)
      ∧ (EvSignal (Pid old) SignalInt ∉ sigs)
      ∧ (∀ instances,
           GetInstancesByName this w (Start_applySpec this name command options).1.1
           = Ok instances →
           ∃ pre post,
             instances = pre ++ old :: post
             ∧ ∀ ev, ev ∈ sigs → ∃ i, i ∈ pre ∧ ev = EvSignal (Pid i) SignalInt).
Proof.
  intros this w env name command options old Hcmd Hsingle Hstored Hname Herr.
  unfold Start.
  destruct (Start_applySpec this name command options) as [[rn rc] ro].
  simpl in *. rewrite bool_decide_eq_false_2 by done.
  pose proof (Start_singleton_frame this w rn ro) as [Hs _].
  assert (Hnot : ∀ sigs : list Event,
            (∀ ev, ev ∈ sigs →
               ∃ i, (GetStatus w i).1 = StatusRunning ∧ ev = EvSignal (Pid i) SignalInt) →
            EvSignal (Pid old) SignalInt ∉ sigs).
  { intros sigs Hsigs Hin. destruct (Hsigs _ Hin) as (i & Hrun & [= Hpid]).
    assert (Heq : GetStatus w old = GetStatus w i).
    { unfold GetStatus, os_FindProcess, proc_Signal. by rewrite Hpid. }
    rewrite Heq, Hrun in Herr. done. }
  revert Hs. unfold Start_singleton. rewrite Hsingle.
  destruct (GetInstancesByName this w rn) as [instances|e] eqn:Hload.
  2:{ intros _. exists w, e, []. rewrite app_nil_r. do 3 (split; [done|]).
      split; [constructor|]. split; [intros ev H; by apply elem_of_nil in H|].
      split; [apply not_elem_of_nil|]. done. }
  assert (Hmem : ∀ i, i ∈ instances ↔
                      stored w i ∧ Name i = looked_up_name this rn).
  { intros i. unfold GetInstancesByName in Hload. fold (looked_up_name this rn) in Hload.
    rewrite (proj2 (loadInstances_Ok_inv _ _ _ Hload) i). simpl.
    by rewrite bool_decide_eq_true. }
  destruct (Start_stopRunning_abort instances w old)
    as (pre & post & sigs & e & Hsplit & He & Htr & Hsigs); [by apply Hmem|done|].
  destruct (Start_stopRunning w instances) as [w1 r]. simpl in *. subst r.
  intros Hs. exists w1, e, sigs. do 3 (split; [done|]).
  split; [|split; [|split]].
  - apply Forall_forall. intros ev Hev. destruct (Hsigs ev Hev) as (i & _ & _ & ->).
    by eexists.
  - intros ev Hev. destruct (Hsigs ev Hev) as (i & Hi & Hrun & ->).
    exists i. assert (Hin : i ∈ instances).
    { rewrite Hsplit. apply elem_of_app. by left. }
    apply Hmem in Hin as [Hst Hn]. done.
  - apply Hnot. intros ev Hev. destruct (Hsigs ev Hev) as (i & _ & Hrun & ->).
    by exists i.
  - intros instances' [= <-]. exists pre, post. split; [done|].
    intros ev Hev. destruct (Hsigs ev Hev) as (i & Hi & _ & ->). by exists i.
Qed.

Lemma Start_of_singleton_aborts_on_status_error_witness :
  ∃ w' err,
    Start echo_runner
      (set_procs world_after_start
         {[ 812 := {| proc_sigerr := Some "operation not permitted";
                      proc_fatal := [2; 3; 9] |} ]})
      (env_ok id_bytes_2 813 proc_plain) "echo" "" caller_options
    = Some (w', Err err)
    ∧ store w' = store world_after_start.
Proof.
  destruct (Start_of_singleton_aborts_on_status_error echo_runner
              (set_procs world_after_start
                 {[ 812 := {| proc_sigerr := Some "operation not permitted";
                              proc_fatal := [2; 3; 9] |} ]})
              (env_ok id_bytes_2 813 proc_plain) "echo" "" caller_options
              first_instance)
    as (w' & err & sigs & HStart & Hst & _).
  - discriminate.
  - reflexivity.
  - exists good_id, (Dir (started_dir first_instance)).
    split; [apply list_elem_of_here|reflexivity].
  - reflexivity.
  - reflexivity.
  - by exists w', err.
Defined.

(** ** CleanAll, again *)

Lemma loadInstances_loop_readable es :
  (∀ n x, (n, x) ∈ es → is_Some (node_instance x)) →
  ∃ l, loadInstances_loop None None es = Ok l.
Proof.
  intros Hread. destruct (loadInstances_loop None None es) as [l|e] eqn:Hl;
    [by exists l|].
  destruct (proj1 (loadInstances_loop_Err None None es)) as (n & x & Hin & _ & Hx);
    [by exists e|].
  destruct (Hread n x Hin) as [i Hi]. congruence.
Qed.

Lemma CleanAll_loop_noop w instances :
  (∀ i, i ∈ instances → (GetStatus w i).1 ≠ StatusExited) →
  CleanAll_loop w instances = (w, None).
Proof.
  induction instances as [|i l IH]; intros Hno; simpl; [done|].
  rewrite bool_decide_eq_false_2 by (apply Hno, list_elem_of_here).
  apply IH. intros j Hj. by apply Hno, list_elem_of_further.
Qed.

(** X20: on a store as Start builds it, a CleanAll that has returned nil
    leaves a world in which a second CleanAll returns nil and changes
    nothing. *)
Theorem CleanAll_twice_is_CleanAll_once :
  ∀ (w w' : World),
    store_ok w →
    CleanAll w = (w', None) →
    CleanAll w' = (w', None).
Proof.
  intros w w' [Hnd Hid] HClean. unfold CleanAll, List, loadInstances in *.
  simpl in *.
  destruct (store w) as [|err|es] eqn:Hs.
  - injection HClean as <-. by rewrite Hs.
  - done.
  - destruct (loadInstances_loop None None es) as [instances|e] eqn:Hl; [|done].
    destruct (loadInstances_loop_Ok_inv _ _ _ Hl) as [Hread _].
    destruct (CleanAll_loop_spec w es [] w instances w' None)
      as (kept & Hst' & Hp' & Hu' & _ & _ & Hfilter); try done.
    rewrite Hst'. simpl. rewrite (Hfilter eq_refl).
    destruct (loadInstances_loop_readable
                (filter (λ e, entry_exited w e = false) es)) as [l' Hl'].
    { intros n x Hin. apply list_elem_of_filter in Hin as [_ Hin]. by apply (Hread n x). }
    rewrite Hl'. apply CleanAll_loop_noop.
    intros i Hi. apply (loadInstances_loop_Ok_inv _ _ _ Hl') in Hi as [Hi _].
    destruct Hi as (n & x & Hin & Hx).
    apply list_elem_of_filter in Hin as [Hne _].
    unfold entry_exited in Hne. simpl in Hne. rewrite Hx in Hne.
    apply bool_decide_eq_false_1 in Hne.
    by rewrite (GetStatus_ext w' w).
Qed.

Lemma CleanAll_twice_is_CleanAll_once_witness :
  ∃ w', CleanAll three_world = (w', None) ∧ CleanAll w' = (w', None).
Proof.
  eexists. split; [reflexivity|].
  assert (Hok : store_ok three_world).
  { split.
    - apply (bool_decide_unpack (NoDup _)). vm_compute. exact I.
    - simpl. intros name node instance Hin.
      repeat (apply elem_of_cons in Hin as [[= -> ->]|Hin];
              [by intros [= <-]|]).
      by apply elem_of_nil in Hin. }
  exact (CleanAll_twice_is_CleanAll_once three_world _ Hok eq_refl).
Defined.

(** ** A Start that fails after the launch *)

Lemma os_writeIn_frame w fault id f :
  procs (os_writeIn w fault id f).1 = procs w
  ∧ trace (os_writeIn w fault id f).1 = trace w.
Proof.
  unfold os_writeIn. destruct fault; [done|].
  destruct (store w) as [|err|es]; [done..|].
  by destruct (entries_get id es) as [[b|d]|].
Qed.

Lemma Start_inDir_Err_effects w env id name command options w' err :
  Start_inDir w env id name command options = (w', Err err) →
  (procs w' = procs w ∧ trace w' = trace w)
  ∨ ∃ pid p,
      env_launch env = Ok (pid, p)
      ∧ procs w' = <[pid := p]> (procs w)
      ∧ trace w' = trace w ++ [EvExec command (Args options) (WorkDir options)
                                 (Background options) pid].
Proof.
  unfold Start_inDir.
  pose proof (os_writeIn_frame w (env_create_stderr env) id create_stderr) as [Hp1 Ht1].
  destruct (os_writeIn w (env_create_stderr env) id create_stderr) as [w1 [e|]];
    simpl in *.
  { intros [= <- _]. by left. }
  pose proof (os_writeIn_frame w1 (env_create_stdout env) id create_stdout) as [Hp2 Ht2].
  destruct (os_writeIn w1 (env_create_stdout env) id create_stdout) as [w2 [e|]];
    simpl in *.
  { intros [= <- _]. left. split; congruence. }
  unfold cmd_Start. destruct (env_launch env) as [[pid p]|e].
  2:{ intros [= <- _]. left. split; congruence. }
  assert (Hlaunched :
    ∀ w3, procs w3 = <[pid := p]> (procs w2) →
          trace w3 = trace w2 ++ [EvExec command (Args options) (WorkDir options)
                                    (Background options) pid] →
          ∃ pid0 p0, Ok (pid, p) = Ok (pid0, p0)
            ∧ procs w3 = <[pid0 := p0]> (procs w)
            ∧ trace w3 = trace w ++ [EvExec command (Args options) (WorkDir options)
                                       (Background options) pid0]).
  { intros w3 Hp3 Ht3. exists pid, p. split; [done|]. split; congruence. }
  destruct (if Background options then env_release env else None) as [e|].
  { intros [= <- _]. right. by apply Hlaunched. }
  unfold json_Marshal. destruct (env_marshal env) as [e|].
  { intros [= <- _]. right. by apply Hlaunched. }
  set (w3 := log_event _ _).
  pose proof (os_writeIn_frame w3 (env_write env) id
                (write_info (JSON {| ID := id; Time := env_now env; Name := name;
                                     Command := command; Options := options;
                                     Pid := pid |}))) as [Hp4 Ht4].
  destruct (os_writeIn w3 (env_write env) id _) as [w4 [e|]]; simpl in *; [|done].
  intros [= <- _]. right. apply Hlaunched; [by rewrite Hp4|by rewrite Ht4].
Qed.

Lemma remove_entry_frame w es name :
  procs (remove_entry w es name).1 = procs w
  ∧ trace (remove_entry w es name).1 = trace w.
Proof.
  unfold remove_entry. destruct (entries_get name es) as [[b|d]|]; [done| |done].
  by destruct (locked d).
Qed.

Lemma remove_target_frame w t :
  procs (remove_target w t).1 = procs w ∧ trace (remove_target w t).1 = trace w.
Proof.
  unfold remove_target. destruct (store w) as [|e|es]; [done..|].
  destruct t as [|name|name rest|]; [|apply remove_entry_frame| |done].
  - by destruct (existsb is_locked es).
  - destruct (entries_get name es) as [[b|d]|]; [done| |done].
    destruct (inside_file d rest); [|done]. by destruct (locked d).
Qed.

(** A removal touches neither the processes nor the trace. *)
Lemma os_RemoveAll_frame w name :
  procs (os_RemoveAll w name).1 = procs w ∧ trace (os_RemoveAll w name).1 = trace w.
Proof.
  assert (Hpath : procs (remove_path w name).1 = procs w
                  ∧ trace (remove_path w name).1 = trace w).
  { unfold remove_path. destruct (path_target name); try apply remove_target_frame.
    destruct (beyond w !! name) as [[t [e|]]|]; [done| |done].
    apply remove_target_frame. }
  unfold os_RemoveAll. destruct (store w) as [|e|es]; [done..|].
  destruct (entries_get name es); [apply remove_entry_frame|done].
Qed.

(** X21: a Start that returns an error leaves every entry of the root as it
    was and, when the deferred removal of the instance directory does not
    fail, adds none; it has sent nothing but the interrupt signals of the
    singleton rule. If it had launched the command before it failed
    (Release, Marshal or WriteFile failed), the launch is the last thing in
    the trace and the new process is still in the process table: Start does
    not stop the process it has launched, which runs on without a record. *)
Theorem failed_Start_keeps_the_launched_process :
  ∀ (this : AppRunner) (w : World) (env : StartEnv) (name command : string)
    (options : AppStartOptions) (w' : World) (err : string),
    Start this w env name command options = Some (w', Err err) →
    (env_cleanup env = None → root_entries (store w') = root_entries (store w))
    ∧ (∀ n node, store_get w n = Some node → store_get w' n = Some node)
    ∧ ∃ sigs,
        Forall is_interrupt sigs
        ∧ (trace w' = trace w ++ sigs
           ∨ ∃ pid p c a d b,
               env_launch env = Ok (pid, p)
               ∧ procs w' !! pid = Some p
               ∧ trace w' = trace w ++ sigs ++ [EvExec c a d b pid]).
Proof.
  intros this w env name command options w' err HStart.
  split; [intros Hc; by apply (Start_Err_entries _ _ _ _ _ _ _ _ Hc HStart)|].
  split.
  { destruct (Start_Err_inv _ _ _ _ _ _ _ _ HStart)
      as (_ & [Heq|(_ & id & d & Hfree & _ & Heq)]); unfold store_get; rewrite Heq;
      [done|].
    intros n node Hn. destruct (decide (id = n)) as [->|Hne]; [congruence|].
    by rewrite entries_get_ins_ne. }
  revert HStart. unfold Start.
  destruct (Start_applySpec this name command options) as [[rn rc] ro].
  case_bool_decide as Hc.
  { intros [= <- _]. exists []. split; [done|]. left. by rewrite app_nil_r. }
  destruct (Start_singleton_only_signals this w rn ro) as (sigs & Htr & Hsent).
  assert (Hsigs : Forall is_interrupt sigs).
  { apply Forall_forall. intros ev Hev. destruct (Hsent ev Hev) as (i & _ & _ & _ & ->).
    by eexists. }
  destruct (Start_singleton this w rn ro) as [w1 [e|]]; simpl in Htr.
  { intros [= <- _]. exists sigs. split; [done|]. by left. }
  destruct (getNextRandomID w1 (env_rand env)) as [[id|e]|]; [| |done].
  2:{ intros [= <- _]. exists sigs. split; [done|]. by left. }
  assert (Hmk : procs (os_MkdirAll w1 (env_mkdir env) id).1 = procs w1
                ∧ trace (os_MkdirAll w1 (env_mkdir env) id).1 = trace w1).
  { unfold os_MkdirAll. destruct (env_mkdir env); [done|].
    destruct (store w1) as [|e|es]; [done..|].
    by destruct (entries_get id es) as [[b|d]|]. }
  destruct Hmk as [Hp2 Ht2].
  destruct (os_MkdirAll w1 (env_mkdir env) id) as [w2 [e|]]; simpl in *.
  { intros [= <- _]. exists sigs. split; [done|]. left. congruence. }
  destruct (Start_inDir w2 env id rn rc ro) as [w3 [inst|e]] eqn:Hin; [done|].
  assert (Hrm : procs (Start_cleanup w3 env id) = procs w3
                ∧ trace (Start_cleanup w3 env id) = trace w3).
  { unfold Start_cleanup. destruct (env_cleanup env); [done|].
    apply os_RemoveAll_frame. }
  destruct Hrm as [Hp4 Ht4].
  intros [= <- _]. exists sigs. split; [done|].
  destruct (Start_inDir_Err_effects _ _ _ _ _ _ _ _ Hin)
    as [[Hp3 Ht3]|(pid & p & Hl & Hp3 & Ht3)].
  - left. congruence.
  - right. exists pid, p, rc, (Args ro), (WorkDir ro), (Background ro).
    split; [done|]. split.
    + by rewrite Hp4, Hp3, lookup_insert_eq.
    + rewrite Ht4, Ht3, Ht2, Htr. by rewrite <- app_assoc.
Qed.

Lemma failed_Start_keeps_the_launched_process_witness :
  ∃ w', Start echo_runner world_empty (env_write_fails id_bytes_1 812 proc_plain)
          "echo" "" caller_options
        = Some (w', Err "write info.json: no space left on device")
      ∧ root_entries (store w') = []
      ∧ procs w' !! 812 = Some proc_plain.
Proof.
  eexists. split; [reflexivity|]. split; [|reflexivity].
  exact (proj1 (failed_Start_keeps_the_launched_process echo_runner world_empty
                  (env_write_fails id_bytes_1 812 proc_plain) "echo" "" caller_options
                  _ _ eq_refl) eq_refl).
Defined.

(** ** URI classification *)

Lemma prefix_at c s :
  String.prefix "@" (String c s) = if Ascii.ascii_dec "@" c then true else false.
Proof.
  cbn [String.prefix]. destruct (Ascii.ascii_dec "@" c); [by destruct s|done].
Qed.

Lemma index_at_None s : String.index 0 "@" s = None ↔ "@"%char ∉ chars s.
Proof.
  induction s as [|c s IH].
  - split; [intros _; apply not_elem_of_nil|done].
  - cbn [String.index chars]. rewrite not_elem_of_cons, prefix_at.
    destruct (Ascii.ascii_dec "@" c) as [<-|Hne].
    + split; [intros [=]|intros [H _]; by destruct H].
    + destruct (String.index 0 "@" s) as [n|].
      * split; [intros [=]|]. intros [_ Hn]. by apply IH in Hn.
      * split; [|done]. intros _. split; [done|]. by apply IH.
Qed.

Lemma lower_byte_at c : lower_byte c = "@"%char ↔ c = "@"%char.
Proof.
  destruct c as [[] [] [] [] [] [] [] []]; vm_compute; split; congruence.
Qed.

Lemma chars_ascii_ToLower_at s :
  "@"%char ∈ chars (ascii_ToLower s) ↔ "@"%char ∈ chars s.
Proof.
  induction s as [|c s IH]; simpl; [done|].
  rewrite !elem_of_cons, IH.
  split; (intros [H|H]; [left|by right]).
  - symmetry. by apply lower_byte_at.
  - symmetry. apply lower_byte_at. by symmetry.
Qed.

(** X22: for a uri of ASCII bytes, GetUriType decides on the lower-cased
    uri, in this order: a leading "/" or "file://" gives "localPath", a
    leading "https://" gives "https", a leading "ssh://" or an "@" anywhere
    in the uri gives "ssh", and anything else gives "unknown". So the answer
    "unknown" is only given to a uri without "@", and upper-case letters in
    the scheme change nothing. *)
Theorem GetUriType_of_an_ASCII_uri :
  ∀ (unicode_ToLower : string → string) (uri : string),
    isASCII uri = true →
    GetUriType unicode_ToLower uri =
      (if String.prefix "/" (ascii_ToLower uri)
          || String.prefix "file://" (ascii_ToLower uri)
       then "localPath"
       else if String.prefix "https://" (ascii_ToLower uri)
       then "https"
       else if String.prefix "ssh://" (ascii_ToLower uri)
               || bool_decide ("@"%char ∈ chars uri)
       then "ssh"
       else "unknown")
    ∧ (GetUriType unicode_ToLower uri = "unknown" → "@"%char ∉ chars uri)
    ∧ ∀ uri', isASCII uri' = true → ascii_ToLower uri' = ascii_ToLower uri →
              GetUriType unicode_ToLower uri' = GetUriType unicode_ToLower uri.
Proof.
  intros f uri Hascii.
  assert (Heq : GetUriType f uri =
      (if String.prefix "/" (ascii_ToLower uri)
          || String.prefix "file://" (ascii_ToLower uri)
       then "localPath"
       else if String.prefix "https://" (ascii_ToLower uri)
       then "https"
       else if String.prefix "ssh://" (ascii_ToLower uri)
               || bool_decide ("@"%char ∈ chars uri)
       then "ssh"
       else "unknown")).
  { unfold GetUriType, strings_ToLower, strings_HasPrefix, strings_Index.
    rewrite Hascii.
    assert (Hat : negb (match String.index 0 "@" (ascii_ToLower uri) with
                        | Some n => Z.of_nat n
                        | None => -1
                        end =? -1)%Z
                  = bool_decide ("@"%char ∈ chars uri)).
    { destruct (String.index 0 "@" (ascii_ToLower uri)) as [n|] eqn:Hi.
      - symmetry. rewrite (proj2 (Z.eqb_neq _ _)) by lia. simpl.
        apply bool_decide_eq_true_2. apply chars_ascii_ToLower_at.
        destruct (decide ("@"%char ∈ chars (ascii_ToLower uri))) as [|Hn]; [done|].
        apply index_at_None in Hn. congruence.
      - symmetry. simpl. apply bool_decide_eq_false_2.
        rewrite <- chars_ascii_ToLower_at. by apply index_at_None. }
    by rewrite Hat. }
  split; [done|]. split.
  - rewrite Heq.
    destruct (String.prefix "/" (ascii_ToLower uri)
              || String.prefix "file://" (ascii_ToLower uri)); [done|].
    destruct (String.prefix "https://" (ascii_ToLower uri)); [done|].
    case_bool_decide as Hat; [|done].
    by rewrite orb_true_r.
  - intros uri' Hascii' Hlow. unfold GetUriType, strings_ToLower.
    by rewrite Hascii, Hascii', Hlow.
Qed.

Lemma GetUriType_of_an_ASCII_uri_witness :
  GetUriType (λ s, s) "HTTP://deploy@Example.org/Repo" = "ssh".
Proof.
  exact (proj1 (GetUriType_of_an_ASCII_uri (λ s, s) "HTTP://deploy@Example.org/Repo"
                  eq_refl)).
Defined.

(** ** The name of a built Go binary *)

Lemma strings_LastIndex_from_slash s : ∀ i,
  match strings_LastIndex_from i s "/" with
  | None => "/"%char ∉ chars s
  | Some j =>
      ∃ d rest, s = d +:+ "/" +:+ rest ∧ "/"%char ∉ chars rest
                ∧ j = (i + String.length d)%nat
  end.
Proof.
  induction s as [|c s IH]; intros i.
  - simpl. apply not_elem_of_nil.
  - cbn [strings_LastIndex_from]. specialize (IH (S i)).
    destruct (strings_LastIndex_from (S i) s "/") as [j|].
    + destruct IH as (d & rest & -> & Hrest & ->).
      exists (String c d), rest. split; [done|]. split; [done|]. simpl. lia.
    + cbn [String.prefix]. destruct (Ascii.ascii_dec "/" c) as [<-|Hne].
      * replace (String.prefix "" s) with true by (by destruct s).
        exists "", s. split; [done|]. split; [done|]. simpl. lia.
      * simpl. apply not_elem_of_cons. by split.
Qed.

Lemma append_slash_assoc d rest : (d +:+ "/") +:+ rest = d +:+ ("/" +:+ rest).
Proof.
  induction d as [|c d IH]; [done|].
  change (String c ((d +:+ "/") +:+ rest) = String c (d +:+ ("/" +:+ rest))).
  by rewrite IH.
Qed.

Lemma string_drop_app d s : string_drop (String.length d) (d +:+ s) = s.
Proof. induction d as [|c d IH]; simpl; [by destruct s|done]. Qed.

(** X23: Build names the binary by the Output of the spec when that is
    given, and otherwise by what follows the last "/" of the Package: the
    package path is a directory part, empty or ending in "/", followed by
    the name, and the name has no "/" in it; a package path that ends in "/"
    gives the empty name. *)
Theorem outputName_is_the_last_element_of_the_package :
  ∀ (spec : GoBinaryTarget.t),
    (GoBinaryTarget.Output spec ≠ "" → outputName spec = GoBinaryTarget.Output spec)
    ∧ (GoBinaryTarget.Output spec = "" →
       "/"%char ∉ chars (outputName spec)
       ∧ ∃ dir, GoBinaryTarget.Package spec = dir +:+ outputName spec
                ∧ (dir = "" ∨ ∃ d, dir = d +:+ "/")).
Proof.
  intros spec. unfold outputName, strings_LastIndex. split.
  - intros Hne. by rewrite bool_decide_eq_false_2.
  - intros ->. rewrite bool_decide_eq_true_2 by done.
    pose proof (strings_LastIndex_from_slash (GoBinaryTarget.Package spec) 0) as H.
    destruct (strings_LastIndex_from 0 (GoBinaryTarget.Package spec) "/") as [j|].
    + destruct H as (d & rest & Hp & Hrest & ->). rewrite Hp.
      replace (Z.to_nat (Z.of_nat (0 + String.length d) + 1))
        with (String.length (d +:+ "/")).
      2:{ clear. induction d as [|c d IH]; simpl in *; lia. }
      rewrite <- append_slash_assoc.
      rewrite string_drop_app. split; [done|].
      exists (d +:+ "/"). split; [done|]. right. by exists d.
    + simpl. split; [done|]. exists "". split; [done|]. by left.
Qed.

(** ** The Python local finder *)

Lemma int32_range x : - 2 ^ 31 ≤ int32 x < 2 ^ 31.
Proof.
  unfold int32. pose proof (Z.mod_pos_bound (x + 2 ^ 31) (2 ^ 32)). lia.
Qed.

Lemma int32_id x : int32 x = x ↔ - 2 ^ 31 ≤ x < 2 ^ 31.
Proof.
  split.
  - intros <-. apply int32_range.
  - intros Hx. unfold int32. rewrite Z.mod_small by lia. lia.
Qed.

(** X24: a GetProto that succeeds returns the name and module of the finder
    and a Parent within the int32 range: 0 when the finder has no options
    table, and otherwise the "parent" option cut to 32 bits, which is the
    option itself exactly when that lies between -2^31 and 2^31 - 1; larger
    values wrap around without an error. *)
Theorem GetProto_parent_is_cut_to_int32 :
  ∀ (finder : Finder.PythonLocalFinder) (pb : Finder.LocalFinder),
    GetProto finder = Ok pb →
    Finder.pbName pb = GetName finder
    ∧ Finder.pbModule pb = Finder.Module_ finder
    ∧ - 2 ^ 31 ≤ Finder.pbParent pb < 2 ^ 31
    ∧ (Finder.Options finder = None → Finder.pbParent pb = 0)
    ∧ ∀ parent, Finder.Options finder = Some (Ok parent) →
        Finder.pbParent pb = int32 parent
        ∧ (Finder.pbParent pb = parent ↔ - 2 ^ 31 ≤ parent < 2 ^ 31).
Proof.
  intros finder pb. unfold GetProto, GetName.
  destruct (Finder.Options finder) as [[parent|err]|]; [|done|];
    intros [= <-]; simpl.
  - do 2 (split; [done|]). split; [apply int32_range|]. split; [done|].
    intros ? [= <-]. split; [done|]. apply int32_id.
  - do 2 (split; [done|]). split; [done|]. split; [done|]. done.
Qed.

Lemma GetProto_parent_is_cut_to_int32_witness :
  ∃ pb, GetProto {| Finder.Name := "site"; Finder.Module_ := "site_packages";
                    Finder.Options := Some (Ok 2147483648) |} = Ok pb
        ∧ Finder.pbParent pb = int32 2147483648
        ∧ - 2 ^ 31 ≤ Finder.pbParent pb < 2 ^ 31.
Proof.
  eexists. split; [reflexivity|].
  pose proof (GetProto_parent_is_cut_to_int32
                {| Finder.Name := "site"; Finder.Module_ := "site_packages";
                   Finder.Options := Some (Ok 2147483648) |} _ eq_refl)
    as (_ & _ & Hr & _ & Hp).
  exact (conj (proj1 (Hp 2147483648 eq_refl)) Hr).
Defined.
